(** * Rotation, projection and translation utilities of
      [lib/pymafx/utils/geometry.py], over exact real arithmetic

    The tensors of the module hold floating-point numbers.  They are modelled
    here with real numbers: every rounding step is the identity, and the only
    part of IEEE arithmetic that is kept is the production and propagation of
    values that are not finite reals. *)

From Stdlib Require Import String Permutation.
From Stdlib Require Import Reals Lra Psatz List Bool Arith Lia Factorial.
Import ListNotations.
Open Scope R_scope.

(* ================================================================= *)
(** ** Tensor elements *)

(** An element is [Some r] for the finite value [r], and [None] for a value
    that is not a finite real: a NaN, or an infinity.  The two are not told
    apart, and an operation on such a value gives such a value again: a
    result [None] reads "not a finite number".  Two tensors are equal when
    they have the same finite entries at the same places and non-finite
    entries elsewhere. *)
Definition num := option R.

Definition fin (r : R) : num := Some r.

Module Num.

Definition lift1 (f : R -> R) (a : num) : num :=
  match a with
  | Some x => Some (f x)
  | None => None
  end.

Definition lift2 (f : R -> R -> R) (a b : num) : num :=
  match a, b with
  | Some x, Some y => Some (f x y)
  | _, _ => None
  end.

Definition add := lift2 Rplus.
Definition sub := lift2 Rminus.
Definition mul := lift2 Rmult.
Definition neg := lift1 Ropp.

(** [x / 0] is an infinity or a NaN. *)
Definition div (a b : num) : num :=
  match a, b with
  | Some x, Some y => if Req_dec_T y 0 then None else Some (x / y)
  | _, _ => None
  end.

(** The square root of a negative number is a NaN. *)
Definition sqrt (a : num) : num :=
  match a with
  | Some x => if Rlt_dec x 0 then None else Some (R_sqrt.sqrt x)
  | None => None
  end.

(** [Tensor.pow(2)]. *)
Definition pow2 (a : num) : num := mul a a.

Definition cos := lift1 Rtrigo_def.cos.
Definition sin := lift1 Rtrigo_def.sin.
Definition max := lift2 Rmax.

(** Comparisons with a NaN are false. *)
Definition lt (a b : num) : bool :=
  match a, b with
  | Some x, Some y => if Rlt_dec x y then true else false
  | _, _ => false
  end.

Definition gt (a b : num) : bool := lt b a.

Definition isnan (a : num) : bool :=
  match a with
  | Some _ => false
  | None => true
  end.

(** A boolean mask seen as a number, [mask.type_as(q)]. *)
Definition of_bool (b : bool) : num := fin (if b then 1 else 0).

(** [torch.where(c, a, b)] on one element. *)
Definition where_ (c : bool) (a b : num) : num := if c then a else b.

End Num.

Declare Scope num_scope.
Delimit Scope num_scope with num.
Bind Scope num_scope with num.
Infix "+" := Num.add : num_scope.
Infix "-" := Num.sub : num_scope.
Infix "*" := Num.mul : num_scope.
Infix "/" := Num.div : num_scope.
Notation "- a" := (Num.neg a) : num_scope.

(* ================================================================= *)
(** ** Shapes *)

(** A row of a [(B,3)] tensor. *)
Record vec3 := V3 { vx : num; vy : num; vz : num }.

(** A row of a [(B,4)] tensor of quaternions, real part first. *)
Record quat := Q4 { qw : num; qx : num; qy : num; qz : num }.

(** A matrix is the list of its rows; a [(B,r,c)] tensor is a list of
    matrices. *)
Definition matrix := list (list num).

(** [m[i, j]]. *)
Definition ix (m : matrix) (i j : nat) : num := nth j (nth i m []) None.

Definition ncols (m : matrix) : nat := length (hd [] m).

(** [torch.transpose(m, 1, 2)] on one item of the batch, also [a.T] of
    NumPy.  A matrix without rows has no columns here: tensors with an empty
    dimension are outside the model. *)
Definition transpose (m : matrix) : matrix :=
  map (fun j => map (fun r => nth j r None) m) (seq 0 (ncols m)).

Definition vec3_map (f : num -> num) (v : vec3) : vec3 :=
  V3 (f (vx v)) (f (vy v)) (f (vz v)).

Definition vec3_map2 (f : num -> num -> num) (u v : vec3) : vec3 :=
  V3 (f (vx u) (vx v)) (f (vy u) (vy v)) (f (vz u) (vz v)).

Definition vec3_sum (v : vec3) : num := (vx v + vy v + vz v)%num.

Definition quat_map (f : num -> num) (q : quat) : quat :=
  Q4 (f (qw q)) (f (qx q)) (f (qy q)) (f (qz q)).

Definition quat_neg (q : quat) : quat := quat_map Num.neg q.

(* ================================================================= *)
(** ** The library functions the module calls *)

Module Torch.

(** [torch.norm(v, p=2, dim=1)] on a row of three. *)
Definition norm3 (v : vec3) : num :=
  Num.sqrt (vx v * vx v + vy v * vy v + vz v * vz v)%num.

(** [q.norm(p=2, dim=1, keepdim=True)] on a row of four. *)
Definition norm4 (q : quat) : num :=
  Num.sqrt (qw q * qw q + qx q * qx q + qy q * qy q + qz q * qz q)%num.

(** [F.normalize(v)]: [v / max(‖v‖, 1e-12)] along dimension 1. *)
Definition normalize (v : vec3) : vec3 :=
  let d := Num.max (norm3 v) (fin 1e-12) in
  vec3_map (fun a => (a / d)%num) v.

(** [torch.einsum('bi,bi->b', u, v)]. *)
Definition dot3 (u v : vec3) : num :=
  (vx u * vx v + vy u * vy v + vz u * vz v)%num.

(** [torch.cross(u, v, dim=-1)]. *)
Definition cross (u v : vec3) : vec3 :=
  V3 (vy u * vz v - vz u * vy v)%num
     (vz u * vx v - vx u * vz v)%num
     (vx u * vy v - vy u * vx v)%num.

(** [torch.atan2(y, x)] on reals; the reals have one zero, which is taken
    as the positive one. *)
Definition atan2R (y x : R) : R :=
  if Rlt_dec 0 x then atan (y / x)
  else if Rlt_dec x 0 then
    if Rlt_dec y 0 then atan (y / x) - PI else atan (y / x) + PI
  else if Rlt_dec 0 y then PI / 2
  else if Rlt_dec y 0 then - (PI / 2)
  else 0.

Definition atan2 := Num.lift2 atan2R.

End Torch.

(* ================================================================= *)
(** ** Quaternion to matrix *)

(** [quat_to_rotmat], one quaternion of the batch. *)
Definition quat_to_rotmat1 (quat : quat) : matrix :=
  let n := Torch.norm4 quat in
  let w := (qw quat / n)%num in
  let x := (qx quat / n)%num in
  let y := (qy quat / n)%num in
  let z := (qz quat / n)%num in
  let w2 := Num.pow2 w in
  let x2 := Num.pow2 x in
  let y2 := Num.pow2 y in
  let z2 := Num.pow2 z in
  let wx := (w * x)%num in
  let wy := (w * y)%num in
  let wz := (w * z)%num in
  let xy := (x * y)%num in
  let xz := (x * z)%num in
  let yz := (y * z)%num in
  [ [ w2 + x2 - y2 - z2; fin 2 * xy - fin 2 * wz; fin 2 * wy + fin 2 * xz ];
    [ fin 2 * wz + fin 2 * xy; w2 - x2 + y2 - z2; fin 2 * yz - fin 2 * wx ];
    [ fin 2 * xz - fin 2 * wy; fin 2 * wx + fin 2 * yz; w2 - x2 - y2 + z2 ]
  ]%num.

Definition quat_to_rotmat (quat : list quat) : list matrix :=
  map quat_to_rotmat1 quat.

(** [quaternion_to_rotation_matrix], one quaternion of the batch. *)
Definition quaternion_to_rotation_matrix1 (quat : quat) : matrix :=
  let n := Torch.norm4 quat in
  let w := (qw quat / n)%num in
  let x := (qx quat / n)%num in
  let y := (qy quat / n)%num in
  let z := (qz quat / n)%num in
  let w2 := Num.pow2 w in
  let x2 := Num.pow2 x in
  let y2 := Num.pow2 y in
  let z2 := Num.pow2 z in
  let wx := (w * x)%num in
  let wy := (w * y)%num in
  let wz := (w * z)%num in
  let xy := (x * y)%num in
  let xz := (x * z)%num in
  let yz := (y * z)%num in
  [ [ w2 + x2 - y2 - z2; fin 2 * xy - fin 2 * wz; fin 2 * wy + fin 2 * xz ];
    [ fin 2 * wz + fin 2 * xy; w2 - x2 + y2 - z2; fin 2 * yz - fin 2 * wx ];
    [ fin 2 * xz - fin 2 * wy; fin 2 * wx + fin 2 * yz; w2 - x2 - y2 + z2 ]
  ]%num.

Definition quaternion_to_rotation_matrix (quat : list quat) : list matrix :=
  map quaternion_to_rotation_matrix1 quat.

(* ================================================================= *)
(** ** Axis-angle to matrix *)

(** [batch_rodrigues], one row of [theta]. *)
Definition batch_rodrigues1 (theta : vec3) : matrix :=
  let l1norm := Torch.norm3 (vec3_map (fun a => (a + fin 1e-8)%num) theta) in
  let angle := l1norm in
  let normalized := vec3_map (fun a => (a / angle)%num) theta in
  let angle := (angle * fin 0.5)%num in
  let v_cos := Num.cos angle in
  let v_sin := Num.sin angle in
  let quat := Q4 v_cos (v_sin * vx normalized)%num (v_sin * vy normalized)%num
                 (v_sin * vz normalized)%num in
  quat_to_rotmat1 quat.

Definition batch_rodrigues (theta : list vec3) : list matrix :=
  map batch_rodrigues1 theta.

(** The identity matrix, as a tensor. *)
Definition eye3 : matrix :=
  [ [ fin 1; fin 0; fin 0 ]; [ fin 0; fin 1; fin 0 ]; [ fin 0; fin 0; fin 1 ] ].

(* ================================================================= *)
(** ** Matrix to quaternion and to axis-angle *)

Definition quat_map2 (f : num -> num -> num) (p q : quat) : quat :=
  Q4 (f (qw p) (qw q)) (f (qx p) (qx q)) (f (qy p) (qy q)) (f (qz p) (qz q)).

(** A row of four times a [(B,1)] column, and the sum of two rows. *)
Definition quat_scale (q : quat) (c : num) : quat :=
  quat_map (fun a => (a * c)%num) q.

Definition quat_add : quat -> quat -> quat := quat_map2 Num.add.

(** [rotation_matrix_to_quaternion] with its default [eps = 1e-6], one
    matrix of the batch.  The four candidates are blended with the masks as
    numbers, as the source does. *)
Definition rotation_matrix_to_quaternion1 (rotation_matrix : matrix) : quat :=
  let eps := fin 1e-6 in
  let rmat_t := transpose rotation_matrix in
  let mask_d2 := Num.lt (ix rmat_t 2 2) eps in
  let mask_d0_d1 := Num.gt (ix rmat_t 0 0) (ix rmat_t 1 1) in
  let mask_d0_nd1 := Num.lt (ix rmat_t 0 0) (- ix rmat_t 1 1)%num in
  let t0 := (fin 1 + ix rmat_t 0 0 - ix rmat_t 1 1 - ix rmat_t 2 2)%num in
  let q0 := Q4 (ix rmat_t 1 2 - ix rmat_t 2 1)%num t0
               (ix rmat_t 0 1 + ix rmat_t 1 0)%num
               (ix rmat_t 2 0 + ix rmat_t 0 2)%num in
  let t1 := (fin 1 - ix rmat_t 0 0 + ix rmat_t 1 1 - ix rmat_t 2 2)%num in
  let q1 := Q4 (ix rmat_t 2 0 - ix rmat_t 0 2)%num
               (ix rmat_t 0 1 + ix rmat_t 1 0)%num t1
               (ix rmat_t 1 2 + ix rmat_t 2 1)%num in
  let t2 := (fin 1 - ix rmat_t 0 0 - ix rmat_t 1 1 + ix rmat_t 2 2)%num in
  let q2 := Q4 (ix rmat_t 0 1 - ix rmat_t 1 0)%num
               (ix rmat_t 2 0 + ix rmat_t 0 2)%num
               (ix rmat_t 1 2 + ix rmat_t 2 1)%num t2 in
  let t3 := (fin 1 + ix rmat_t 0 0 + ix rmat_t 1 1 + ix rmat_t 2 2)%num in
  let q3 := Q4 t3 (ix rmat_t 1 2 - ix rmat_t 2 1)%num
               (ix rmat_t 2 0 - ix rmat_t 0 2)%num
               (ix rmat_t 0 1 - ix rmat_t 1 0)%num in
  let mask_c0 := Num.of_bool (mask_d2 && mask_d0_d1) in
  let mask_c1 := Num.of_bool (mask_d2 && negb mask_d0_d1) in
  let mask_c2 := Num.of_bool (negb mask_d2 && mask_d0_nd1) in
  let mask_c3 := Num.of_bool (negb mask_d2 && negb mask_d0_nd1) in
  let q := quat_add (quat_add (quat_add (quat_scale q0 mask_c0)
                                        (quat_scale q1 mask_c1))
                              (quat_scale q2 mask_c2))
                    (quat_scale q3 mask_c3) in
  let d := Num.sqrt (t0 * mask_c0 + t1 * mask_c1 + t2 * mask_c2
                     + t3 * mask_c3)%num in
  let q := quat_map (fun a => (a / d)%num) q in
  quat_scale q (fin 0.5).

Definition rotation_matrix_to_quaternion (rotation_matrix : list matrix)
  : list quat :=
  map rotation_matrix_to_quaternion1 rotation_matrix.

(** [quaternion_to_angle_axis], one quaternion. *)
Definition quaternion_to_angle_axis1 (quaternion : quat) : vec3 :=
  let q1 := qx quaternion in
  let q2 := qy quaternion in
  let q3 := qz quaternion in
  let sin_squared_theta := (q1 * q1 + q2 * q2 + q3 * q3)%num in
  let sin_theta := Num.sqrt sin_squared_theta in
  let cos_theta := qw quaternion in
  let two_theta :=
    (fin 2 * Num.where_ (Num.lt cos_theta (fin 0))
                        (Torch.atan2 (- sin_theta) (- cos_theta))
                        (Torch.atan2 sin_theta cos_theta))%num in
  let k_pos := (two_theta / sin_theta)%num in
  let k_neg := (fin 2 * fin 1)%num in
  let k := Num.where_ (Num.gt sin_squared_theta (fin 0)) k_pos k_neg in
  V3 (fin 0 + q1 * k)%num (fin 0 + q2 * k)%num (fin 0 + q3 * k)%num.

Definition quaternion_to_angle_axis (quaternion : list quat) : list vec3 :=
  map quaternion_to_angle_axis1 quaternion.

(** [m.shape == (r, c)] for one matrix. *)
Definition shape_is (r c : nat) (m : matrix) : bool :=
  Nat.eqb (length m) r && forallb (fun row => Nat.eqb (length row) c) m.

(** [torch.cat([a, b], dim=-1)] on one item: rows are joined pairwise. *)
Fixpoint cat_last (a b : matrix) : matrix :=
  match a, b with
  | ra :: a', rb :: b' => (ra ++ rb) :: cat_last a' b'
  | _, _ => []
  end.

(** The same on a batch. *)
Fixpoint batch_cat_last (a b : list matrix) : list matrix :=
  match a, b with
  | ma :: a', mb :: b' => cat_last ma mb :: batch_cat_last a' b'
  | _, _ => []
  end.

(** [torch.tensor([0, 0, 1]).reshape(1, 3, 1)], one item. *)
Definition hom_item : matrix := [ [ fin 0 ]; [ fin 0 ]; [ fin 1 ] ].

(** The lines under [if rotation_matrix.shape[1:] == (3, 3)]: [hom] is
    expanded to the batch and joined to [rot_mat] along the last
    dimension. *)
Definition pad_hom (rot_mat : list matrix) : list matrix :=
  let hom := repeat hom_item (length rot_mat) in
  batch_cat_last rot_mat hom.

(** [aa[torch.isnan(aa)] = 0.0] on one element. *)
Definition nan_to_zero (a : num) : num := if Num.isnan a then fin 0 else a.

(** The lines from [quaternion = ...] on: the pipeline that the padded
    tensor goes through. *)
Definition angle_axis_pipeline (rotation_matrix : list matrix) : list vec3 :=
  let quaternion := rotation_matrix_to_quaternion rotation_matrix in
  let aa := quaternion_to_angle_axis quaternion in
  map (vec3_map nan_to_zero) aa.

Definition rotation_matrix_to_angle_axis (rotation_matrix : list matrix)
  : list vec3 :=
  let rotation_matrix :=
    if forallb (shape_is 3 3) rotation_matrix then pad_hom rotation_matrix
    else rotation_matrix in
  angle_axis_pipeline rotation_matrix.

(* ================================================================= *)
(** ** The 6D representation *)

Fixpoint chunk_aux {A : Type} (fuel n : nat) (l : list A) : list (list A) :=
  match fuel, l with
  | _, [] => []
  | O, _ => []
  | S fuel', _ => firstn n l :: chunk_aux fuel' n (skipn n l)
  end.

(** A list cut into pieces of [n] elements: the reshapes that split a
    dimension in row-major order. *)
Definition chunk {A : Type} (n : nat) (l : list A) : list (list A) :=
  chunk_aux (length l) n l.

(** The argument of [rot6d_to_rotmat] has rank 2 or rank 3. *)
Inductive rot6d_arg :=
| Rank2 (x : list (list num))
| Rank3 (x : list (list (list num))).

(** Its result has rank 3 or rank 4. *)
Inductive rot6d_res :=
| Mats (mat : list matrix)
| MatGroups (mat : list (list matrix)).

(** [x.shape[-1]]. *)
Definition last_dim (x : rot6d_arg) : nat :=
  match x with
  | Rank2 r => length (hd [] r)
  | Rank3 g => length (hd [] (hd [] g))
  end.

(** [torch.stack((b1, b2, b3), dim=-1)]: the three vectors are the columns. *)
Definition stack_cols (b1 b2 b3 : vec3) : matrix :=
  [ [ vx b1; vx b2; vx b3 ]; [ vy b1; vy b2; vy b3 ]; [ vz b1; vz b2; vz b3 ] ].

(** The lines from [a1 = x[:, :, 0]] to [torch.stack], the same in both
    branches of [rot6d_to_rotmat], on one [(3,2)] item. *)
Definition rot6d_item (x : matrix) : matrix :=
  let a1 := V3 (ix x 0 0) (ix x 1 0) (ix x 2 0) in
  let a2 := V3 (ix x 0 1) (ix x 1 1) (ix x 2 1) in
  let b1 := Torch.normalize a1 in
  let b2 := Torch.normalize
              (vec3_map2 Num.sub a2
                 (vec3_map (fun a => (Torch.dot3 b1 a2 * a)%num) b1)) in
  let b3 := Torch.cross b1 b2 in
  stack_cols b1 b2 b3.

Definition rot6d_to_rotmat (x : rot6d_arg) : rot6d_res :=
  if Nat.eqb (last_dim x) 6 then
    let num_x :=
      match x with
      | Rank3 g => (length (hd [] g), concat g)
      | Rank2 r => (1%nat, r)
      end in
    let num := fst num_x in
    let x := map (chunk 2) (snd num_x) in
    let mat := map rot6d_item x in
    if Nat.ltb 1 num then MatGroups (chunk num mat) else Mats mat
  else
    let flat :=
      match x with
      | Rank3 g => concat (concat g)
      | Rank2 r => concat r
      end in
    let x := chunk 3 (chunk 2 flat) in
    Mats (map rot6d_item x).

(** [rotmat_to_rot6d]: the first two columns, flattened row by row. *)
Definition rotmat_to_rot6d (x : list matrix) : list (list num) :=
  let x := map (map (firstn 2)) x in
  map (@concat num) x.

(* ================================================================= *)
(** ** Projection *)

(** An argument that is one scalar for the batch or one value per item. *)
Inductive bcast :=
| Scalar (a : num)
| PerItem (a : list num).

Definition bcast_at (a : bcast) (b : nat) : num :=
  match a with
  | Scalar x => x
  | PerItem l => nth b l None
  end.

(** The camera of [perspective_projection]: [cam_intrinsics] when it is not
    [None], else [focal_length] and [camera_center]. *)
Inductive camera :=
| CamIntrinsics (cam_intrinsics : list matrix)
| FocalCenter (focal_length : bcast) (camera_center : list (num * num)).

(** [K] for item [b]. *)
Definition intrinsics_at (cam : camera) (b : nat) : matrix :=
  match cam with
  | CamIntrinsics K => nth b K []
  | FocalCenter focal_length camera_center =>
      let c := nth b camera_center (None, None) in
      [ [ bcast_at focal_length b; fin 0; fst c ];
        [ fin 0; bcast_at focal_length b; snd c ];
        [ fin 0; fin 0; fin 1 ] ]
  end.

(** [torch.einsum('bij,bkj->bki', m, points)] on one point. *)
Definition mat_vec3 (m : matrix) (p : vec3) : vec3 :=
  V3 (ix m 0 0 * vx p + ix m 0 1 * vy p + ix m 0 2 * vz p)%num
     (ix m 1 0 * vx p + ix m 1 1 * vy p + ix m 1 2 * vz p)%num
     (ix m 2 0 * vx p + ix m 2 1 * vy p + ix m 2 2 * vz p)%num.

Definition nan3 : vec3 := V3 None None None.

(** The lines under [# Transform points]: the point in the camera frame. *)
Definition transform_point (rotation : matrix) (translation : vec3)
    (p : vec3) : vec3 :=
  let points := mat_vec3 rotation p in
  vec3_map2 Num.add points translation.

(** [perspective_projection] on point [p] of item [b]. *)
Definition perspective_projection_point (rotation : matrix)
    (translation : vec3) (K : matrix) (retain_z : bool) (p : vec3)
  : list num :=
  let points := transform_point rotation translation p in
  let projected_points := vec3_map (fun a => (a / vz points)%num) points in
  let projected_points := mat_vec3 K projected_points in
  if retain_z then
    [ vx projected_points; vy projected_points; vz projected_points ]
  else [ vx projected_points; vy projected_points ].

Definition perspective_projection (points : list (list vec3))
    (rotation : list matrix) (translation : list vec3) (cam : camera)
    (retain_z : bool) : list (list (list num)) :=
  map (fun b =>
         map (perspective_projection_point (nth b rotation [])
                (nth b translation nan3) (intrinsics_at cam b) retain_z)
             (nth b points []))
      (seq 0 (length points)).

(** [convert_to_full_img_cam] on item [b]. *)
Definition convert_to_full_img_cam1 (pare_cam : vec3) (bbox_height : num)
    (bbox_center : num * num) (img_w img_h focal_length : num) : vec3 :=
  let s := vx pare_cam in
  let tx := vy pare_cam in
  let ty := vz pare_cam in
  let res := fin 224 in
  let r := (bbox_height / res)%num in
  let tz := (fin 2 * focal_length / (r * res * s))%num in
  let cx := (fin 2 * (fst bbox_center - img_w / fin 2)
             / (s * bbox_height))%num in
  let cy := (fin 2 * (snd bbox_center - img_h / fin 2)
             / (s * bbox_height))%num in
  V3 (tx + cx)%num (ty + cy)%num tz.

Definition convert_to_full_img_cam (pare_cam : list vec3)
    (bbox_height : list num) (bbox_center : list (num * num))
    (img_w img_h : bcast) (focal_length : list num) : list vec3 :=
  map (fun b =>
         convert_to_full_img_cam1 (nth b pare_cam nan3)
           (nth b bbox_height None) (nth b bbox_center (None, None))
           (bcast_at img_w b) (bcast_at img_h b) (nth b focal_length None))
      (seq 0 (length pare_cam)).

(* ================================================================= *)
(** ** Translation from 2D/3D correspondences *)

Module Np.

(** [np.tile(v, n)] for a vector. *)
Definition tile {A : Type} (v : list A) (n : nat) : list A :=
  concat (repeat v n).

(** An elementwise operation on two vectors of one length. *)
Definition zip_with (f : num -> num -> num) (u v : list num) : list num :=
  map (fun p => f (fst p) (snd p)) (combine u v).

Definition sum (v : list num) : num := fold_right Num.add (fin 0) v.

(** [np.dot] of two vectors, of a matrix and a vector, of two matrices. *)
Definition dot_vv (u v : list num) : num := sum (zip_with Num.mul u v).

Definition dot_mv (m : matrix) (v : list num) : list num :=
  map (fun row => dot_vv row v) m.

Definition dot_mm (m n : matrix) : matrix :=
  map (fun row => map (fun col => dot_vv row col) (transpose n)) m.

(** [np.diagflat(w)]. *)
Definition diagflat (w : list num) : matrix :=
  map (fun i =>
         map (fun j => if Nat.eqb i j then nth i w None else fin 0)
             (seq 0 (length w)))
      (seq 0 (length w)).

Definition det3 (a : matrix) : num :=
  (ix a 0 0 * (ix a 1 1 * ix a 2 2 - ix a 1 2 * ix a 2 1)
   - ix a 0 1 * (ix a 1 0 * ix a 2 2 - ix a 1 2 * ix a 2 0)
   + ix a 0 2 * (ix a 1 0 * ix a 2 1 - ix a 1 1 * ix a 2 0))%num.

(** [a] with column [j] replaced by [b]. *)
Definition replace_col (a : matrix) (j : nat) (b : list num) : matrix :=
  map (fun i =>
         map (fun k => if Nat.eqb k j then nth i b None else ix a i k)
             (seq 0 3))
      (seq 0 3).

(** [np.linalg.solve(a, b)] for a system of three equations, given by what
    it returns rather than by LAPACK's elimination: the solution of
    [a x = b], written with Cramer's rule, when [a] is invertible; [None]
    stands for the [LinAlgError] raised on a singular matrix.  A NaN in the
    system raises nothing and makes the solution NaN. *)
Definition linalg_solve (a : matrix) (b : list num) : option (list num) :=
  match det3 a with
  | Some d =>
      if Req_dec_T d 0 then None
      else Some [ (det3 (replace_col a 0 b) / fin d)%num;
                  (det3 (replace_col a 1 b) / fin d)%num;
                  (det3 (replace_col a 2 b) / fin d)%num ]
  | None => Some [ None; None; None ]
  end.

End Np.

(** The lines of [estimate_translation_np] down to [b = np.dot(Q.T, c)]:
    the matrix [A] and the right-hand side [b] of the normal equations.
    [S_] is the source's [S]. *)
Definition normal_equations (S_ : list vec3)
    (joints_2d : list (num * num)) (joints_conf : list num)
    (focal_length : num) (img_size : num * num) : matrix * list num :=
  let num_joints := length S_ in
  let f := [ focal_length; focal_length ] in
  let center := [ (snd img_size / fin 2)%num; (fst img_size / fin 2)%num ] in
  let Z := concat (transpose [ map vz S_; map vz S_ ]) in
  let XY := concat (map (fun s => [ vx s; vy s ]) S_) in
  let O := Np.tile center num_joints in
  let F := Np.tile f num_joints in
  let weight2 :=
    concat (transpose [ map Num.sqrt joints_conf; map Num.sqrt joints_conf ]) in
  let joints_flat := concat (map (fun p => [ fst p; snd p ]) joints_2d) in
  let Q :=
    transpose
      [ Np.zip_with Num.mul F (Np.tile [ fin 1; fin 0 ] num_joints);
        Np.zip_with Num.mul F (Np.tile [ fin 0; fin 1 ] num_joints);
        Np.zip_with Num.sub O joints_flat ] in
  let c :=
    Np.zip_with Num.sub
      (Np.zip_with Num.mul (Np.zip_with Num.sub joints_flat O) Z)
      (Np.zip_with Num.mul F XY) in
  let W := Np.diagflat weight2 in
  let Q := Np.dot_mm W Q in
  let c := Np.dot_mv W c in
  let A := Np.dot_mm (transpose Q) Q in
  let b := Np.dot_mv (transpose Q) c in
  (A, b).

(** [estimate_translation_np]: [trans = np.linalg.solve(A, b)]. *)
Definition estimate_translation_np (S_ : list vec3)
    (joints_2d : list (num * num)) (joints_conf : list num)
    (focal_length : num) (img_size : num * num) : option (list num) :=
  let Ab := normal_equations S_ joints_2d joints_conf focal_length img_size in
  Np.linalg_solve (fst Ab) (snd Ab).

(* ================================================================= *)
(** ** Twist about an axis *)

(** [compute_twist_rotation] on one item: the twist rotation and the twist
    angle. *)
Definition compute_twist_rotation1 (rotation_matrix : matrix)
    (twist_axis : vec3) : matrix * num :=
  let quaternion := rotation_matrix_to_quaternion1 rotation_matrix in
  let n := (Torch.norm3 twist_axis + fin 1e-9)%num in
  let twist_axis := vec3_map (fun a => (a / n)%num) twist_axis in
  let d := Torch.dot3 twist_axis
             (V3 (qx quaternion) (qy quaternion) (qz quaternion)) in
  let projection := vec3_map (fun a => (d * a)%num) twist_axis in
  let twist_quaternion :=
    Q4 (qw quaternion) (vx projection) (vy projection) (vz projection) in
  let n := (Torch.norm4 twist_quaternion + fin 1e-9)%num in
  let twist_quaternion := quat_map (fun a => (a / n)%num) twist_quaternion in
  let twist_rotation := quaternion_to_rotation_matrix1 twist_quaternion in
  let twist_aa := quaternion_to_angle_axis1 twist_quaternion in
  let twist_angle := (vec3_sum twist_aa / vec3_sum twist_axis)%num in
  (twist_rotation, twist_angle).

Definition compute_twist_rotation (rotation_matrix : list matrix)
    (twist_axis : list vec3) : list matrix * list num :=
  let r :=
    map (fun b =>
           compute_twist_rotation1 (nth b rotation_matrix [])
             (nth b twist_axis nan3))
        (seq 0 (length rotation_matrix)) in
  (map fst r, map snd r).


(* ================================================================= *)
(** ** Exceptions *)

(** The exceptions that the functions below raise: [KeyError] carries the
    missing key. *)
Inductive py_error :=
| ValueError
| KeyError (key : string)
| IndexError
| LinAlgError.

(** A returned value, or the exception raised. *)
Definition result (A : Type) : Type := (py_error + A)%type.

(* ================================================================= *)
(** ** The angle of a quaternion *)



(* ================================================================= *)
(** ** Euler angles *)

(** [euler_to_quaternion], one row of [r]. *)
Definition euler_to_quaternion1 (r : vec3) : quat :=
  let x := vx r in
  let y := vy r in
  let z := vz r in
  let z := (z / fin 2)%num in
  let y := (y / fin 2)%num in
  let x := (x / fin 2)%num in
  let cz := Num.cos z in
  let sz := Num.sin z in
  let cy := Num.cos y in
  let sy := Num.sin y in
  let cx := Num.cos x in
  let sx := Num.sin x in
  Q4 (fin 0 + (cx * cy * cz - sx * sy * sz))%num
     (fin 0 + (cx * sy * sz + cy * cz * sx))%num
     (fin 0 + (cx * cz * sy - sx * cy * sz))%num
     (fin 0 + (cx * cy * sz + sx * cz * sy))%num.

Definition euler_to_quaternion (r : list vec3) : list quat :=
  map euler_to_quaternion1 r.

Definition batch_euler2matrix (r : list vec3) : list matrix :=
  quaternion_to_rotation_matrix (euler_to_quaternion r).

(* ================================================================= *)
(** ** The angle of a 2D rotation *)

(** [F.normalize] on a row of two: [v / max(‖v‖, 1e-12)]. *)
Definition normalize2 (v : num * num) : num * num :=
  let n := Num.sqrt (fst v * fst v + snd v * snd v)%num in
  let d := Num.max n (fin 1e-12) in
  ((fst v / d)%num, (snd v / d)%num).

(** [rotmat_to_angle]: a [(B,2)] tensor to a [(B,1)] tensor. *)
Definition rotmat_to_angle (x : list (num * num)) : list (list num) :=
  map (fun v =>
         let a := normalize2 v in
         [ Torch.atan2 (fst a) (snd a) ])
      x.

(* ================================================================= *)
(** ** Rotations about the coordinate axes *)

(** What [Rot_x], [Rot_y] and [Rot_z] return: the matrix, or the matrix with
    a dimension of size one in front.  The torch tensor and the NumPy array
    hold the same numbers here. *)
Inductive rot_out :=
| Rot33 (m : matrix)
| Rot133 (m : list matrix).

Definition Rot_y (angle : num) (category : string) (prepend_dim : bool)
  : result rot_out :=
  let m := [ [ Num.cos angle; fin 0; Num.sin angle ];
             [ fin 0; fin 1; fin 0 ];
             [ (- Num.sin angle)%num; fin 0; Num.cos angle ] ] in
  if String.eqb category "torch" then
    if prepend_dim then inr (Rot133 [ m ]) else inr (Rot33 m)
  else if String.eqb category "numpy" then
    if prepend_dim then inr (Rot133 [ m ]) else inr (Rot33 m)
  else inl ValueError.

Definition Rot_x (angle : num) (category : string) (prepend_dim : bool)
  : result rot_out :=
  let m := [ [ fin 1; fin 0; fin 0 ];
             [ fin 0; Num.cos angle; (- Num.sin angle)%num ];
             [ fin 0; Num.sin angle; Num.cos angle ] ] in
  if String.eqb category "torch" then
    if prepend_dim then inr (Rot133 [ m ]) else inr (Rot33 m)
  else if String.eqb category "numpy" then
    if prepend_dim then inr (Rot133 [ m ]) else inr (Rot33 m)
  else inl ValueError.

Definition Rot_z (angle : num) (category : string) (prepend_dim : bool)
  : result rot_out :=
  let m := [ [ Num.cos angle; (- Num.sin angle)%num; fin 0 ];
             [ Num.sin angle; Num.cos angle; fin 0 ];
             [ fin 0; fin 0; fin 1 ] ] in
  if String.eqb category "torch" then
    if prepend_dim then inr (Rot133 [ m ]) else inr (Rot33 m)
  else if String.eqb category "numpy" then
    if prepend_dim then inr (Rot133 [ m ]) else inr (Rot33 m)
  else inl ValueError.

(* ================================================================= *)
(** ** Projection with a predicted camera *)

(** The dictionary [pred_camera]: a key that is absent is [None], a key
    that is present holds a tensor of the shape that [projection] expects
    under it. *)
Record camera_dict := CameraDict {
  key_cam_sxy : option (list vec3);
  key_bbox_scale : option (list num);
  key_bbox_center : option (list (num * num));
  key_img_w : option bcast;
  key_img_h : option bcast;
  key_crop_res : option num;
  key_cam_rotmat : option (list matrix);
  key_cam_intrinsics : option (list matrix);
  key_cam_t : option (list vec3) }.

(** [d[key]]. *)
Definition getitem {A : Type} (key : string) (v : option A) : result A :=
  match v with
  | Some a => inr a
  | None => inl (KeyError key)
  end.

(** Sequencing of calls that may raise. *)
Definition bind {A B : Type} (r : result A) (k : A -> result B) : result B :=
  match r with
  | inl e => inl e
  | inr a => k a
  end.

Notation "x <- r ;; k" := (bind r (fun x => k))
  (at level 61, r at next level, right associativity).

Definition projection (pred_joints : list (list vec3))
    (pred_camera : camera_dict) (retain_z iwp_mode : bool)
  : result (list (list (list num))) :=
  let batch_size := length pred_joints in
  if iwp_mode then
    cam_sxy <- getitem "cam_sxy" (key_cam_sxy pred_camera) ;;
    let pred_cam_t :=
      map (fun c =>
             V3 (vy c) (vz c)
                (fin 2 * fin 5000 / (fin 224 * vx c + fin 1e-9))%num)
          cam_sxy in
    let camera_center := repeat (fin 0, fin 0) batch_size in
    inr (perspective_projection pred_joints (repeat eye3 batch_size)
           pred_cam_t (FocalCenter (Scalar (fin 5000)) camera_center)
           retain_z)
  else
    bbox_scale <- getitem "bbox_scale" (key_bbox_scale pred_camera) ;;
    bbox_center <- getitem "bbox_center" (key_bbox_center pred_camera) ;;
    img_w <- getitem "img_w" (key_img_w pred_camera) ;;
    img_h <- getitem "img_h" (key_img_h pred_camera) ;;
    crop_res <- getitem "crop_res" (key_crop_res pred_camera) ;;
    cam_sxy <- getitem "cam_sxy" (key_cam_sxy pred_camera) ;;
    cam_rotmat <- getitem "cam_rotmat" (key_cam_rotmat pred_camera) ;;
    cam_intrinsics <-
      getitem "cam_intrinsics" (key_cam_intrinsics pred_camera) ;;
    let cam_t :=
      match key_cam_t pred_camera with
      | Some cam_t => cam_t
      | None =>
          convert_to_full_img_cam cam_sxy
            (map (fun s => (s * fin 200)%num) bbox_scale) bbox_center
            img_w img_h (map (fun K => ix K 0 0) cam_intrinsics)
      end in
    inr (perspective_projection pred_joints cam_rotmat cam_t
           (CamIntrinsics cam_intrinsics) false).

(* ================================================================= *)
(** ** Translation for a batch *)

(** [focal_length]: a number, or a sequence with one focal length per
    item. *)
Inductive focal_arg :=
| FocalNumber (f : num)
| FocalSeq (l : list num).

(** [img_size]: a number, or a sequence with one pair per item. *)
Inductive size_arg :=
| SizeNumber (s : num)
| SizeSeq (l : list (num * num)).

(** [l[i]]. *)
Definition index {A : Type} (l : list A) (i : nat) : result A :=
  match nth_error l i with
  | Some a => inr a
  | None => inl IndexError
  end.

(** The body of the loop of [estimate_translation], for item [i]. *)
Definition estimate_translation_item (S_ : list (list vec3))
    (joints_2d : list (list (num * num))) (joints_conf : list (list num))
    (focal_length : list num) (img_size : list (num * num)) (i : nat)
  : result (list num) :=
  S_i <- index S_ i ;;
  joints_i <- index joints_2d i ;;
  conf_i <- index joints_conf i ;;
  f <- index focal_length i ;;
  sz <- index img_size i ;;
  match estimate_translation_np S_i joints_i conf_i f sz with
  | Some t => inr t
  | None => inl LinAlgError
  end.

(** The loop: the rows of [trans] in order, up to the first exception. *)
Fixpoint collect {A : Type} (body : nat -> result A) (range : list nat)
  : result (list A) :=
  match range with
  | [] => inr []
  | i :: rest =>
      a <- body i ;;
      l <- collect body rest ;;
      inr (a :: l)
  end.

(** [estimate_translation]; a joint of [joints_2d] is [(u, v, conf)]. *)
Definition estimate_translation (S_ : list (list vec3))
    (joints_2d : list (list (num * num * num))) (focal_length : focal_arg)
    (img_size : size_arg) (use_all_kps : bool) : result (list (list num)) :=
  let focal_length :=
    match focal_length with
    | FocalNumber f => repeat f (length S_)
    | FocalSeq l => l
    end in
  let img_size :=
    match img_size with
    | SizeNumber s => repeat (s, s) (length S_)
    | SizeSeq l => l
    end in
  let S_ := if use_all_kps then S_ else map (skipn 25) S_ in
  let joints_2d :=
    if use_all_kps then joints_2d else map (skipn 25) joints_2d in
  let joints_conf := map (map snd) joints_2d in
  let joints_2d := map (map fst) joints_2d in
  collect (estimate_translation_item S_ joints_2d joints_conf focal_length
             img_size)
          (seq 0 (length S_)).

(* ================================================================= *)
(** ** The constants of [lib/pymafx/core/constants.py] *)

(** A dictionary with string keys: the items in the order of their first
    insertion, a later value for the same key taking the place of the
    earlier one. *)
Module Dict.

Definition t (V : Type) : Type := list (string * V).

Fixpoint insert {V : Type} (d : t V) (k : string) (v : V) : t V :=
  match d with
  | [] => [ (k, v) ]
  | (k', v') :: r =>
      if String.eqb k' k then (k', v) :: r else (k', v') :: insert r k v
  end.

(** [d[k]], [None] for a [KeyError]. *)
Fixpoint lookup {V : Type} (d : t V) (k : string) : option V :=
  match d with
  | [] => None
  | (k', v') :: r => if String.eqb k' k then Some v' else lookup r k
  end.

(** A dictionary display or comprehension: the items are inserted from
    left to right. *)
Definition of_items {V : Type} (items : list (string * V)) : t V :=
  fold_left (fun d kv => insert d (fst kv) (snd kv)) items [].

End Dict.

(** [range(a, b)]. *)
Definition range (a b : nat) : list nat := seq a (b - a).

Module Constants.

Local Open Scope nat_scope.
Local Open Scope string_scope.

Definition FOCAL_LENGTH : R := 5000.0%R.
Definition IMG_RES : R := 224%R.

Definition IMG_NORM_MEAN : list R := [ 0.485; 0.456; 0.406 ]%R.
Definition IMG_NORM_STD : list R := [ 0.229; 0.224; 0.225 ]%R.

Definition OP_JOINT_NAMES : list string :=
  [ "OP Nose"; "OP Neck"; "OP RShoulder"; "OP RElbow"; "OP RWrist";
    "OP LShoulder"; "OP LElbow"; "OP LWrist"; "OP MidHip"; "OP RHip";
    "OP RKnee"; "OP RAnkle"; "OP LHip"; "OP LKnee"; "OP LAnkle"; "OP REye";
    "OP LEye"; "OP REar"; "OP LEar"; "OP LBigToe"; "OP LSmallToe";
    "OP LHeel"; "OP RBigToe"; "OP RSmallToe"; "OP RHeel" ].

Definition SPIN_JOINT_NAMES : list string :=
  [ "Right Ankle"; "Right Knee"; "Right Hip"; "Left Hip"; "Left Knee";
    "Left Ankle"; "Right Wrist"; "Right Elbow"; "Right Shoulder";
    "Left Shoulder"; "Left Elbow"; "Left Wrist"; "Neck (LSP)";
    "Top of Head (LSP)"; "Pelvis (MPII)"; "Thorax (MPII)"; "Spine (H36M)";
    "Jaw (H36M)"; "Head (H36M)"; "Nose"; "Left Eye"; "Right Eye";
    "Left Ear"; "Right Ear" ].

Definition JOINT_NAMES : list string := app OP_JOINT_NAMES SPIN_JOINT_NAMES.

Definition COCO_KEYPOINTS : list string :=
  [ "nose"; "left_eye"; "right_eye"; "left_ear"; "right_ear";
    "left_shoulder"; "right_shoulder"; "left_elbow"; "right_elbow";
    "left_wrist"; "right_wrist"; "left_hip"; "right_hip"; "left_knee";
    "right_knee"; "left_ankle"; "right_ankle" ].

(** [{JOINT_NAMES[i]: i for i in range(len(JOINT_NAMES))}]. *)
Definition JOINT_IDS : Dict.t nat :=
  Dict.of_items
    (map (fun i => (nth i JOINT_NAMES EmptyString, i))
       (range 0 (length JOINT_NAMES))).

Definition JOINT_MAP : Dict.t nat :=
  Dict.of_items
    [ ("OP Nose", 24); ("OP Neck", 12); ("OP RShoulder", 17);
      ("OP RElbow", 19); ("OP RWrist", 21); ("OP LShoulder", 16);
      ("OP LElbow", 18); ("OP LWrist", 20); ("OP MidHip", 0);
      ("OP RHip", 2); ("OP RKnee", 5); ("OP RAnkle", 8); ("OP LHip", 1);
      ("OP LKnee", 4); ("OP LAnkle", 7); ("OP REye", 25); ("OP LEye", 26);
      ("OP REar", 27); ("OP LEar", 28); ("OP LBigToe", 29);
      ("OP LSmallToe", 30); ("OP LHeel", 31); ("OP RBigToe", 32);
      ("OP RSmallToe", 33); ("OP RHeel", 34); ("Right Ankle", 8);
      ("Right Knee", 5); ("Right Hip", 45); ("Left Hip", 46);
      ("Left Knee", 4); ("Left Ankle", 7); ("Right Wrist", 21);
      ("Right Elbow", 19); ("Right Shoulder", 17); ("Left Shoulder", 16);
      ("Left Elbow", 18); ("Left Wrist", 20); ("Neck (LSP)", 47);
      ("Top of Head (LSP)", 48); ("Pelvis (MPII)", 49);
      ("Thorax (MPII)", 50); ("Spine (H36M)", 51); ("Jaw (H36M)", 52);
      ("Head (H36M)", 53); ("Nose", 24); ("Left Eye", 26);
      ("Right Eye", 25); ("Left Ear", 28); ("Right Ear", 27) ].

Definition H36M_TO_J17 : list nat :=
  [ 6; 5; 4; 1; 2; 3; 16; 15; 14; 11; 12; 13; 8; 10; 0; 7; 9 ].

Definition H36M_TO_J14 : list nat := firstn 14 H36M_TO_J17.

Definition J24_TO_J17 : list nat :=
  [ 0; 1; 2; 3; 4; 5; 6; 7; 8; 9; 10; 11; 12; 18; 14; 16; 17 ].

Definition J24_TO_J14 : list nat := firstn 14 J24_TO_J17.

Definition J24_TO_J19 : list nat :=
  app (firstn 14 J24_TO_J17) [ 19; 20; 21; 22; 23 ].

Definition J24_TO_JCOCO : list nat :=
  [ 19; 20; 21; 22; 23; 9; 8; 10; 7; 11; 6; 3; 2; 4; 1; 5; 0 ].

Definition SMPL_JOINTS_FLIP_PERM : list nat :=
  [ 0; 2; 1; 3; 5; 4; 6; 8; 7; 9; 11; 10; 12; 14; 13; 15; 17; 16; 19; 18;
    21; 20; 23; 22 ].

(** The loop that fills [SMPL_POSE_FLIP_PERM], for the joint permutation
    [perm]: three pose parameters per joint. *)
Definition pose_flip_loop (perm : list nat) : list nat :=
  fold_left
    (fun acc i => app (app (app acc [ 3 * i ]) [ 3 * i + 1 ]) [ 3 * i + 2 ])
    perm [].

Definition SMPL_POSE_FLIP_PERM : list nat := pose_flip_loop SMPL_JOINTS_FLIP_PERM.

Definition J24_FLIP_PERM : list nat :=
  [ 5; 4; 3; 2; 1; 0; 11; 10; 9; 8; 7; 6; 12; 13; 14; 15; 16; 17; 18; 19;
    21; 20; 23; 22 ].

Definition J49_FLIP_PERM : list nat :=
  app
    [ 0; 1; 5; 6; 7; 2; 3; 4; 8; 12; 13; 14; 9; 10; 11; 16; 15; 18; 17; 22;
      23; 24; 19; 20; 21 ]
    (map (fun i => 25 + i) J24_FLIP_PERM).

Definition SMPL_J49_FLIP_PERM : list nat :=
  app
    [ 0; 1; 5; 6; 7; 2; 3; 4; 8; 12; 13; 14; 9; 10; 11; 16; 15; 18; 17; 22;
      23; 24; 19; 20; 21 ]
    (map (fun i => 25 + i) SMPL_JOINTS_FLIP_PERM).

Definition SMPLX2SMPL_J45 : list nat :=
  app (app (range 0 22) [ 30; 45 ]) (range 55 (55 + 21)).

Definition SMPL_PART_ID : Dict.t nat :=
  Dict.of_items
    [ ("rightHand", 1); ("rightUpLeg", 2); ("leftArm", 3); ("leftLeg", 4);
      ("leftToeBase", 5); ("leftFoot", 6); ("spine1", 7); ("spine2", 8);
      ("leftShoulder", 9); ("rightShoulder", 10); ("rightFoot", 11);
      ("head", 12); ("rightArm", 13); ("leftHandIndex1", 14);
      ("rightLeg", 15); ("rightHandIndex1", 16); ("leftForeArm", 17);
      ("rightForeArm", 18); ("neck", 19); ("rightToeBase", 20);
      ("spine", 21); ("leftUpLeg", 22); ("leftHand", 23); ("hips", 24) ].

Definition HAND_NAMES : list string :=
  [ "wrist"; "thumb1"; "thumb2"; "thumb3"; "thumb"; "index1"; "index2";
    "index3"; "index"; "middle1"; "middle2"; "middle3"; "middle"; "ring1";
    "ring2"; "ring3"; "ring"; "pinky1"; "pinky2"; "pinky3"; "pinky" ].

Definition FOOT_NAMES : list string :=
  [ "big_toe"; "small_toe"; "heel" ].

Definition FACIAL_LANDMARKS : list string :=
  [ "right_eye_brow1"; "right_eye_brow2"; "right_eye_brow3";
    "right_eye_brow4"; "right_eye_brow5"; "left_eye_brow5";
    "left_eye_brow4"; "left_eye_brow3"; "left_eye_brow2"; "left_eye_brow1";
    "nose1"; "nose2"; "nose3"; "nose4"; "right_nose_2"; "right_nose_1";
    "nose_middle"; "left_nose_1"; "left_nose_2"; "right_eye1";
    "right_eye2"; "right_eye3"; "right_eye4"; "right_eye5"; "right_eye6";
    "left_eye4"; "left_eye3"; "left_eye2"; "left_eye1"; "left_eye6";
    "left_eye5"; "right_mouth_1"; "right_mouth_2"; "right_mouth_3";
    "mouth_top"; "left_mouth_3"; "left_mouth_2"; "left_mouth_1";
    "left_mouth_5"; "left_mouth_4"; "mouth_bottom"; "right_mouth_4";
    "right_mouth_5"; "right_lip_1"; "right_lip_2"; "lip_top"; "left_lip_2";
    "left_lip_1"; "left_lip_3"; "lip_bottom"; "right_lip_3";
    "right_contour_1"; "right_contour_2"; "right_contour_3";
    "right_contour_4"; "right_contour_5"; "right_contour_6";
    "right_contour_7"; "right_contour_8"; "contour_middle";
    "left_contour_8"; "left_contour_7"; "left_contour_6"; "left_contour_5";
    "left_contour_4"; "left_contour_3"; "left_contour_2"; "left_contour_1" ].

Definition LRHAND_FLIP_PERM : list nat :=
  app (range (length HAND_NAMES) (length HAND_NAMES * 2))
      (range 0 (length HAND_NAMES)).

Definition SINGLE_HAND_FLIP_PERM : list nat := range 0 (length HAND_NAMES).

Definition FEEF_FLIP_PERM : list nat :=
  app (range (length FOOT_NAMES) (length FOOT_NAMES * 2))
      (range 0 (length FOOT_NAMES)).

(** [FACE_FLIP_PERM] is assigned twice: the second assignment appends. *)
Definition FACE_FLIP_PERM : list nat :=
  app
    [ 9; 8; 7; 6; 5; 4; 3; 2; 1; 0; 10; 11; 12; 13; 18; 17; 16; 15; 14; 28;
      27; 26; 25; 30; 29; 22; 21; 20; 19; 24; 23; 37; 36; 35; 34; 33; 32; 31;
      42; 41; 40; 39; 38; 47; 46; 45; 44; 43; 50; 49; 48 ]
    [ 67; 66; 65; 64; 63; 62; 61; 60; 59; 58; 57; 56; 55; 54; 53; 52; 51 ].

End Constants.
(* ================================================================= *)
(** ** Real matrices and rotations *)

(** A [(3,3)] matrix of finite entries. *)
Record rmat := RM {
  r00 : R; r01 : R; r02 : R;
  r10 : R; r11 : R; r12 : R;
  r20 : R; r21 : R; r22 : R }.

Definition tensor_of (m : rmat) : matrix :=
  [ [ fin (r00 m); fin (r01 m); fin (r02 m) ];
    [ fin (r10 m); fin (r11 m); fin (r12 m) ];
    [ fin (r20 m); fin (r21 m); fin (r22 m) ] ].

Definition rdet (m : rmat) : R :=
  r00 m * (r11 m * r22 m - r12 m * r21 m)
  - r01 m * (r10 m * r22 m - r12 m * r20 m)
  + r02 m * (r10 m * r21 m - r11 m * r20 m).

(** Proper orthogonal: the columns are orthonormal and the determinant
    is [+1]. *)
Record is_rotation (m : rmat) : Prop := {
  col0_unit : r00 m * r00 m + r10 m * r10 m + r20 m * r20 m = 1;
  col1_unit : r01 m * r01 m + r11 m * r11 m + r21 m * r21 m = 1;
  col2_unit : r02 m * r02 m + r12 m * r12 m + r22 m * r22 m = 1;
  col01_orth : r00 m * r01 m + r10 m * r11 m + r20 m * r21 m = 0;
  col02_orth : r00 m * r02 m + r10 m * r12 m + r20 m * r22 m = 0;
  col12_orth : r01 m * r02 m + r11 m * r12 m + r21 m * r22 m = 0;
  det_one : rdet m = 1 }.

Definition vec3_fin (x y z : R) : vec3 := V3 (fin x) (fin y) (fin z).
Definition quat_fin (w x y z : R) : quat := Q4 (fin w) (fin x) (fin y) (fin z).

(** The closed form of [quat_to_rotmat] on a quaternion of norm one. *)
Definition qmat (w x y z : R) : rmat :=
  RM (w * w + x * x - y * y - z * z) (2 * (x * y) - 2 * (w * z))
     (2 * (w * y) + 2 * (x * z))
     (2 * (w * z) + 2 * (x * y)) (w * w - x * x + y * y - z * z)
     (2 * (y * z) - 2 * (w * x))
     (2 * (x * z) - 2 * (w * y)) (2 * (w * x) + 2 * (y * z))
     (w * w - x * x - y * y + z * z).

(** Entrywise distance between two real matrices. *)
Definition within (tol : R) (m m' : rmat) : Prop :=
  Rabs (r00 m - r00 m') <= tol /\ Rabs (r01 m - r01 m') <= tol
  /\ Rabs (r02 m - r02 m') <= tol /\ Rabs (r10 m - r10 m') <= tol
  /\ Rabs (r11 m - r11 m') <= tol /\ Rabs (r12 m - r12 m') <= tol
  /\ Rabs (r20 m - r20 m') <= tol /\ Rabs (r21 m - r21 m') <= tol
  /\ Rabs (r22 m - r22 m') <= tol.

(** The first two columns of a matrix, row by row: a row of
    [rotmat_to_rot6d]. *)
Definition first_two_columns (m : rmat) : list num :=
  [ fin (r00 m); fin (r01 m); fin (r10 m); fin (r11 m); fin (r20 m);
    fin (r21 m) ].

(** The quarter turn about the third axis. *)
Definition rot_z90 : rmat := RM 0 (-1) 0 1 0 0 0 0 1.

(** The half turn about the first axis. *)
Definition rot_x180 : rmat := RM 1 0 0 0 (-1) 0 0 0 (-1).

(** The rotation by [sqrt 3 * 1e-8] about the axis [-(1,1,1)/sqrt 3], as
    the matrix of its unit quaternion; [half_singular] is half the angle. *)
Definition half_singular : R := sqrt 3 * 1e-8 / 2.

Definition rot_singular : rmat :=
  qmat (cos half_singular) (- (sin half_singular / sqrt 3))
       (- (sin half_singular / sqrt 3)) (- (sin half_singular / sqrt 3)).

(** A matrix of NaN. *)
Definition nan_matrix : matrix :=
  [ [ None; None; None ]; [ None; None; None ]; [ None; None; None ] ].

(** *** The branches of [rotation_matrix_to_quaternion] *)

(** The candidate that the masks select: [B0] for [mask_c0], and so on. *)
Inductive branch := B0 | B1 | B2 | B3.

Definition branch_of (m : rmat) : branch :=
  if Rlt_dec (r22 m) 1e-6 then
    if Rlt_dec (r11 m) (r00 m) then B0 else B1
  else
    if Rlt_dec (r00 m) (- r11 m) then B2 else B3.

(** [t0], [t1], [t2], [t3]. *)
Definition cand_t (br : branch) (m : rmat) : R :=
  match br with
  | B0 => 1 + r00 m - r11 m - r22 m
  | B1 => 1 - r00 m + r11 m - r22 m
  | B2 => 1 - r00 m - r11 m + r22 m
  | B3 => 1 + r00 m + r11 m + r22 m
  end.

(** The components of [q0], [q1], [q2], [q3], read on the matrix itself
    ([rmat_t[i, j]] is [m[j, i]]). *)
Definition cand_w (br : branch) (m : rmat) : R :=
  match br with
  | B0 => r21 m - r12 m
  | B1 => r02 m - r20 m
  | B2 => r10 m - r01 m
  | B3 => 1 + r00 m + r11 m + r22 m
  end.

Definition cand_x (br : branch) (m : rmat) : R :=
  match br with
  | B0 => 1 + r00 m - r11 m - r22 m
  | B1 => r10 m + r01 m
  | B2 => r02 m + r20 m
  | B3 => r21 m - r12 m
  end.

Definition cand_y (br : branch) (m : rmat) : R :=
  match br with
  | B0 => r10 m + r01 m
  | B1 => 1 - r00 m + r11 m - r22 m
  | B2 => r21 m + r12 m
  | B3 => r02 m - r20 m
  end.

Definition cand_z (br : branch) (m : rmat) : R :=
  match br with
  | B0 => r02 m + r20 m
  | B1 => r21 m + r12 m
  | B2 => 1 - r00 m - r11 m + r22 m
  | B3 => r10 m - r01 m
  end.

(** The quaternion that [rotation_matrix_to_quaternion] returns for [m]. *)
Definition rq (m : rmat) : R * R * R * R :=
  let br := branch_of m in
  let s := sqrt (cand_t br m) in
  (cand_w br m / s * 0.5, cand_x br m / s * 0.5,
   cand_y br m / s * 0.5, cand_z br m / s * 0.5).

Definition quat_fin4 (q : R * R * R * R) : quat :=
  let '(w, x, y, z) := q in quat_fin w x y z.

Definition qmat4 (q : R * R * R * R) : rmat :=
  let '(w, x, y, z) := q in qmat w x y z.

Definition norm_sq4 (q : R * R * R * R) : R :=
  let '(w, x, y, z) := q in w * w + x * x + y * y + z * z.

(** *** The scale factor of [quaternion_to_angle_axis] *)

(** [two_theta] for a real part [w] and a vector part of length [sn]. *)
Definition two_thetaR (w sn : R) : R :=
  2 * (if Rlt_dec w 0 then Torch.atan2R (- sn) (- w) else Torch.atan2R sn w).

(** [k]. *)
Definition kR (w x y z : R) : R :=
  let sigma := x * x + y * y + z * z in
  if Rlt_dec 0 sigma then two_thetaR w (sqrt sigma) / sqrt sigma else 2 * 1.

(** The axis-angle vector of a finite quaternion. *)
Definition aaR (q : R * R * R * R) : R * R * R :=
  let '(w, x, y, z) := q in
  (0 + x * kR w x y z, 0 + y * kR w x y z, 0 + z * kR w x y z).

Definition vec3_fin3 (v : R * R * R) : vec3 :=
  let '(x, y, z) := v in vec3_fin x y z.

(** *** Quadratic forms of a quaternion about a fixed axis *)

Definition norm3R (x y z : R) : R := sqrt (x * x + y * y + z * z).

(** [al a² + be b² + ga a b]. *)
Definition quad (a b : R) (al be ga : R) : R :=
  al * (a * a) + be * (b * b) + ga * (a * b).

(** The matrix of the quaternion [(a, b u)], [u] a unit axis: each entry is
    a quadratic form in [(a, b)], given to [f] by its three coefficients. *)
Definition axis_mat (f : R -> R -> R -> R) (ux uy uz : R) : rmat :=
  RM (f 1 (ux * ux - uy * uy - uz * uz) 0)
     (f 0 (2 * (ux * uy)) (- (2 * uz)))
     (f 0 (2 * (ux * uz)) (2 * uy))
     (f 0 (2 * (ux * uy)) (2 * uz))
     (f 1 (- (ux * ux) + uy * uy - uz * uz) 0)
     (f 0 (2 * (uy * uz)) (- (2 * ux)))
     (f 0 (2 * (ux * uz)) (- (2 * uy)))
     (f 0 (2 * (uy * uz)) (2 * ux))
     (f 1 (- (ux * ux) - uy * uy + uz * uz) 0).

(** *** The padding as the specification words it *)

(** A matrix with the row [(0,0,1)] added at the bottom. *)
Definition spec_pad_bottom_row (m : matrix) : matrix :=
  m ++ [ [ fin 0; fin 0; fin 1 ] ].

(** *** What holds of the entries of a rotation *)

(** Orthonormal columns, orthonormal rows, and every entry equal to its
    cofactor. *)
Record rotation_facts (m : rmat) : Prop := {
  rf_c0 : r00 m * r00 m + r10 m * r10 m + r20 m * r20 m = 1;
  rf_c1 : r01 m * r01 m + r11 m * r11 m + r21 m * r21 m = 1;
  rf_c2 : r02 m * r02 m + r12 m * r12 m + r22 m * r22 m = 1;
  rf_c01 : r00 m * r01 m + r10 m * r11 m + r20 m * r21 m = 0;
  rf_c02 : r00 m * r02 m + r10 m * r12 m + r20 m * r22 m = 0;
  rf_c12 : r01 m * r02 m + r11 m * r12 m + r21 m * r22 m = 0;
  rf_r0 : r00 m * r00 m + r01 m * r01 m + r02 m * r02 m = 1;
  rf_r1 : r10 m * r10 m + r11 m * r11 m + r12 m * r12 m = 1;
  rf_r2 : r20 m * r20 m + r21 m * r21 m + r22 m * r22 m = 1;
  rf_r01 : r00 m * r10 m + r01 m * r11 m + r02 m * r12 m = 0;
  rf_r02 : r00 m * r20 m + r01 m * r21 m + r02 m * r22 m = 0;
  rf_r12 : r10 m * r20 m + r11 m * r21 m + r12 m * r22 m = 0;
  rf_k00 : r00 m = r11 m * r22 m - r12 m * r21 m;
  rf_k01 : r01 m = r12 m * r20 m - r10 m * r22 m;
  rf_k02 : r02 m = r10 m * r21 m - r11 m * r20 m;
  rf_k10 : r10 m = r02 m * r21 m - r01 m * r22 m;
  rf_k11 : r11 m = r00 m * r22 m - r02 m * r20 m;
  rf_k12 : r12 m = r01 m * r20 m - r00 m * r21 m;
  rf_k20 : r20 m = r01 m * r12 m - r02 m * r11 m;
  rf_k21 : r21 m = r02 m * r10 m - r00 m * r12 m;
  rf_k22 : r22 m = r00 m * r11 m - r01 m * r10 m }.

(** *** Correspondences and their equations *)

(** A 3D joint, its 2D observation and its confidence. *)
Record corr := Corr { cX : R; cY : R; cZ : R; cU : R; cV : R; cC : R }.

(** One row of [Q], the matching entry of [c], and its weight. *)
Record equation := Eqn { e0 : R; e1 : R; e2 : R; ec : R; ew : R }.

(** The two equations of a correspondence, for the focal length [f] and
    the centre [(ox, oy)]. *)
Definition eqn_u (f ox : R) (j : corr) : equation :=
  Eqn (f * 1) (f * 0) (ox - cU j) ((cU j - ox) * cZ j - f * cX j)
      (sqrt (cC j)).

Definition eqn_v (f oy : R) (j : corr) : equation :=
  Eqn (f * 0) (f * 1) (oy - cV j) ((cV j - oy) * cZ j - f * cY j)
      (sqrt (cC j)).

Definition equations (f ox oy : R) (js : list corr) : list equation :=
  concat (map (fun j => [ eqn_u f ox j; eqn_v f oy j ]) js).

Definition sumR (l : list R) : R := fold_right Rplus 0 l.

(** An entry of the normal matrix, and of its right-hand side. *)
Definition normal_entry (g h : equation -> R) (es : list equation) : R :=
  sumR (map (fun e => ew e * g e * (ew e * h e)) es).

Definition normal_rhs (g : equation -> R) (es : list equation) : R :=
  sumR (map (fun e => ew e * g e * (ew e * ec e)) es).

Definition det3R (a00 a01 a02 a10 a11 a12 a20 a21 a22 : R) : R :=
  a00 * (a11 * a22 - a12 * a21) - a01 * (a10 * a22 - a12 * a20)
  + a02 * (a10 * a21 - a11 * a20).

(** The tensors that [normal_equations] receives for finite data. *)
Definition joints3d (js : list corr) : list vec3 :=
  map (fun j => vec3_fin (cX j) (cY j) (cZ j)) js.

Definition joints2d (js : list corr) : list (num * num) :=
  map (fun j => (fin (cU j), fin (cV j))) js.

Definition confidences (js : list corr) : list num :=
  map (fun j => fin (cC j)) js.

(** The correspondence of a joint with its exact projection and
    confidence one. *)
Definition exact_corr (f ox oy tx ty tz : R) (p : R * R * R) : corr :=
  let '(X, Y, Z) := p in
  Corr X Y Z (f * (X + tx) / (Z + tz) + ox) (f * (Y + ty) / (Z + tz) + oy) 1.

Definition depth_ok (tz : R) (p : R * R * R) : Prop := snd p + tz <> 0.

Definition six_joints : list (R * R * R) :=
  [ (0, 0, 0); (1, 0, 0); (0, 1, 0); (0, 0, 1); (1, 1, 0); (1, 0, 1) ].

(** Three joints on one line: the cross product of [q - p] and [r - p] is
    the zero vector. *)
Definition collinear3 (p q r : R * R * R) : Prop :=
  let '(x0, y0, z0) := p in
  let '(x1, y1, z1) := q in
  let '(x2, y2, z2) := r in
  (y1 - y0) * (z2 - z0) - (z1 - z0) * (y2 - y0) = 0
  /\ (z1 - z0) * (x2 - x0) - (x1 - x0) * (z2 - z0) = 0
  /\ (x1 - x0) * (y2 - y0) - (y1 - y0) * (x2 - x0) = 0.

(** Joints that are not all on one line. *)
Definition non_collinear (pts : list (R * R * R)) : Prop :=
  exists p q r, In p pts /\ In q pts /\ In r pts /\ ~ collinear3 p q r.

(** [n * sum of squares - square of the sum], for a list of [n] numbers. *)
Definition spread (l : list R) : R :=
  sumR (map (fun _ => 1) l) * sumR (map (fun x => x * x) l) - sumR l * sumR l.

(** *** The twist of a finite quaternion *)

(** [twist_axis] after its division by [norm + 1e-9]. *)
Definition twist_axisR (a : R * R * R) : R * R * R :=
  let '(ax, ay, az) := a in
  let n := norm3R ax ay az + 1e-9 in
  (ax / n, ay / n, az / n).

(** [twist_quaternion] after its division by [norm + 1e-9], for the
    quaternion [q] and the divided axis [t]. *)
Definition twist_quatR (q : R * R * R * R) (t : R * R * R) : R * R * R * R :=
  let '(w, x, y, z) := q in
  let '(tx, ty, tz) := t in
  let d := tx * x + ty * y + tz * z in
  let n := sqrt (w * w + d * tx * (d * tx) + d * ty * (d * ty)
                 + d * tz * (d * tz)) + 1e-9 in
  (w / n, d * tx / n, d * ty / n, d * tz / n).

Definition sum3 (v : R * R * R) : R :=
  let '(x, y, z) := v in x + y + z.

(** The rotation by the angle [theta] about the unit axis [u], by the
    formula of Rodrigues. *)
Definition rotation_about (ux uy uz theta : R) : rmat :=
  let c := cos theta in
  let s := sin theta in
  RM (c + (1 - c) * (ux * ux)) ((1 - c) * (ux * uy) - s * uz)
     ((1 - c) * (ux * uz) + s * uy)
     ((1 - c) * (ux * uy) + s * uz) (c + (1 - c) * (uy * uy))
     ((1 - c) * (uy * uz) - s * ux)
     ((1 - c) * (ux * uz) - s * uy) ((1 - c) * (uy * uz) + s * ux)
     (c + (1 - c) * (uz * uz)).

(** The half turn about the axis [(1,1,-2)]. *)
Definition rot_half_turn_112 : rmat :=
  RM (- 2 / 3) (1 / 3) (- 2 / 3) (1 / 3) (- 2 / 3) (- 2 / 3) (- 2 / 3) (- 2 / 3)
     (1 / 3).

(** A twist axis and an angle: the rotation by that angle about that axis
    is the input of the twist property. *)
Record twist_case := TwistCase { ta_x : R; ta_y : R; ta_z : R; ta_theta : R }.

Definition twist_axis_of (t : twist_case) : vec3 :=
  vec3_fin (ta_x t) (ta_y t) (ta_z t).

Definition twist_rotation_of (t : twist_case) : rmat :=
  let L := norm3R (ta_x t) (ta_y t) (ta_z t) in
  rotation_about (ta_x t / L) (ta_y t / L) (ta_z t / L) (ta_theta t).

(** The axis is not short, its components do not sum to zero, and the
    angle is less than a half turn. *)
Definition twist_case_ok (t : twist_case) : Prop :=
  1e-3 <= norm3R (ta_x t) (ta_y t) (ta_z t)
  /\ ta_x t + ta_y t + ta_z t <> 0
  /\ - PI < ta_theta t < PI.

(** The observations of the recovery property: the joints [pts], moved by
    the translation, as [perspective_projection] sees them with the identity
    rotation, the focal length [f] and the centre of the image. *)
Definition exact_observations (pts : list (R * R * R))
    (tx ty tz f img0 img1 : R) : list (num * num) :=
  let center := (fin (img1 / 2), fin (img0 / 2)) in
  let projected :=
    perspective_projection [ map vec3_fin3 pts ] [ eye3 ] [ vec3_fin tx ty tz ]
      (FocalCenter (Scalar (fin f)) [ center ]) false in
  map (fun r => (nth 0 r None, nth 1 r None)) (nth 0 projected []).


(** ** Definitions for the properties of the other functions *)

(** *** Products of real matrices and of quaternions *)

(** The product of two matrices. *)
Definition rmul (a b : rmat) : rmat :=
  RM (r00 a * r00 b + r01 a * r10 b + r02 a * r20 b)
     (r00 a * r01 b + r01 a * r11 b + r02 a * r21 b)
     (r00 a * r02 b + r01 a * r12 b + r02 a * r22 b)
     (r10 a * r00 b + r11 a * r10 b + r12 a * r20 b)
     (r10 a * r01 b + r11 a * r11 b + r12 a * r21 b)
     (r10 a * r02 b + r11 a * r12 b + r12 a * r22 b)
     (r20 a * r00 b + r21 a * r10 b + r22 a * r20 b)
     (r20 a * r01 b + r21 a * r11 b + r22 a * r21 b)
     (r20 a * r02 b + r21 a * r12 b + r22 a * r22 b).

(** A matrix applied to a vector. *)
Definition rapply (a : rmat) (v : R * R * R) : R * R * R :=
  let '(x, y, z) := v in
  (r00 a * x + r01 a * y + r02 a * z,
   r10 a * x + r11 a * y + r12 a * z,
   r20 a * x + r21 a * y + r22 a * z).

Definition rid : rmat := RM 1 0 0 0 1 0 0 0 1.

(** The product of two quaternions, real part first. *)
Definition qmul (p q : R * R * R * R) : R * R * R * R :=
  let '(a, b, c, d) := p in
  let '(e, f, g, h) := q in
  (a * e - b * f - c * g - d * h,
   a * f + b * e + c * h - d * g,
   a * g - b * h + c * e + d * f,
   a * h + b * g - c * f + d * e).

(** The matrices of [Rot_x], [Rot_y] and [Rot_z]. *)
Definition rotX (a : R) : rmat := RM 1 0 0 0 (cos a) (- sin a) 0 (sin a) (cos a).
Definition rotY (a : R) : rmat := RM (cos a) 0 (sin a) 0 1 0 (- sin a) 0 (cos a).
Definition rotZ (a : R) : rmat := RM (cos a) (- sin a) 0 (sin a) (cos a) 0 0 0 1.



Definition norm3R3 (v : R * R * R) : R :=
  let '(x, y, z) := v in norm3R x y z.

Definition qneg (q : R * R * R * R) : R * R * R * R :=
  let '(w, x, y, z) := q in (- w, - x, - y, - z).

(** *** Batches of exact observations *)

(** One item of a batch for [estimate_translation]: joints [pre3] and
    observations [pre2] that come first, then the joints [pts], seen after
    the translation [t] with confidence one. *)
Record gt_case := GtCase {
  gt_pre3 : list vec3;
  gt_pre2 : list (num * num * num);
  gt_pts : list (R * R * R);
  gt_t : R * R * R }.

Definition gt_joints (c : gt_case) : list vec3 :=
  gt_pre3 c ++ map vec3_fin3 (gt_pts c).

Definition gt_observations (f sz : R) (c : gt_case) : list (num * num * num) :=
  let '(tx, ty, tz) := gt_t c in
  gt_pre2 c
  ++ map (fun o => (o, fin 1)) (exact_observations (gt_pts c) tx ty tz f sz sz).

Definition gt_case_ok (c : gt_case) : Prop :=
  length (gt_pre3 c) = 25%nat /\ length (gt_pre2 c) = 25%nat
  /\ Forall (depth_ok (snd (gt_t c))) (gt_pts c)
  /\ non_collinear (gt_pts c).

(** *** The keys of the full camera *)

(** The keys that [projection] reads when [iwp_mode] is false. *)
Definition full_camera_keys (d : camera_dict) : Prop :=
  key_bbox_scale d <> None /\ key_bbox_center d <> None /\ key_img_w d <> None
  /\ key_img_h d <> None /\ key_crop_res d <> None /\ key_cam_sxy d <> None
  /\ key_cam_rotmat d <> None /\ key_cam_intrinsics d <> None.

(** The matrices of a [(N,6)] tensor, one per row. *)
Definition rows_to_mats (rows : list (list num)) : list matrix :=
  map rot6d_item (map (chunk 2) rows).

Definition empty_case : gt_case := GtCase [] [] [] (0, 0, 0).

(** *** The 6D representation of finite vectors *)

(** A row of a [(B,6)] tensor: the two vectors [a1] and [a2], interleaved
    as [rearrange] reads them. *)
Definition six_of (a : (R * R * R) * (R * R * R)) : list num :=
  let '((x1, y1, z1), (x2, y2, z2)) := a in
  [ fin x1; fin x2; fin y1; fin y2; fin z1; fin z2 ].

(** What is left of [a2] when its part along [a1] is taken away. *)
Definition residual (a : (R * R * R) * (R * R * R)) : R * R * R :=
  let '((x1, y1, z1), (x2, y2, z2)) := a in
  let n := norm3R x1 y1 z1 in
  let d := x1 / n * x2 + y1 / n * y2 + z1 / n * z2 in
  (x2 - d * (x1 / n), y2 - d * (y1 / n), z2 - d * (z1 / n)).

(** Both normalisations of [rot6d_to_rotmat] divide by a norm, not by the
    [1e-12] of [F.normalize]. *)
Definition gram_schmidt_ok (a : (R * R * R) * (R * R * R)) : Prop :=
  1e-12 <= norm3R3 (fst a) /\ 1e-12 <= norm3R3 (residual a).

(** *** Flip permutations and mirrored names *)

(** A table of indices that is a permutation of [0 .. n-1] and its own
    inverse: flipping twice gives back the order. *)
Definition is_flip (p : list nat) : Prop :=
  Permutation p (seq 0 (length p))
  /\ forall i : nat, (i < length p)%nat -> nth (nth i p 0%nat) p 0%nat = i.

(** The same, as a test. *)
Definition is_flipb (p : list nat) : bool :=
  forallb (fun i => Nat.ltb (nth i p 0%nat) (length p)
                    && Nat.eqb (nth (nth i p 0%nat) p 0%nat) i)
          (seq 0 (length p)).

(** [s] with the prefix [a] replaced by [b], when it starts with [a]. *)
Definition swap_prefix (a b s : string) : option string :=
  if String.prefix a s then
    Some (String.append b
            (String.substring (String.length a)
               (String.length s - String.length a) s))
  else None.

(** The name of the joint on the other side of the body: left and right are
    exchanged in the three ways the tables write them, and a name without a
    side is left as it is. *)
Definition mirror_name (s : string) : string :=
  match swap_prefix "left_" "right_" s with
  | Some r => r
  | None =>
  match swap_prefix "right_" "left_" s with
  | Some r => r
  | None =>
  match swap_prefix "Left " "Right " s with
  | Some r => r
  | None =>
  match swap_prefix "Right " "Left " s with
  | Some r => r
  | None =>
  match swap_prefix "OP L" "OP R" s with
  | Some r => r
  | None =>
  match swap_prefix "OP R" "OP L" s with
  | Some r => r
  | None => s
  end end end end end end.

(** The table [perm] sends every name of [names] to its mirror image. *)
Definition mirrorsb (perm : list nat) (names : list string) : bool :=
  Nat.eqb (length perm) (length names)
  && forallb (fun i => String.eqb (nth (nth i perm 0%nat) names EmptyString)
                         (mirror_name (nth i names EmptyString)))
             (seq 0 (length names)).
(* ================================================================= *)
(** * Properties *)

(** ** Elementary facts on elements *)

Lemma div_fin (x y : R) : y <> 0 -> (fin x / fin y)%num = fin (x / y).
Proof.
  intros Hy. unfold Num.div, fin.
  destruct (Req_dec_T y 0) as [E | _]; [contradiction | reflexivity].
Qed.

Lemma sqrt_fin (x : R) : 0 <= x -> Num.sqrt (fin x) = fin (sqrt x).
Proof.
  intros Hx. unfold Num.sqrt, fin.
  destruct (Rlt_dec x 0) as [L | _]; [lra | reflexivity].
Qed.

Lemma lt_fin_true (x y : R) : x < y -> Num.lt (fin x) (fin y) = true.
Proof.
  intros H. unfold Num.lt, fin. destruct (Rlt_dec x y); [reflexivity | contradiction].
Qed.

Lemma lt_fin_false (x y : R) : ~ x < y -> Num.lt (fin x) (fin y) = false.
Proof.
  intros H. unfold Num.lt, fin. destruct (Rlt_dec x y); [contradiction | reflexivity].
Qed.

Lemma fin_eq (x y : R) : x = y -> fin x = fin y.
Proof. intros ->. reflexivity. Qed.

Lemma sum_sq4_nonneg (w x y z : R) : 0 <= w * w + x * x + y * y + z * z.
Proof. nra. Qed.

Lemma sum_sq3_nonneg (x y z : R) : 0 <= x * x + y * y + z * z.
Proof. nra. Qed.

Lemma norm4_fin (w x y z : R) :
  Torch.norm4 (quat_fin w x y z) = fin (sqrt (w * w + x * x + y * y + z * z)).
Proof.
  unfold Torch.norm4, quat_fin. cbn [qw qx qy qz].
  exact (sqrt_fin _ (sum_sq4_nonneg w x y z)).
Qed.

Lemma norm3_fin (x y z : R) :
  Torch.norm3 (vec3_fin x y z) = fin (sqrt (x * x + y * y + z * z)).
Proof.
  unfold Torch.norm3, vec3_fin. cbn [vx vy vz].
  exact (sqrt_fin _ (sum_sq3_nonneg x y z)).
Qed.

(** A finite quaternion of nonzero norm is turned into the closed form of
    its normalisation. *)
Lemma quat_to_rotmat1_fin (w x y z : R) :
  let n := sqrt (w * w + x * x + y * y + z * z) in
  n <> 0 ->
  quat_to_rotmat1 (quat_fin w x y z)
  = tensor_of (qmat (w / n) (x / n) (y / n) (z / n)).
Proof.
  intros n Hn. unfold quat_to_rotmat1. rewrite norm4_fin. fold n.
  unfold quat_fin. cbn [qw qx qy qz].
  rewrite !div_fin by exact Hn. reflexivity.
Qed.

Lemma half_is_inv2 : 0.5 = / 2.
Proof. lra. Qed.

Lemma Rabs_le_both (a b : R) : Rabs a <= b -> - b <= a <= b.
Proof. unfold Rabs. destruct (Rcase_abs a); lra. Qed.

(** ** Elementary facts on batches *)

Lemma nth_error_map_seq {A : Type} (f : nat -> A) (n b : nat) :
  (b < n)%nat -> nth_error (map f (seq 0 n)) b = Some (f b).
Proof.
  intros Hb. rewrite nth_error_map.
  rewrite nth_error_nth' with (d := 0%nat) by (rewrite length_seq; exact Hb).
  rewrite seq_nth by exact Hb. reflexivity.
Qed.

Lemma nth_error_Some_lt {A : Type} (l : list A) (b : nat) (a : A) :
  nth_error l b = Some a -> (b < length l)%nat.
Proof. intros H. apply nth_error_Some. rewrite H. discriminate. Qed.

Lemma map_repeat_const {A B : Type} (f : A -> B) (a : A) (n : nat) :
  map f (repeat a n) = repeat (f a) n.
Proof. induction n as [| n IH]; simpl; [reflexivity | now rewrite IH]. Qed.

(* ================================================================= *)
(** ** Quaternion to matrix, and the zero rotation vector *)

(** Claim C10.  [quat_to_rotmat] and [quaternion_to_rotation_matrix] return
    the same batch of matrices for every batch of quaternions; their norms
    play no part, the two functions have the same body. *)
Theorem quat_to_rotmat_same_as_quaternion_to_rotation_matrix (quat : list quat) :
  quat_to_rotmat quat = quaternion_to_rotation_matrix quat.
Proof. reflexivity. Qed.

Lemma norm4_neg (q : quat) : Torch.norm4 (quat_neg q) = Torch.norm4 q.
Proof.
  destruct q as [[w|] [x|] [y|] [z|]]; try reflexivity.
  unfold Torch.norm4, quat_neg, quat_map. cbn [qw qx qy qz].
  cbn [Num.neg Num.lift1 Num.mul Num.add Num.lift2].
  rewrite !Rmult_opp_opp. reflexivity.
Qed.

Lemma div_neg_mul (a b n : num) : ((- a / n) * (- b / n))%num = ((a / n) * (b / n))%num.
Proof.
  destruct a as [a|], b as [b|], n as [n|]; cbn; try reflexivity;
    destruct (Req_dec_T n 0); cbn; try reflexivity.
  apply fin_eq. field. assumption.
Qed.

Lemma quat_to_rotmat1_neg (q : quat) : quat_to_rotmat1 (quat_neg q) = quat_to_rotmat1 q.
Proof.
  unfold quat_to_rotmat1. rewrite norm4_neg.
  unfold quat_neg, quat_map, Num.pow2. cbn [qw qx qy qz].
  rewrite !div_neg_mul. reflexivity.
Qed.

(** Claim C2.  For every batch of quaternions, those of norm one among
    them, [quat_to_rotmat] gives the same matrices, entry by entry, for [q]
    and for [-q]: the norm of [-q] is that of [q], and every entry is a sum
    of products of two components. *)
Theorem quat_to_rotmat_sign_invariant (quat : list quat) :
  quat_to_rotmat (map quat_neg quat) = quat_to_rotmat quat.
Proof.
  unfold quat_to_rotmat. rewrite map_map.
  apply map_ext. exact quat_to_rotmat1_neg.
Qed.

Lemma sqrt_small_bounds (x : R) : 0 < x -> x <= 1 -> 0 < sqrt x <= 1.
Proof.
  intros H0 H1. split.
  - apply sqrt_lt_R0. exact H0.
  - rewrite <- sqrt_1. apply sqrt_le_1_alt. exact H1.
Qed.

Lemma batch_rodrigues1_zero : batch_rodrigues1 (vec3_fin 0 0 0) = eye3.
Proof.
  unfold batch_rodrigues1.
  change (vec3_map (fun a => (a + fin 1e-8)%num) (vec3_fin 0 0 0))
    with (vec3_fin (0 + 1e-8) (0 + 1e-8) (0 + 1e-8)).
  rewrite norm3_fin.
  set (a := sqrt _).
  assert (Ha : 0 < a <= 1) by (apply sqrt_small_bounds; lra).
  unfold vec3_fin, vec3_map. cbn [vx vy vz].
  rewrite !div_fin by lra.
  change (Num.cos (fin a * fin 0.5)%num) with (fin (cos (a * 0.5))).
  change (Num.sin (fin a * fin 0.5)%num) with (fin (sin (a * 0.5))).
  change (fin (sin (a * 0.5)) * fin (0 / a))%num
    with (fin (sin (a * 0.5) * (0 / a))).
  replace (sin (a * 0.5) * (0 / a)) with 0 by (unfold Rdiv; ring).
  fold (quat_fin (cos (a * 0.5)) 0 0 0).
  assert (Hc : 0 < cos (a * 0.5)).
  { pose proof PI2_3_2. apply cos_gt_0; lra. }
  set (c := cos (a * 0.5)) in *.
  assert (Hn : sqrt (c * c + 0 * 0 + 0 * 0 + 0 * 0) = c).
  { replace (c * c + 0 * 0 + 0 * 0 + 0 * 0) with (c * c) by ring.
    apply sqrt_square. lra. }
  rewrite quat_to_rotmat1_fin by (rewrite Hn; lra).
  rewrite Hn. unfold tensor_of, qmat, eye3. cbn [r00 r01 r02 r10 r11 r12 r20 r21 r22].
  repeat (f_equal; try (apply fin_eq; field; lra)).
Qed.

(** Claim C6.  [batch_rodrigues] maps the axis-angle vector [(0,0,0)] to
    the identity matrix, all of whose entries are finite: no NaN is
    produced.  Stated for a batch of any size. *)
Theorem batch_rodrigues_zero_is_identity (B : nat) :
  batch_rodrigues (repeat (vec3_fin 0 0 0) B) = repeat eye3 B.
Proof.
  unfold batch_rodrigues. rewrite map_repeat_const, batch_rodrigues1_zero. reflexivity.
Qed.

(* ================================================================= *)
(** ** Projection *)

Lemma convert_to_full_img_cam1_fin (s tx ty h bx by_ w_img h_img f : R) :
  0 < s -> 0 < h ->
  convert_to_full_img_cam1 (vec3_fin s tx ty) (fin h) (fin bx, fin by_)
    (fin w_img) (fin h_img) (fin f)
  = vec3_fin (tx + 2 * (bx - w_img / 2) / (s * h))
             (ty + 2 * (by_ - h_img / 2) / (s * h))
             (2 * f / (h / 224 * 224 * s)).
Proof.
  intros Hs Hh. unfold convert_to_full_img_cam1, vec3_fin. cbn [vx vy vz fst snd].
  rewrite (div_fin h 224) by lra.
  rewrite (div_fin w_img 2), (div_fin h_img 2) by lra.
  change (fin (h / 224) * fin 224 * fin s)%num with (fin (h / 224 * 224 * s)).
  change (fin s * fin h)%num with (fin (s * h)).
  change (fin 2 * fin f)%num with (fin (2 * f)).
  change (fin 2 * (fin bx - fin (w_img / 2)))%num with (fin (2 * (bx - w_img / 2))).
  change (fin 2 * (fin by_ - fin (h_img / 2)))%num with (fin (2 * (by_ - h_img / 2))).
  assert (Hsh : s * h <> 0) by nra.
  assert (Hr : h / 224 * 224 * s <> 0) by (intros E; apply Hsh; lra).
  rewrite !div_fin by assumption. reflexivity.
Qed.

(** Claim C7.  For item [b] of the batch, with a scale [s > 0] and a box
    height [h > 0], [convert_to_full_img_cam] returns the translation whose
    depth is [2 f / (r * 224 * s)] with [r = h / 224], which is
    [2 f / (s h)], and whose first two components are [tx] and [ty], each
    increased by the displacement of the box centre from the image centre
    times [2 / (s h)]. *)
Theorem convert_to_full_img_cam_formula
    (pare_cam : list vec3) (bbox_height : list num)
    (bbox_center : list (num * num)) (img_w img_h : bcast)
    (focal_length : list num) (b : nat)
    (s tx ty h bx by_ w_img h_img f : R) :
  nth_error pare_cam b = Some (vec3_fin s tx ty) ->
  nth_error bbox_height b = Some (fin h) ->
  nth_error bbox_center b = Some (fin bx, fin by_) ->
  bcast_at img_w b = fin w_img ->
  bcast_at img_h b = fin h_img ->
  nth_error focal_length b = Some (fin f) ->
  0 < s -> 0 < h ->
  let r := h / 224 in
  nth_error
    (convert_to_full_img_cam pare_cam bbox_height bbox_center img_w img_h
       focal_length) b
  = Some (vec3_fin (tx + (bx - w_img / 2) * (2 / (s * h)))
                   (ty + (by_ - h_img / 2) * (2 / (s * h)))
                   (2 * f / (r * 224 * s)))
  /\ 2 * f / (r * 224 * s) = 2 * f / (s * h).
Proof.
  intros Hp Hh Hc Hw Hi Hf Hs Hpos r. split.
  - unfold convert_to_full_img_cam.
    rewrite nth_error_map_seq by (apply nth_error_Some_lt with (1 := Hp)).
    rewrite (nth_error_nth _ _ _ Hp), (nth_error_nth _ _ _ Hh),
      (nth_error_nth _ _ _ Hc), (nth_error_nth _ _ _ Hf), Hw, Hi.
    rewrite convert_to_full_img_cam1_fin by assumption.
    f_equal. unfold vec3_fin, r. f_equal; apply fin_eq; field; nra.
  - unfold r. field. split; lra.
Qed.

Lemma convert_to_full_img_cam_formula_witness :
  nth_error
    (convert_to_full_img_cam [vec3_fin 1 0 0] [fin 224] [(fin 112, fin 112)]
       (Scalar (fin 224)) (Scalar (fin 224)) [fin 5000]) 0
  = Some (vec3_fin (0 + (112 - 224 / 2) * (2 / (1 * 224)))
                   (0 + (112 - 224 / 2) * (2 / (1 * 224)))
                   (2 * 5000 / (224 / 224 * 224 * 1)))
  /\ 2 * 5000 / (224 / 224 * 224 * 1) = 2 * 5000 / (1 * 224).
Proof.
  apply (convert_to_full_img_cam_formula
           [vec3_fin 1 0 0] [fin 224] [(fin 112, fin 112)]
           (Scalar (fin 224)) (Scalar (fin 224)) [fin 5000] 0
           1 0 0 224 112 112 224 224 5000);
    try reflexivity; lra.
Defined.

(** The camera of focal length 5000 centred at the origin. *)
Lemma focal_center_bottom_row (focal_length : bcast)
    (camera_center : list (num * num)) (b : nat) :
  nth 2 (intrinsics_at (FocalCenter focal_length camera_center) b) []
  = [ fin 0; fin 0; fin 1 ].
Proof. reflexivity. Qed.

(** Claim C3, counterexample.  The point [(0,0,2)], seen with the identity
    rotation, no translation, the focal length 5000 and the centre at the
    origin, is at the depth 2 in the camera frame; with [retain_z] the
    third channel of its projection is 1. *)
Lemma retain_z_depth_counterexample :
  vz (transform_point eye3 (vec3_fin 0 0 0) (vec3_fin 0 0 2)) = fin 2
  /\ perspective_projection [ [ vec3_fin 0 0 2 ] ] [ eye3 ] [ vec3_fin 0 0 0 ]
       (FocalCenter (Scalar (fin 5000)) [ (fin 0, fin 0) ]) true
     = [ [ [ fin 0; fin 0; fin 1 ] ] ]
  /\ nth 2
       (nth 0
          (nth 0
             (perspective_projection [ [ vec3_fin 0 0 2 ] ] [ eye3 ]
                [ vec3_fin 0 0 0 ]
                (FocalCenter (Scalar (fin 5000)) [ (fin 0, fin 0) ]) true)
             [])
          [])
       None
     <> vz (transform_point eye3 (vec3_fin 0 0 0) (vec3_fin 0 0 2)).
Proof.
  assert (Hz : vz (transform_point eye3 (vec3_fin 0 0 0) (vec3_fin 0 0 2)) = fin 2).
  { unfold transform_point, mat_vec3, vec3_map2, eye3, vec3_fin, ix; cbn.
    apply fin_eq. lra. }
  assert (Hp : perspective_projection [ [ vec3_fin 0 0 2 ] ] [ eye3 ] [ vec3_fin 0 0 0 ]
                 (FocalCenter (Scalar (fin 5000)) [ (fin 0, fin 0) ]) true
               = [ [ [ fin 0; fin 0; fin 1 ] ] ]).
  { unfold perspective_projection. cbn [length seq map nth intrinsics_at bcast_at fst snd].
    unfold perspective_projection_point.
    replace (transform_point eye3 (vec3_fin 0 0 0) (vec3_fin 0 0 2)) with (vec3_fin 0 0 2)
      by (unfold transform_point, mat_vec3, vec3_map2, eye3, vec3_fin, ix; cbn;
          f_equal; apply fin_eq; lra).
    unfold vec3_fin, vec3_map. cbn [vx vy vz].
    rewrite !div_fin by lra.
    cbn. repeat f_equal; apply fin_eq; lra. }
  split; [exact Hz |]. split; [exact Hp |].
  rewrite Hp, Hz. cbn. intros E. injection E. lra.
Qed.

(** Claim C3, as amended.  With [retain_z], the third channel of the
    projection of a point is the third component of the intrinsic matrix
    applied to the point once divided by its depth: for an intrinsic matrix
    whose bottom row is [(0,0,1)], as the one built from [focal_length] and
    [camera_center] always is, and a point at a finite depth [Z] that is not
    zero in the camera frame, it is 1, not [Z]. *)
Theorem retain_z_third_channel
    (points : list (list vec3)) (rotation : list matrix)
    (translation : list vec3) (cam : camera) (b k : nat)
    (item : list vec3) (p : vec3) (X Y Z : R) :
  nth_error points b = Some item ->
  nth_error item k = Some p ->
  transform_point (nth b rotation []) (nth b translation nan3) p
  = vec3_fin X Y Z ->
  Z <> 0 ->
  nth 2 (intrinsics_at cam b) [] = [ fin 0; fin 0; fin 1 ] ->
  exists u v : num,
    nth_error (nth b (perspective_projection points rotation translation cam
                        true) []) k
    = Some [ u; v; fin 1 ].
Proof.
  intros Hb Hk Ht HZ HK.
  unfold perspective_projection.
  rewrite (nth_error_nth _ _ _ (nth_error_map_seq _ _ _ (nth_error_Some_lt _ _ _ Hb))).
  rewrite (nth_error_nth _ _ _ Hb).
  rewrite nth_error_map, Hk. cbn [option_map].
  unfold perspective_projection_point. rewrite Ht.
  unfold vec3_fin, vec3_map. cbn [vx vy vz].
  rewrite !div_fin by exact HZ.
  unfold mat_vec3. cbn [vx vy vz].
  unfold ix. rewrite HK. cbn [nth].
  eexists. eexists. do 4 f_equal.
  cbn. apply fin_eq. field. exact HZ.
Qed.

Lemma retain_z_third_channel_witness :
  exists u v : num,
    nth_error
      (nth 0
         (perspective_projection [ [ vec3_fin 0 0 2 ] ] [ eye3 ]
            [ vec3_fin 0 0 0 ]
            (FocalCenter (Scalar (fin 5000)) [ (fin 0, fin 0) ]) true)
         [])
      0
    = Some [ u; v; fin 1 ].
Proof.
  apply (retain_z_third_channel [ [ vec3_fin 0 0 2 ] ] [ eye3 ]
           [ vec3_fin 0 0 0 ]
           (FocalCenter (Scalar (fin 5000)) [ (fin 0, fin 0) ]) 0 0
           [ vec3_fin 0 0 2 ] (vec3_fin 0 0 2)
           (1 * 0 + 0 * 0 + 0 * 2 + 0) (0 * 0 + 1 * 0 + 0 * 2 + 0)
           (0 * 0 + 0 * 0 + 1 * 2 + 0));
    try reflexivity.
  lra.
Defined.

(* ================================================================= *)
(** ** Rotations *)

Lemma sum_sq3_zero (a b c : R) : a * a + b * b + c * c = 0 -> a = 0 /\ b = 0 /\ c = 0.
Proof. intros H. repeat split; nra. Qed.

Lemma cross_col (a d g b e h c f i : R) :
  a * a + d * d + g * g = 1 -> b * b + e * e + h * h = 1 ->
  a * b + d * e + g * h = 0 ->
  c * (d * h - g * e) + f * (g * b - a * h) + i * (a * e - d * b) = 1 ->
  c * c + f * f + i * i = 1 ->
  c = d * h - g * e /\ f = g * b - a * h /\ i = a * e - d * b.
Proof.
  intros H0 H1 H01 D H2.
  assert (L : (d * h - g * e) * (d * h - g * e) + (g * b - a * h) * (g * b - a * h)
              + (a * e - d * b) * (a * e - d * b)
              = (a * a + d * d + g * g) * (b * b + e * e + h * h)
                - (a * b + d * e + g * h) * (a * b + d * e + g * h)) by ring.
  rewrite H0, H1, H01 in L.
  destruct (sum_sq3_zero (c - (d * h - g * e)) (f - (g * b - a * h)) (i - (a * e - d * b)))
    as (E1 & E2 & E3); [nra | lra].
Qed.

Lemma rotation_all_facts (m : rmat) : is_rotation m -> rotation_facts m.
Proof.
  intros [H0 H1 H2 H01 H02 H12 Hd]. unfold rdet in Hd.
  destruct m as [a b c d e f g h i]. cbn [r00 r01 r02 r10 r11 r12 r20 r21 r22] in *.
  destruct (cross_col a d g b e h c f i) as (K02 & K12 & K22); try assumption; try lra.
  destruct (cross_col b e h c f i a d g) as (K00 & K10 & K20); try assumption; try lra.
  destruct (cross_col c f i a d g b e h) as (K01 & K11 & K21); try assumption; try lra.
  assert (Paa : a * a = a * (e * i - f * h)) by (apply Rmult_eq_compat_l; lra).
  assert (Pbb : b * b = b * (f * g - d * i)) by (apply Rmult_eq_compat_l; lra).
  assert (Pcc : c * c = c * (d * h - g * e)) by (apply Rmult_eq_compat_l; lra).
  assert (Pdd : d * d = d * (c * h - b * i)) by (apply Rmult_eq_compat_l; lra).
  assert (Pee : e * e = e * (a * i - c * g)) by (apply Rmult_eq_compat_l; lra).
  assert (Pff : f * f = f * (b * g - a * h)) by (apply Rmult_eq_compat_l; lra).
  assert (Pad : a * d = (e * i - f * h) * d) by (apply Rmult_eq_compat_r; lra).
  assert (Pbe : b * e = (f * g - d * i) * e) by (apply Rmult_eq_compat_r; lra).
  assert (Pcf : c * f = (d * h - g * e) * f) by (apply Rmult_eq_compat_r; lra).
  assert (Pag : a * g = (e * i - f * h) * g) by (apply Rmult_eq_compat_r; lra).
  assert (Pbh : b * h = (f * g - d * i) * h) by (apply Rmult_eq_compat_r; lra).
  assert (Pci : c * i = (d * h - g * e) * i) by (apply Rmult_eq_compat_r; lra).
  assert (Pdg : d * g = (c * h - b * i) * g) by (apply Rmult_eq_compat_r; lra).
  assert (Peh : e * h = (a * i - c * g) * h) by (apply Rmult_eq_compat_r; lra).
  assert (Pfi : f * i = (b * g - a * h) * i) by (apply Rmult_eq_compat_r; lra).
  split; cbn [r00 r01 r02 r10 r11 r12 r20 r21 r22]; try assumption; lra.
Qed.



(* ================================================================= *)
(** ** The 6D representation *)

Lemma normalize_unit (x y z : R) :
  x * x + y * y + z * z = 1 ->
  Torch.normalize (vec3_fin x y z) = vec3_fin x y z.
Proof.
  intros H. unfold Torch.normalize. rewrite norm3_fin, H, sqrt_1.
  change (Num.max (fin 1) (fin 1e-12)) with (fin (Rmax 1 1e-12)).
  rewrite Rmax_left by lra.
  unfold vec3_fin, vec3_map. cbn [vx vy vz].
  rewrite !div_fin by lra.
  f_equal; apply fin_eq; field.
Qed.

Lemma rot6d_item_rotation (m : rmat) :
  is_rotation m ->
  rot6d_item [ [ fin (r00 m); fin (r01 m) ]; [ fin (r10 m); fin (r11 m) ];
               [ fin (r20 m); fin (r21 m) ] ]
  = tensor_of m.
Proof.
  intros Hm. pose proof (rotation_all_facts m Hm) as F.
  pose proof (rf_k02 m F) as C0. pose proof (rf_k12 m F) as C1.
  pose proof (rf_k22 m F) as C2.
  destruct Hm as [H0 H1 H2 H01 H02 H12 Hd].
  unfold rot6d_item. cbn [ix nth].
  fold (vec3_fin (r00 m) (r10 m) (r20 m)).
  fold (vec3_fin (r01 m) (r11 m) (r21 m)).
  rewrite (normalize_unit _ _ _ H0).
  set (d := r00 m * r01 m + r10 m * r11 m + r20 m * r21 m) in *.
  change (vec3_map2 Num.sub (vec3_fin (r01 m) (r11 m) (r21 m))
            (vec3_map (fun a => (Torch.dot3 (vec3_fin (r00 m) (r10 m) (r20 m))
                                   (vec3_fin (r01 m) (r11 m) (r21 m)) * a)%num)
               (vec3_fin (r00 m) (r10 m) (r20 m))))
    with (vec3_fin (r01 m - d * r00 m) (r11 m - d * r10 m) (r21 m - d * r20 m)).
  rewrite H01.
  replace (r01 m - 0 * r00 m) with (r01 m) by ring.
  replace (r11 m - 0 * r10 m) with (r11 m) by ring.
  replace (r21 m - 0 * r20 m) with (r21 m) by ring.
  rewrite (normalize_unit _ _ _ H1).
  unfold stack_cols, tensor_of, Torch.cross, vec3_fin. cbn [vx vy vz].
  cbn [Num.mul Num.sub Num.lift2 fin].
  unfold fin. repeat (f_equal; try lra).
Qed.

(** Claim C5.  For every batch of proper rotations, [rot6d_to_rotmat]
    applied to what [rotmat_to_rot6d] returns gives the batch back: the
    first two columns are left as they are by the normalisations, and their
    cross product is the third column. *)
Theorem rot6d_round_trip (Rs : list rmat) :
  Forall is_rotation Rs ->
  rot6d_to_rotmat (Rank2 (rotmat_to_rot6d (map tensor_of Rs)))
  = Mats (map tensor_of Rs).
Proof.
  intros H.
  assert (E : rotmat_to_rot6d (map tensor_of Rs) = map first_two_columns Rs).
  { unfold rotmat_to_rot6d. rewrite !map_map. apply map_ext. reflexivity. }
  rewrite E. clear E.
  assert (G : map rot6d_item (map (chunk 2) (map first_two_columns Rs))
              = map tensor_of Rs).
  { rewrite !map_map. apply map_ext_in. intros m Hin.
    apply rot6d_item_rotation.
    rewrite Forall_forall in H. exact (H m Hin). }
  destruct Rs as [| m Rs']; [reflexivity |].
  unfold rot6d_to_rotmat.
  change (last_dim (Rank2 (map first_two_columns (m :: Rs')))) with 6%nat.
  cbn [Nat.eqb fst snd Nat.ltb Nat.leb].
  rewrite G. reflexivity.
Qed.

Lemma rot_z90_rotation : is_rotation rot_z90.
Proof. split; unfold rdet, rot_z90; cbn; lra. Qed.

Lemma rot6d_round_trip_witness :
  rot6d_to_rotmat (Rank2 (rotmat_to_rot6d (map tensor_of [ rot_z90 ])))
  = Mats (map tensor_of [ rot_z90 ]).
Proof.
  apply (rot6d_round_trip [ rot_z90 ]).
  constructor; [exact rot_z90_rotation | constructor].
Defined.

(* ================================================================= *)
(** ** Padding in the axis-angle conversion *)

(** Claim C9, counterexample.  For the identity matrix, the tensor that
    goes on to [rotation_matrix_to_quaternion] has three rows of four
    entries, the fourth column being [(0,0,1)]; it is not the identity with
    the row [(0,0,1)] added at the bottom. *)
Lemma pad_hom_not_bottom_row :
  pad_hom [ eye3 ]
  = [ [ [ fin 1; fin 0; fin 0; fin 0 ]; [ fin 0; fin 1; fin 0; fin 0 ];
        [ fin 0; fin 0; fin 1; fin 1 ] ] ]
  /\ pad_hom [ eye3 ] <> map spec_pad_bottom_row [ eye3 ].
Proof.
  split; [reflexivity |]. cbn. intros E. discriminate E.
Qed.

Lemma shape33_inv (m : matrix) :
  shape_is 3 3 m = true ->
  exists a b c d e f g h i : num, m = [ [ a; b; c ]; [ d; e; f ]; [ g; h; i ] ].
Proof.
  unfold shape_is. intros H. apply andb_prop in H as [Hl Hr].
  apply Nat.eqb_eq in Hl.
  destruct m as [| r0 [| r1 [| r2 [| r3 m]]]]; try discriminate Hl.
  cbn in Hr. repeat (apply andb_prop in Hr as [? Hr]).
  repeat match goal with H : Nat.eqb _ _ = true |- _ => apply Nat.eqb_eq in H end.
  destruct r0 as [| a [| b [| c [| ? ?]]]]; try discriminate.
  destruct r1 as [| d [| e [| f [| ? ?]]]]; try discriminate.
  destruct r2 as [| g [| h [| i [| ? ?]]]]; try discriminate.
  now exists a, b, c, d, e, f, g, h, i.
Qed.

Lemma pad_hom_cons (m : matrix) (l : list matrix) :
  pad_hom (m :: l) = cat_last m hom_item :: pad_hom l.
Proof. reflexivity. Qed.

Lemma pad_hom_map (l : list matrix) : pad_hom l = map (fun m => cat_last m hom_item) l.
Proof. induction l as [| m l IH]; [reflexivity |]. rewrite pad_hom_cons, IH. reflexivity. Qed.

Lemma pad_hom_not_33 (l : list matrix) :
  forallb (shape_is 3 3) l = true ->
  l <> [] -> forallb (shape_is 3 3) (pad_hom l) = false.
Proof.
  intros H Hne. destruct l as [| m l]; [contradiction |].
  cbn [forallb] in H. apply andb_prop in H as [Hm _].
  destruct (shape33_inv m Hm) as (a & b & c & d & e & f & g & h & i & ->).
  reflexivity.
Qed.

(** Claim C9, as amended.  For every batch of [(3,3)] matrices,
    [rotation_matrix_to_angle_axis] joins to each matrix a fourth column
    [(0,0,1)], which gives a [(3,4)] matrix with the same first three
    columns, and returns what the matrix to quaternion to axis-angle
    pipeline returns for the padded batch; a batch padded beforehand goes
    through unchanged and gives the same result. *)
Theorem angle_axis_pads_fourth_column (rotation_matrix : list matrix) :
  forallb (shape_is 3 3) rotation_matrix = true ->
  rotation_matrix_to_angle_axis rotation_matrix
  = angle_axis_pipeline (pad_hom rotation_matrix)
  /\ rotation_matrix_to_angle_axis (pad_hom rotation_matrix)
     = rotation_matrix_to_angle_axis rotation_matrix
  /\ Forall2 (fun m p =>
                forallb (fun row => Nat.eqb (length row) 4) p = true
                /\ map (firstn 3) p = m
                /\ map (fun row => nth 3 row None) p = [ fin 0; fin 0; fin 1 ])
             rotation_matrix (pad_hom rotation_matrix).
Proof.
  intros H. split; [| split].
  - unfold rotation_matrix_to_angle_axis. rewrite H. reflexivity.
  - destruct rotation_matrix as [| m l]; [reflexivity |].
    unfold rotation_matrix_to_angle_axis at 1.
    rewrite (pad_hom_not_33 (m :: l) H) by discriminate.
    unfold rotation_matrix_to_angle_axis. rewrite H. reflexivity.
  - induction rotation_matrix as [| m l IH]; [constructor |].
    cbn [forallb] in H. apply andb_prop in H as [Hm Hl].
    rewrite pad_hom_cons. constructor; [| exact (IH Hl)].
    destruct (shape33_inv m Hm) as (a & b & c & d & e & f & g & h & i & ->).
    repeat split.
Qed.

Lemma angle_axis_pads_fourth_column_witness :
  rotation_matrix_to_angle_axis [ eye3 ]
  = angle_axis_pipeline (pad_hom [ eye3 ])
  /\ rotation_matrix_to_angle_axis (pad_hom [ eye3 ])
     = rotation_matrix_to_angle_axis [ eye3 ]
  /\ Forall2 (fun m p =>
                forallb (fun row => Nat.eqb (length row) 4) p = true
                /\ map (firstn 3) p = m
                /\ map (fun row => nth 3 row None) p = [ fin 0; fin 0; fin 1 ])
             [ eye3 ] (pad_hom [ eye3 ]).
Proof. apply (angle_axis_pads_fourth_column [ eye3 ]). reflexivity. Defined.

(* ================================================================= *)
(** ** Matrix to quaternion and back *)

Lemma branch_t_pos (m : rmat) : 1 - 1e-6 < cand_t (branch_of m) m.
Proof.
  unfold branch_of.
  destruct (Rlt_dec (r22 m) 1e-6); [destruct (Rlt_dec (r11 m) (r00 m)) |
    destruct (Rlt_dec (r00 m) (- r11 m))]; cbn [cand_t]; lra.
Qed.

Lemma rotation_matrix_to_quaternion1_fin (m : rmat) :
  let br := branch_of m in
  let s := sqrt (cand_t br m) in
  rotation_matrix_to_quaternion1 (tensor_of m)
  = quat_fin (cand_w br m / s * 0.5) (cand_x br m / s * 0.5)
             (cand_y br m / s * 0.5) (cand_z br m / s * 0.5).
Proof.
  intros br s. pose proof (branch_t_pos m) as Ht. fold br in Ht.
  assert (Hs : s <> 0).
  { unfold s. apply Rgt_not_eq. apply sqrt_lt_R0. lra. }
  unfold rotation_matrix_to_quaternion1.
  change (transpose (tensor_of m))
    with [ [ fin (r00 m); fin (r10 m); fin (r20 m) ];
           [ fin (r01 m); fin (r11 m); fin (r21 m) ];
           [ fin (r02 m); fin (r12 m); fin (r22 m) ] ].
  cbn [ix nth].
  change (- fin (r11 m))%num with (fin (- r11 m)).
  unfold Num.gt.
  unfold br, branch_of in *. clear br.
  destruct (Rlt_dec (r22 m) 1e-6) as [D2 | D2];
    [ rewrite (lt_fin_true _ _ D2); destruct (Rlt_dec (r11 m) (r00 m)) as [D01 | D01];
      [ rewrite (lt_fin_true _ _ D01) | rewrite (lt_fin_false _ _ D01) ]
    | rewrite (lt_fin_false _ _ D2) ];
    (destruct (Rlt_dec (r00 m) (- r11 m)) as [Dn | Dn];
      [ rewrite (lt_fin_true _ _ Dn) | rewrite (lt_fin_false _ _ Dn) ]);
    cbn [andb negb]; unfold Num.of_bool; cbn [cand_t cand_w cand_x cand_y cand_z] in *.
  all: unfold quat_scale, quat_add, quat_map, quat_map2, fin;
    cbn [qw qx qy qz Num.add Num.sub Num.mul Num.lift2].
  all: match goal with |- context [Num.sqrt (Some ?e)] =>
         replace e with (s * s) by (unfold s; rewrite sqrt_sqrt by lra; ring) end.
  all: change (Some (s * s)) with (fin (s * s)); rewrite sqrt_fin by nra.
  all: rewrite sqrt_square by (apply sqrt_pos).
  all: unfold fin, Num.div; destruct (Req_dec_T s 0) as [E | _]; [contradiction |].
  all: cbv beta iota; cbn [Num.mul Num.lift2].
  all: unfold quat_fin, fin; f_equal; f_equal; field; exact Hs.
Qed.

Lemma cand_identities (m : rmat) (br : branch) :
  rotation_facts m ->
  let a := cand_w br m in
  let b := cand_x br m in
  let c := cand_y br m in
  let d := cand_z br m in
  let t := cand_t br m in
  a * a + b * b + c * c + d * d = 4 * t
  /\ a * a + b * b - c * c - d * d = 4 * t * r00 m
  /\ 2 * (b * c) - 2 * (a * d) = 4 * t * r01 m
  /\ 2 * (a * c) + 2 * (b * d) = 4 * t * r02 m
  /\ 2 * (a * d) + 2 * (b * c) = 4 * t * r10 m
  /\ a * a - b * b + c * c - d * d = 4 * t * r11 m
  /\ 2 * (c * d) - 2 * (a * b) = 4 * t * r12 m
  /\ 2 * (b * d) - 2 * (a * c) = 4 * t * r20 m
  /\ 2 * (a * b) + 2 * (c * d) = 4 * t * r21 m
  /\ a * a - b * b - c * c + d * d = 4 * t * r22 m.
Proof.
  intros F. destruct F. destruct m as [a0 b0 c0 d0 e0 f0 g0 h0 i0].
  cbn [r00 r01 r02 r10 r11 r12 r20 r21 r22] in *.
  destruct br; cbn [cand_w cand_x cand_y cand_z cand_t r00 r01 r02 r10 r11 r12 r20 r21 r22];
    cbv zeta; repeat split; lra.
Qed.

Lemma rotation_matrix_to_quaternion1_rq (m : rmat) :
  rotation_matrix_to_quaternion1 (tensor_of m) = quat_fin4 (rq m).
Proof. exact (rotation_matrix_to_quaternion1_fin m). Qed.

Lemma rq_unit_qmat (m : rmat) :
  is_rotation m -> norm_sq4 (rq m) = 1 /\ qmat4 (rq m) = m.
Proof.
  intros Hm. pose proof (rotation_all_facts m Hm) as F.
  pose proof (cand_identities m (branch_of m) F) as I. cbv zeta in I.
  pose proof (branch_t_pos m) as Ht.
  unfold rq, norm_sq4, qmat4, qmat. cbv beta iota zeta.
  set (br := branch_of m) in *.
  set (t := cand_t br m) in *.
  assert (Hs : sqrt t * sqrt t = t) by (apply sqrt_sqrt; lra).
  assert (Hs0 : sqrt t <> 0) by (apply Rgt_not_eq, sqrt_lt_R0; lra).
  set (s := sqrt t) in *.
  set (a := cand_w br m) in *. set (b := cand_x br m) in *.
  set (c := cand_y br m) in *. set (d := cand_z br m) in *.
  destruct I as (I0 & I1 & I2 & I3 & I4 & I5 & I6 & I7 & I8 & I9).
  replace 0.5 with (/ 2) by lra.
  assert (K : forall p e : R, p = 4 * t * e -> p / (4 * (s * s)) = e).
  { intros p e ->. rewrite Hs. field. lra. }
  split.
  - transitivity ((a * a + b * b + c * c + d * d) / (4 * (s * s)));
      [field; exact Hs0 | apply K; lra].
  - destruct m as [a0 b0 c0 d0 e0 f0 g0 h0 i0].
    cbn [r00 r01 r02 r10 r11 r12 r20 r21 r22] in *.
    f_equal;
      (etransitivity;
       [| first [ apply (K _ _ I1) | apply (K _ _ I2) | apply (K _ _ I3)
                | apply (K _ _ I4) | apply (K _ _ I5) | apply (K _ _ I6)
                | apply (K _ _ I7) | apply (K _ _ I8) | apply (K _ _ I9) ] ];
       field; exact Hs0).
Qed.

Lemma quat_to_rotmat1_unit (w x y z : R) :
  w * w + x * x + y * y + z * z = 1 ->
  quat_to_rotmat1 (quat_fin w x y z) = tensor_of (qmat w x y z).
Proof.
  intros H. rewrite quat_to_rotmat1_fin; rewrite H, sqrt_1; [| lra].
  unfold tensor_of, qmat. cbn [r00 r01 r02 r10 r11 r12 r20 r21 r22].
  repeat (f_equal; try (apply fin_eq; field)).
Qed.

Lemma quat_round_trip1 (m : rmat) :
  is_rotation m ->
  quat_to_rotmat1 (rotation_matrix_to_quaternion1 (tensor_of m)) = tensor_of m.
Proof.
  intros Hm. rewrite rotation_matrix_to_quaternion1_rq.
  destruct (rq_unit_qmat m Hm) as [U Q].
  destruct (rq m) as [[[w x] y] z]. cbn [quat_fin4 norm_sq4 qmat4] in *.
  rewrite quat_to_rotmat1_unit by exact U. rewrite Q. reflexivity.
Qed.

(** ** Matrix to axis-angle and back *)

Lemma quaternion_to_angle_axis1_fin (w x y z : R) :
  quaternion_to_angle_axis1 (quat_fin w x y z)
  = vec3_fin (0 + x * kR w x y z) (0 + y * kR w x y z) (0 + z * kR w x y z).
Proof.
  unfold quaternion_to_angle_axis1, quat_fin. cbn [qw qx qy qz].
  change (fin x * fin x + fin y * fin y + fin z * fin z)%num
    with (fin (x * x + y * y + z * z)).
  pose proof (sum_sq3_nonneg x y z) as Hs.
  unfold kR, two_thetaR. set (sigma := x * x + y * y + z * z) in *.
  rewrite sqrt_fin by exact Hs.
  unfold Num.gt.
  assert (E : (fin 2 * Num.where_ (Num.lt (fin w) (fin 0))
                 (Torch.atan2 (- fin (sqrt sigma)) (- fin w))
                 (Torch.atan2 (fin (sqrt sigma)) (fin w)))%num
              = fin (2 * (if Rlt_dec w 0 then Torch.atan2R (- sqrt sigma) (- w)
                          else Torch.atan2R (sqrt sigma) w))).
  { unfold Num.lt, fin. destruct (Rlt_dec w 0); reflexivity. }
  rewrite E. clear E.
  destruct (Rlt_dec 0 sigma) as [P | P].
  - rewrite (lt_fin_true _ _ P). cbn [Num.where_].
    rewrite div_fin by (apply Rgt_not_eq, sqrt_lt_R0; exact P).
    reflexivity.
  - rewrite (lt_fin_false _ _ P). reflexivity.
Qed.

(** atan2 of a point of the unit circle in the right half plane *)
Lemma atan_unit_circle (c s : R) :
  0 < c -> c * c + s * s = 1 -> cos (atan (s / c)) = c /\ sin (atan (s / c)) = s.
Proof.
  intros Hc H.
  assert (E : sqrt (1 + (s / c)²) = / c).
  { replace (1 + (s / c)²) with ((c * c + s * s) * (/ c * / c))
      by (unfold Rsqr; field; lra).
    rewrite H, Rmult_1_l.
    apply sqrt_square. left. apply Rinv_0_lt_compat. exact Hc. }
  rewrite cos_atan, sin_atan, E. split; field; lra.
Qed.

(** The half angle of [quaternion_to_angle_axis]: its cosine and sine are
    those of the quaternion, up to the sign of the real part. *)
Lemma half_angle_cos_sin (w sn : R) :
  0 < sn -> w * w + sn * sn = 1 ->
  let phi := two_thetaR w sn / 2 in
  - (PI / 2) < phi <= PI / 2
  /\ ((0 <= w /\ 0 < phi /\ cos phi = w /\ sin phi = sn)
      \/ (w < 0 /\ phi < 0 /\ cos phi = - w /\ sin phi = - sn)).
Proof.
  intros Hsn H phi. unfold phi, two_thetaR.
  pose proof PI_RGT_0 as Hpi.
  destruct (Rlt_dec w 0) as [Wn | Wp].
  - replace (2 * Torch.atan2R (- sn) (- w) / 2) with (Torch.atan2R (- sn) (- w)) by field.
    unfold Torch.atan2R. destruct (Rlt_dec 0 (- w)) as [_ | C]; [| lra].
    destruct (atan_unit_circle (- w) (- sn)) as [Ec Es]; [lra | nra |].
    pose proof (atan_bound (- sn / - w)) as Hb.
    assert (Hneg : atan (- sn / - w) < 0).
    { rewrite <- atan_0. apply atan_increasing.
      replace (- sn / - w) with (sn * / w) by (field; lra).
      assert (/ w < 0) by (apply Rinv_lt_0_compat; exact Wn). nra. }
    split; [lra |]. right. repeat split; try assumption.
  - replace (2 * Torch.atan2R sn w / 2) with (Torch.atan2R sn w) by field.
    unfold Torch.atan2R. destruct (Rlt_dec 0 w) as [Wpos | W0].
    + destruct (atan_unit_circle w sn) as [Ec Es]; [lra | nra |].
      pose proof (atan_bound (sn / w)) as Hb.
      assert (Hpos : 0 < atan (sn / w)).
      { rewrite <- atan_0. apply atan_increasing.
        apply Rdiv_lt_0_compat; assumption. }
      split; [lra |]. left. repeat split; try assumption; lra.
    + assert (w = 0) by lra. subst w.
      destruct (Rlt_dec 0 0) as [C | _]; [lra |].
      destruct (Rlt_dec 0 sn) as [_ | C]; [| contradiction].
      assert (sn = 1) by nra. subst sn.
      split; [lra |]. left. rewrite cos_PI2, sin_PI2. repeat split; lra.
Qed.

Lemma Rabs_sin_le (x : R) : Rabs (sin x) <= Rabs x.
Proof.
  assert (P : forall y, 0 <= y -> sin y <= y).
  { intros y [Hy | <-]; [left; apply sin_lt_x; exact Hy | rewrite sin_0; lra]. }
  destruct (Rle_or_lt 0 x) as [Hx | Hx].
  - rewrite (Rabs_pos_eq x) by exact Hx.
    apply Rabs_le. split; [| apply P; exact Hx].
    destruct (Rle_or_lt x PI) as [Hpi | Hpi].
    + pose proof (sin_ge_0 x Hx Hpi). lra.
    + pose proof (SIN_bound x). pose proof PI_RGT_0. pose proof PI2_3_2. lra.
  - rewrite (Rabs_left x) by exact Hx.
    apply Rabs_le. pose proof (P (- x) ltac:(lra)) as Q. rewrite sin_neg in Q.
    split; [lra |].
    destruct (Rle_or_lt (- PI) x) as [Hpi | Hpi].
    + pose proof (sin_ge_0 (- x) ltac:(lra) ltac:(lra)) as G. rewrite sin_neg in G. lra.
    + pose proof (SIN_bound x). pose proof PI_RGT_0. pose proof PI2_3_2. lra.
Qed.

Lemma norm3R_nonneg (x y z : R) : 0 <= norm3R x y z.
Proof. apply sqrt_pos. Qed.

Lemma norm3R_sq (x y z : R) : norm3R x y z * norm3R x y z = x * x + y * y + z * z.
Proof. apply sqrt_sqrt. nra. Qed.

Lemma norm3R_triangle (x y z a b c : R) :
  norm3R (x + a) (y + b) (z + c) <= norm3R x y z + norm3R a b c.
Proof.
  pose proof (norm3R_nonneg x y z) as H1. pose proof (norm3R_nonneg a b c) as H2.
  pose proof (norm3R_sq x y z) as S1. pose proof (norm3R_sq a b c) as S2.
  pose proof (norm3R_nonneg (x + a) (y + b) (z + c)) as H3.
  pose proof (norm3R_sq (x + a) (y + b) (z + c)) as S3.
  set (p := norm3R x y z) in *. set (q := norm3R a b c) in *.
  set (r := norm3R (x + a) (y + b) (z + c)) in *.
  assert (CS : x * a + y * b + z * c <= p * q).
  { destruct (Rle_or_lt (x * a + y * b + z * c) 0) as [N | P]; [nra |].
    assert (L : (x * a + y * b + z * c) * (x * a + y * b + z * c) <= (p * q) * (p * q)).
    { replace (p * q * (p * q)) with ((p * p) * (q * q)) by ring. rewrite S1, S2.
      assert (Lag : (x * x + y * y + z * z) * (a * a + b * b + c * c)
                    - (x * a + y * b + z * c) * (x * a + y * b + z * c)
                    = (x * b - y * a) * (x * b - y * a)
                      + (x * c - z * a) * (x * c - z * a)
                      + (y * c - z * b) * (y * c - z * b)) by ring.
      pose proof (Rle_0_sqr (x * b - y * a)) as Q1.
      pose proof (Rle_0_sqr (x * c - z * a)) as Q2.
      pose proof (Rle_0_sqr (y * c - z * b)) as Q3.
      unfold Rsqr in Q1, Q2, Q3. lra. }
    apply Rsqr_incr_0_var; [exact L | apply Rmult_le_pos; assumption]. }
  nra.
Qed.

Lemma norm3R_perturb (x y z a b c : R) :
  Rabs (norm3R (x + a) (y + b) (z + c) - norm3R x y z) <= norm3R a b c.
Proof.
  apply Rabs_le. split.
  - pose proof (norm3R_triangle (x + a) (y + b) (z + c) (- a) (- b) (- c)) as T.
    replace (x + a + - a) with x in T by ring.
    replace (y + b + - b) with y in T by ring.
    replace (z + c + - c) with z in T by ring.
    replace (norm3R (- a) (- b) (- c)) with (norm3R a b c) in T
      by (unfold norm3R; f_equal; ring).
    lra.
  - pose proof (norm3R_triangle x y z a b c). lra.
Qed.

Lemma entry_bound (al be ga A B C D : R) :
  C * C + D * D = 1 ->
  Rabs (al - be) <= 2 -> Rabs ga <= 2 ->
  / 4 <= A * A + B * B ->
  Rabs ((al * (A * A) + be * (B * B) + ga * (A * B)) / (A * A + B * B)
        - (al * (C * C) + be * (D * D) + ga * (C * D)))
  <= 8 * Rabs (A * D - B * C).
Proof.
  intros H Hab Hg Hn.
  set (n2 := A * A + B * B) in *.
  set (E := A * D - B * C). set (P := A * D + B * C). set (Q := B * D - A * C).
  assert (HPQ : P * P + Q * Q = n2) by (unfold P, Q, n2; nra).
  set (num := al * (A * A) + be * (B * B) + ga * (A * B)).
  set (T := al * (C * C) + be * (D * D) + ga * (C * D)).
  assert (Key : num - T * n2 = E * ((al - be) * P + ga * Q)).
  { assert (G : num - T * n2 - E * ((al - be) * P + ga * Q)
                = num * (1 - (C * C + D * D)))
      by (unfold num, T, n2, E, P, Q; ring).
    rewrite H in G. lra. }
  replace (num / n2 - T) with (E * (((al - be) * P + ga * Q) / n2)).
  2:{ replace (num / n2 - T) with ((num - T * n2) / n2) by (field; lra).
      rewrite Key. unfold Rdiv. ring. }
  rewrite Rabs_mult, Rmult_comm. apply Rmult_le_compat_r; [apply Rabs_pos |].
  assert (Hs : 0 < sqrt n2) by (apply sqrt_lt_R0; lra).
  assert (Hss : sqrt n2 * sqrt n2 = n2) by (apply sqrt_sqrt; lra).
  assert (HP : Rabs P <= sqrt n2).
  { apply Rabs_le. split; nra. }
  assert (HQ : Rabs Q <= sqrt n2).
  { apply Rabs_le. split; nra. }
  assert (Hnum : Rabs ((al - be) * P + ga * Q) <= 4 * sqrt n2).
  { eapply Rle_trans; [apply Rabs_triang |]. rewrite !Rabs_mult.
    pose proof (Rabs_pos P). pose proof (Rabs_pos Q).
    pose proof (Rabs_pos (al - be)). pose proof (Rabs_pos ga). nra. }
  unfold Rdiv. rewrite Rabs_mult, (Rabs_pos_eq (/ n2)) by (left; apply Rinv_0_lt_compat; lra).
  assert (Hh : / 2 <= sqrt n2) by nra.
  apply Rmult_le_reg_r with n2; [lra |].
  rewrite Rmult_assoc, Rinv_l by lra. nra.
Qed.
Lemma qmat_axis (c d ux uy uz : R) :
  qmat c (d * ux) (d * uy) (d * uz) = axis_mat (quad c d) ux uy uz.
Proof. unfold qmat, axis_mat, quad. f_equal; ring. Qed.

Lemma qmat_axis_normalised (a b n ux uy uz : R) :
  n <> 0 -> n * n = a * a + b * b ->
  qmat (a / n) (b * ux / n) (b * uy / n) (b * uz / n)
  = axis_mat (fun al be ga => quad a b al be ga / (a * a + b * b)) ux uy uz.
Proof.
  intros Hn E. rewrite <- E. unfold qmat, axis_mat, quad. f_equal; field; exact Hn.
Qed.

Lemma qmat_neg (w x y z : R) : qmat (- w) (- x) (- y) (- z) = qmat w x y z.
Proof. unfold qmat. f_equal; ring. Qed.

Lemma axis_mat_close (a b c d ux uy uz : R) :
  ux * ux + uy * uy + uz * uz = 1 ->
  c * c + d * d = 1 ->
  / 4 <= a * a + b * b ->
  within (8 * Rabs (a * d - b * c))
    (axis_mat (fun al be ga => quad a b al be ga / (a * a + b * b)) ux uy uz)
    (axis_mat (quad c d) ux uy uz).
Proof.
  intros Hu Hcd Hn.
  assert (Bx : Rabs (2 * ux) <= 2) by (apply Rabs_le; split; nra).
  assert (By : Rabs (2 * uy) <= 2) by (apply Rabs_le; split; nra).
  assert (Bz : Rabs (2 * uz) <= 2) by (apply Rabs_le; split; nra).
  assert (B0 : Rabs 0 <= 2) by (rewrite Rabs_R0; lra).
  unfold within, axis_mat, quad. cbn [r00 r01 r02 r10 r11 r12 r20 r21 r22].
  repeat split; apply entry_bound;
    try assumption; try (rewrite Rabs_Ropp; assumption);
    apply Rabs_le; split; nra.
Qed.

Lemma half_angle_mismatch (al ps : R) :
  0 < al -> 0 <= ps ->
  Rabs (cos (al * 0.5) * sin ps - sin (al * 0.5) * (2 * ps / al) * cos ps)
  <= Rabs (al - 2 * ps).
Proof.
  intros Hal Hps. rewrite half_is_inv2.
  replace (cos (al * / 2) * sin ps - sin (al * / 2) * (2 * ps / al) * cos ps)
    with (sin (ps - al * / 2) + sin (al * / 2) * cos ps * ((al - 2 * ps) / al))
    by (rewrite sin_minus; field; lra).
  eapply Rle_trans; [apply Rabs_triang |].
  pose proof (Rabs_sin_le (ps - al * / 2)) as S1.
  replace (Rabs (ps - al * / 2)) with (Rabs (al - 2 * ps) / 2) in S1.
  2:{ replace (ps - al * / 2) with (- ((al - 2 * ps) / 2)) by lra.
      rewrite Rabs_Ropp. unfold Rdiv. rewrite Rabs_mult.
      rewrite (Rabs_pos_eq (/ 2)) by lra. reflexivity. }
  assert (S2 : Rabs (sin (al * / 2) * cos ps * ((al - 2 * ps) / al))
               <= Rabs (al - 2 * ps) / 2).
  { rewrite !Rabs_mult. unfold Rdiv at 1. rewrite Rabs_mult.
    rewrite (Rabs_pos_eq (/ al)) by (left; apply Rinv_0_lt_compat; exact Hal).
    pose proof (Rabs_sin_le (al * / 2)) as S3.
    rewrite (Rabs_pos_eq (al * / 2)) in S3 by lra.
    assert (C1 : Rabs (cos ps) <= 1).
    { apply Rabs_le. pose proof (COS_bound ps). lra. }
    pose proof (Rabs_pos (sin (al * / 2))). pose proof (Rabs_pos (cos ps)).
    pose proof (Rabs_pos (al - 2 * ps)) as P3.
    assert (Hi : 0 < / al) by (apply Rinv_0_lt_compat; exact Hal).
    assert (M1 : Rabs (sin (al * / 2)) * Rabs (cos ps) <= al * / 2) by nra.
    assert (M2 : Rabs (sin (al * / 2)) * Rabs (cos ps) * (Rabs (al - 2 * ps) * / al)
                 <= al * / 2 * (Rabs (al - 2 * ps) * / al)).
    { apply Rmult_le_compat_r; [nra | exact M1]. }
    replace (al * / 2 * (Rabs (al - 2 * ps) * / al)) with (Rabs (al - 2 * ps) / 2) in M2
      by (field; lra).
    exact M2. }
  lra.
Qed.

Lemma rodrigues_norm_bound (al ps : R) :
  0 < al -> 0 <= ps -> Rabs (al - 2 * ps) <= / 4 ->
  / 4 <= cos (al * 0.5) * cos (al * 0.5)
         + sin (al * 0.5) * (2 * ps / al) * (sin (al * 0.5) * (2 * ps / al)).
Proof.
  intros Hal Hps Hd. rewrite half_is_inv2.
  pose proof (sin2_cos2 (al * / 2)) as SC. unfold Rsqr in SC.
  set (s := sin (al * / 2)) in *. set (c := cos (al * / 2)) in *.
  apply Rabs_le_both in Hd.
  destruct (Rle_or_lt (al / 2) (2 * ps)) as [Big | Small].
  - assert (Hr : / 2 <= 2 * ps / al).
    { apply Rmult_le_reg_r with al; [exact Hal |].
      unfold Rdiv. rewrite Rmult_assoc, Rinv_l by lra. lra. }
    assert (Hq : / 4 <= (2 * ps / al) * (2 * ps / al)) by nra.
    set (q := 2 * ps / al) in *.
    replace (c * c + s * q * (s * q)) with (c * c + s * s * (q * q)) by ring.
    nra.
  - assert (Hs : Rabs s <= al * / 2).
    { pose proof (Rabs_sin_le (al * / 2)) as S. fold s in S.
      rewrite (Rabs_pos_eq (al * / 2)) in S by lra. exact S. }
    apply Rabs_le_both in Hs.
    assert (s * s <= / 16) by nra.
    set (q := 2 * ps / al). 
    assert (0 <= s * q * (s * q)) by (apply Rle_0_sqr).
    nra.
Qed.

Lemma batch_rodrigues1_fin (ax ay az : R) :
  let al := norm3R (ax + 1e-8) (ay + 1e-8) (az + 1e-8) in
  al <> 0 ->
  batch_rodrigues1 (vec3_fin ax ay az)
  = quat_to_rotmat1
      (quat_fin (cos (al * 0.5)) (sin (al * 0.5) * (ax / al))
         (sin (al * 0.5) * (ay / al)) (sin (al * 0.5) * (az / al))).
Proof.
  intros al Hal. unfold batch_rodrigues1.
  change (vec3_map (fun a => (a + fin 1e-8)%num) (vec3_fin ax ay az))
    with (vec3_fin (ax + 1e-8) (ay + 1e-8) (az + 1e-8)).
  rewrite norm3_fin. fold (norm3R (ax + 1e-8) (ay + 1e-8) (az + 1e-8)). fold al.
  unfold vec3_fin, vec3_map. cbn [vx vy vz].
  rewrite !div_fin by exact Hal. reflexivity.
Qed.

Lemma batch_rodrigues1_nan (ax ay az : R) :
  norm3R (ax + 1e-8) (ay + 1e-8) (az + 1e-8) = 0 ->
  batch_rodrigues1 (vec3_fin ax ay az)
  = [ [ None; None; None ]; [ None; None; None ]; [ None; None; None ] ].
Proof.
  intros Hal. unfold batch_rodrigues1.
  change (vec3_map (fun a => (a + fin 1e-8)%num) (vec3_fin ax ay az))
    with (vec3_fin (ax + 1e-8) (ay + 1e-8) (az + 1e-8)).
  rewrite norm3_fin. fold (norm3R (ax + 1e-8) (ay + 1e-8) (az + 1e-8)).
  rewrite Hal.
  unfold vec3_fin, vec3_map, fin, Num.div. cbn [vx vy vz].
  destruct (Req_dec_T 0 0) as [_ | N]; [| contradiction].
  reflexivity.
Qed.

Lemma norm3R_eps : norm3R 1e-8 1e-8 1e-8 <= 2e-8.
Proof.
  unfold norm3R. rewrite <- (sqrt_square 2e-8) by lra.
  apply sqrt_le_1_alt. lra.
Qed.

Lemma norm3R_scaled (t ux uy uz : R) :
  ux * ux + uy * uy + uz * uz = 1 ->
  norm3R (t * ux) (t * uy) (t * uz) = Rabs t.
Proof.
  intros H. unfold norm3R.
  replace (t * ux * (t * ux) + t * uy * (t * uy) + t * uz * (t * uz))
    with (t * t * (ux * ux + uy * uy + uz * uz)) by ring.
  rewrite H, Rmult_1_r. fold (Rsqr t). apply sqrt_Rsqr_abs.
Qed.

(** The matrix rebuilt from the axis-angle vector of a unit quaternion with
    a vector part. *)
Lemma rodrigues_close_vector (w x y z : R) :
  w * w + x * x + y * y + z * z = 1 ->
  0 < x * x + y * y + z * z ->
  let k := kR w x y z in
  let al := norm3R (0 + x * k + 1e-8) (0 + y * k + 1e-8) (0 + z * k + 1e-8) in
  al <> 0 ->
  exists m' : rmat,
    batch_rodrigues1 (vec3_fin (0 + x * k) (0 + y * k) (0 + z * k))
    = tensor_of m'
    /\ within 1e-4 m' (qmat w x y z).
Proof.
  intros Hq Hsig k al Hal.
  set (sn := sqrt (x * x + y * y + z * z)).
  assert (Hsn : 0 < sn) by (apply sqrt_lt_R0; exact Hsig).
  assert (Hsn2 : sn * sn = x * x + y * y + z * z) by (apply sqrt_sqrt; lra).
  assert (Hk : k = two_thetaR w sn / sn).
  { unfold k, kR. cbv zeta. destruct (Rlt_dec 0 (x * x + y * y + z * z)); [reflexivity | contradiction]. }
  set (tau := two_thetaR w sn) in *.
  set (ux := x / sn). set (uy := y / sn). set (uz := z / sn).
  assert (Hu : ux * ux + uy * uy + uz * uz = 1).
  { unfold ux, uy, uz.
    replace (x / sn * (x / sn) + y / sn * (y / sn) + z / sn * (z / sn))
      with ((x * x + y * y + z * z) / (sn * sn)) by (field; lra).
    rewrite Hsn2. field. lra. }
  assert (Hx : x = sn * ux) by (unfold ux; field; lra).
  assert (Hy : y = sn * uy) by (unfold uy; field; lra).
  assert (Hz : z = sn * uz) by (unfold uz; field; lra).
  assert (Eax : 0 + x * k = tau * ux) by (rewrite Hk; unfold ux; field; lra).
  assert (Eay : 0 + y * k = tau * uy) by (rewrite Hk; unfold uy; field; lra).
  assert (Eaz : 0 + z * k = tau * uz) by (rewrite Hk; unfold uz; field; lra).
  assert (Hal0 : 0 < al).
  { pose proof (norm3R_nonneg (0 + x * k + 1e-8) (0 + y * k + 1e-8) (0 + z * k + 1e-8)).
    fold al in H. lra. }
  assert (Hpert : Rabs (al - Rabs tau) <= 2e-8).
  { unfold al. rewrite Eax, Eay, Eaz.
    rewrite <- (norm3R_scaled tau ux uy uz Hu).
    eapply Rle_trans; [apply norm3R_perturb | apply norm3R_eps]. }
  rewrite batch_rodrigues1_fin by exact Hal. fold al.
  set (a := cos (al * 0.5)).
  set (b := sin (al * 0.5) * (tau / al)).
  assert (Ebx : sin (al * 0.5) * ((0 + x * k) / al) = b * ux)
    by (rewrite Eax; unfold b; field; lra).
  assert (Eby : sin (al * 0.5) * ((0 + y * k) / al) = b * uy)
    by (rewrite Eay; unfold b; field; lra).
  assert (Ebz : sin (al * 0.5) * ((0 + z * k) / al) = b * uz)
    by (rewrite Eaz; unfold b; field; lra).
  rewrite Ebx, Eby, Ebz.
  assert (Hw : w * w + sn * sn = 1) by lra.
  destruct (half_angle_cos_sin w sn Hsn Hw) as [Hphi Hcase]. fold tau in Hphi, Hcase.
  set (phi := tau / 2) in *.
  set (ps := Rabs phi).
  assert (Hps : 0 <= ps) by apply Rabs_pos.
  assert (Htau : Rabs tau = 2 * ps).
  { unfold ps, phi. unfold Rdiv. rewrite Rabs_mult, (Rabs_pos_eq (/ 2)) by lra. lra. }
  rewrite Htau in Hpert.
  (* the norm of the quaternion *)
  assert (Hn2 : / 4 <= a * a + b * b).
  { pose proof (rodrigues_norm_bound al ps Hal0 Hps ltac:(lra)) as N.
    fold a in N.
    replace (b * b) with (sin (al * 0.5) * (2 * ps / al) * (sin (al * 0.5) * (2 * ps / al))).
    - exact N.
    - unfold b. rewrite <- Htau.
      replace (sin (al * 0.5) * (Rabs tau / al) * (sin (al * 0.5) * (Rabs tau / al)))
        with (sin (al * 0.5) * sin (al * 0.5) * (Rabs tau * Rabs tau) / (al * al))
        by (field; lra).
      replace (Rabs tau * Rabs tau) with (tau * tau)
        by (rewrite <- Rabs_mult; symmetry; apply Rabs_pos_eq; nra).
      field. lra. }
  set (n := sqrt (a * a + b * ux * (b * ux) + b * uy * (b * uy) + b * uz * (b * uz))).
  assert (Hnn : n * n = a * a + b * b).
  { unfold n. rewrite sqrt_sqrt by nra.
    replace (b * b) with (b * b * (ux * ux + uy * uy + uz * uz)) by (rewrite Hu; ring).
    ring. }
  assert (Hn : n <> 0) by (intros E; rewrite E in Hnn; lra).
  rewrite quat_to_rotmat1_fin by exact Hn. fold n.
  rewrite (qmat_axis_normalised a b n ux uy uz Hn Hnn).
  eexists. split; [reflexivity |].
  (* the mismatch of the half angles *)
  pose proof (half_angle_mismatch al ps Hal0 Hps) as Hm. fold a in Hm.
  destruct Hcase as [(W0 & P0 & Ec & Es) | (W0 & P0 & Ec & Es)].
  - (* nonnegative real part *)
    assert (Eps : ps = phi) by (unfold ps; apply Rabs_pos_eq; lra).
    replace (qmat w x y z) with (axis_mat (quad (cos phi) (sin phi)) ux uy uz)
      by (rewrite <- qmat_axis, Ec, Es, <- Hx, <- Hy, <- Hz; reflexivity).
    pose proof (axis_mat_close a b (cos phi) (sin phi) ux uy uz Hu
                  ltac:(pose proof (sin2_cos2 phi) as T; unfold Rsqr in T; lra) Hn2) as Hc.
    assert (HE : Rabs (a * sin phi - b * cos phi) <= 2e-8).
    { replace (a * sin phi - b * cos phi)
        with (a * sin ps - sin (al * 0.5) * (2 * ps / al) * cos ps).
      - lra.
      - rewrite Eps. unfold b, phi. field. lra. }
    unfold within in *. repeat split;
      (eapply Rle_trans; [apply Hc | lra]).
  - (* negative real part *)
    assert (Eps : ps = - phi) by (unfold ps; apply Rabs_left; lra).
    rewrite <- (qmat_neg w x y z).
    replace (qmat (- w) (- x) (- y) (- z))
      with (axis_mat (quad (cos phi) (sin phi)) ux uy uz).
    2:{ rewrite <- qmat_axis, Ec, Es. f_equal; lra. }
    pose proof (axis_mat_close a b (cos phi) (sin phi) ux uy uz Hu
                  ltac:(pose proof (sin2_cos2 phi) as T; unfold Rsqr in T; lra) Hn2) as Hc.
    assert (HE : Rabs (a * sin phi - b * cos phi) <= 2e-8).
    { replace (a * sin phi - b * cos phi)
        with (- (a * sin ps - sin (al * 0.5) * (2 * ps / al) * cos ps)).
      - rewrite Rabs_Ropp. lra.
      - rewrite Eps, sin_neg, cos_neg. unfold b, phi. field. lra. }
    unfold within in *. repeat split;
      (eapply Rle_trans; [apply Hc | lra]).
Qed.

Lemma within_refl (tol : R) (m : rmat) : 0 <= tol -> within tol m m.
Proof.
  intros H. unfold within.
  repeat split; rewrite Rminus_diag, Rabs_R0; exact H.
Qed.

Lemma sum_sq3_zero_all (a b c : R) : a * a + b * b + c * c <= 0 -> a = 0 /\ b = 0 /\ c = 0.
Proof. intros H. repeat split; nra. Qed.

Lemma norm3R_zero (a b c : R) : norm3R a b c = 0 -> a = 0 /\ b = 0 /\ c = 0.
Proof.
  intros H. pose proof (norm3R_sq a b c) as S. rewrite H in S.
  apply sum_sq3_zero_all. lra.
Qed.

(** The matrix rebuilt from the axis-angle vector of a unit quaternion
    without a vector part: the identity, exactly. *)
Lemma rodrigues_close_scalar (w x y z : R) :
  w * w + x * x + y * y + z * z = 1 ->
  ~ 0 < x * x + y * y + z * z ->
  let k := kR w x y z in
  batch_rodrigues1 (vec3_fin (0 + x * k) (0 + y * k) (0 + z * k))
  = tensor_of (qmat w x y z).
Proof.
  intros Hq Hsig k.
  destruct (sum_sq3_zero_all x y z ltac:(lra)) as (-> & -> & ->).
  replace (0 + 0 * k) with 0 by ring.
  rewrite batch_rodrigues1_zero.
  unfold eye3, tensor_of, qmat. cbn [r00 r01 r02 r10 r11 r12 r20 r21 r22].
  repeat (f_equal; try (apply fin_eq; nra)).
Qed.

Lemma rodrigues_close (q : R * R * R * R) :
  norm_sq4 q = 1 ->
  vec3_fin3 (aaR q) <> vec3_fin (- 1e-8) (- 1e-8) (- 1e-8) ->
  exists m' : rmat,
    batch_rodrigues1 (vec3_fin3 (aaR q)) = tensor_of m'
    /\ within 1e-4 m' (qmat4 q).
Proof.
  destruct q as [[[w x] y] z]. cbn [norm_sq4 aaR vec3_fin3 qmat4].
  intros Hq Hne.
  destruct (Rlt_dec 0 (x * x + y * y + z * z)) as [P | P].
  - apply rodrigues_close_vector; [exact Hq | exact P |].
    intros E. apply Hne. apply norm3R_zero in E as (E1 & E2 & E3).
    unfold vec3_fin. f_equal; apply fin_eq; lra.
  - exists (qmat w x y z). split.
    + apply rodrigues_close_scalar; assumption.
    + apply within_refl. lra.
Qed.

Lemma rotation_matrix_to_quaternion1_padded (m : rmat) :
  rotation_matrix_to_quaternion1 (cat_last (tensor_of m) hom_item)
  = rotation_matrix_to_quaternion1 (tensor_of m).
Proof. reflexivity. Qed.

Lemma forallb_shape_tensor_of (Rs : list rmat) :
  forallb (shape_is 3 3) (map tensor_of Rs) = true.
Proof. induction Rs as [| m l IH]; [reflexivity | cbn [map forallb]; rewrite IH; reflexivity]. Qed.

Lemma rotation_matrix_to_angle_axis_fin (Rs : list rmat) :
  rotation_matrix_to_angle_axis (map tensor_of Rs)
  = map (fun m => vec3_fin3 (aaR (rq m))) Rs.
Proof.
  unfold rotation_matrix_to_angle_axis. rewrite forallb_shape_tensor_of.
  rewrite pad_hom_map. unfold angle_axis_pipeline, rotation_matrix_to_quaternion,
    quaternion_to_angle_axis.
  rewrite !map_map. apply map_ext. intros m.
  rewrite rotation_matrix_to_quaternion1_padded, rotation_matrix_to_quaternion1_rq.
  destruct (rq m) as [[[w x] y] z]. cbn [quat_fin4 aaR vec3_fin3].
  rewrite quaternion_to_angle_axis1_fin. reflexivity.
Qed.

(** ** Two rotations that do not come back *)

Lemma rot_x180_rotation : is_rotation rot_x180.
Proof. split; unfold rdet, rot_x180; cbn; lra. Qed.

Lemma sqrt_4 : sqrt 4 = 2.
Proof. replace 4 with (2 * 2) by ring. apply sqrt_square. lra. Qed.

Lemma rq_rot_x180 : rq rot_x180 = (0, 1, 0, 0).
Proof.
  unfold rq, branch_of, rot_x180. cbn [r00 r01 r02 r10 r11 r12 r20 r21 r22].
  destruct (Rlt_dec (-1) 1e-6) as [_ | N]; [| lra].
  destruct (Rlt_dec (-1) 1) as [_ | N]; [| lra].
  cbn [cand_t cand_w cand_x cand_y cand_z r00 r01 r02 r10 r11 r12 r20 r21 r22].
  replace (1 + 1 - -1 - -1) with 4 by lra. rewrite sqrt_4.
  repeat f_equal; lra.
Qed.

Lemma aaR_x180 : aaR (0, 1, 0, 0) = (PI, 0, 0).
Proof.
  unfold aaR, kR. cbv zeta.
  replace (1 * 1 + 0 * 0 + 0 * 0) with 1 by ring.
  destruct (Rlt_dec 0 1) as [_ | N]; [| lra].
  rewrite sqrt_1. unfold two_thetaR, Torch.atan2R.
  destruct (Rlt_dec 0 0) as [N | _]; [lra |].
  destruct (Rlt_dec 0 1) as [_ | N]; [| lra].
  repeat f_equal; field.
Qed.

Lemma sqrt_lt_bounds (x lo hi : R) :
  0 <= lo -> lo * lo < x -> x < hi * hi -> 0 <= hi -> lo < sqrt x < hi.
Proof.
  intros Hlo H1 H2 Hhi. split.
  - rewrite <- (sqrt_square lo) by exact Hlo. apply sqrt_lt_1_alt. nra.
  - rewrite <- (sqrt_square hi) by exact Hhi. apply sqrt_lt_1_alt. nra.
Qed.

(** The half turn about the first axis does not come back exactly. *)
Lemma rodrigues_x180_inexact :
  batch_rodrigues (rotation_matrix_to_angle_axis [ tensor_of rot_x180 ])
  <> [ tensor_of rot_x180 ].
Proof.
  change [ tensor_of rot_x180 ] with (map tensor_of [ rot_x180 ]).
  rewrite rotation_matrix_to_angle_axis_fin. cbn [map].
  rewrite rq_rot_x180, aaR_x180. cbn [vec3_fin3 batch_rodrigues map].
  pose proof PI2_3_2 as P3. pose proof PI_4 as P4.
  set (al := norm3R (PI + 1e-8) (0 + 1e-8) (0 + 1e-8)).
  assert (Hal : PI < al < 2 * PI).
  { unfold al, norm3R. apply sqrt_lt_bounds; nra. }
  rewrite batch_rodrigues1_fin by (fold al; lra). fold al.
  set (a := cos (al * 0.5)). set (s := sin (al * 0.5)).
  assert (Ha : a < 0) by (apply cos_lt_0; lra).
  assert (Hs : 0 < s) by (apply sin_gt_0; lra).
  set (n := sqrt (a * a + s * (PI / al) * (s * (PI / al)) + s * (0 / al) * (s * (0 / al))
                  + s * (0 / al) * (s * (0 / al)))).
  assert (Hn : 0 < n) by (apply sqrt_lt_R0; nra).
  rewrite quat_to_rotmat1_fin by (fold n; lra). fold n.
  intros E. apply (f_equal (fun l => ix (hd [] l) 2 1)) in E.
  unfold qmat, rot_x180, tensor_of, ix, fin in E.
  cbn [hd nth r00 r01 r02 r10 r11 r12 r20 r21 r22] in E.
  injection E as E21.
  assert (Hb : 0 < s * (PI / al) / n).
  { apply Rdiv_lt_0_compat; [| exact Hn]. apply Rmult_lt_0_compat; [exact Hs |].
    apply Rdiv_lt_0_compat; lra. }
  assert (Hc : a / n < 0).
  { unfold Rdiv. assert (0 < / n) by (apply Rinv_0_lt_compat; exact Hn). nra. }
  replace (s * (0 / al) / n) with 0 in E21 by (unfold Rdiv; ring).
  nra.
Qed.

(** The matrix of a unit quaternion is a rotation. *)
Lemma qmat_rotation (w x y z : R) :
  w * w + x * x + y * y + z * z = 1 -> is_rotation (qmat w x y z).
Proof.
  intros H.
  assert (H2 : (w * w + x * x + y * y + z * z) * (w * w + x * x + y * y + z * z) = 1)
    by (rewrite H; ring).
  assert (H3 : (w * w + x * x + y * y + z * z) * (w * w + x * x + y * y + z * z)
               * (w * w + x * x + y * y + z * z) = 1)
    by (rewrite H; ring).
  split; unfold rdet, qmat; cbn [r00 r01 r02 r10 r11 r12 r20 r21 r22];
    first [ rewrite <- H2; ring | rewrite <- H3; ring | ring ].
Qed.

(** On the matrix of a unit quaternion with a large real part, the fourth
    branch gives the quaternion back. *)
Lemma rq_qmat_B3 (w x y z : R) :
  w * w + x * x + y * y + z * z = 1 ->
  0 < w ->
  branch_of (qmat w x y z) = B3 ->
  rq (qmat w x y z) = (w, x, y, z).
Proof.
  intros H Hw Hb. unfold rq. rewrite Hb.
  unfold qmat. cbn [cand_t cand_w cand_x cand_y cand_z r00 r01 r02 r10 r11 r12 r20 r21 r22].
  replace (1 + (w * w + x * x - y * y - z * z) + (w * w - x * x + y * y - z * z)
           + (w * w - x * x - y * y + z * z))
    with ((2 * w) * (2 * w)) by (rewrite <- H; ring).
  rewrite sqrt_square by lra. rewrite half_is_inv2.
  repeat f_equal; field; lra.
Qed.

Lemma sqrt_3_bounds : 1 < sqrt 3 < 2.
Proof.
  split.
  - rewrite <- sqrt_1 at 1. apply sqrt_lt_1_alt. lra.
  - rewrite <- (sqrt_square 2) by lra. apply sqrt_lt_1_alt. lra.
Qed.

Lemma half_singular_bounds : 0 < half_singular < 1e-8.
Proof. unfold half_singular. pose proof sqrt_3_bounds. lra. Qed.

Lemma half_singular_trig :
  0 < sin half_singular < 1e-8 /\ 0.9 < cos half_singular <= 1.
Proof.
  pose proof half_singular_bounds as Hh. pose proof PI2_3_2.
  assert (Hs : 0 < sin half_singular) by (apply sin_gt_0; lra).
  assert (Hs2 : sin half_singular < half_singular) by (apply sin_lt_x; lra).
  assert (Hc : 0 < cos half_singular) by (apply cos_gt_0; lra).
  pose proof (sin2_cos2 half_singular) as SC. unfold Rsqr in SC.
  pose proof (COS_bound half_singular).
  repeat split; try lra. nra.
Qed.

Lemma rot_singular_unit :
  cos half_singular * cos half_singular
  + - (sin half_singular / sqrt 3) * - (sin half_singular / sqrt 3)
  + - (sin half_singular / sqrt 3) * - (sin half_singular / sqrt 3)
  + - (sin half_singular / sqrt 3) * - (sin half_singular / sqrt 3) = 1.
Proof.
  pose proof (sin2_cos2 half_singular) as SC. unfold Rsqr in SC.
  pose proof sqrt_3_bounds as B3.
  assert (S3 : sqrt 3 * sqrt 3 = 3) by (apply sqrt_sqrt; lra).
  replace (- (sin half_singular / sqrt 3) * - (sin half_singular / sqrt 3))
    with (sin half_singular * sin half_singular / (sqrt 3 * sqrt 3)) by (field; lra).
  rewrite S3. lra.
Qed.

Lemma rot_singular_rotation : is_rotation rot_singular.
Proof. apply qmat_rotation. exact rot_singular_unit. Qed.

Lemma rq_rot_singular :
  rq rot_singular
  = (cos half_singular, - (sin half_singular / sqrt 3),
     - (sin half_singular / sqrt 3), - (sin half_singular / sqrt 3)).
Proof.
  pose proof half_singular_trig as ((Hs0 & Hs1) & (Hc0 & Hc1)).
  pose proof sqrt_3_bounds as B3.
  assert (Hx : Rabs (sin half_singular / sqrt 3) <= 1e-8).
  { apply Rabs_le. assert (0 < / sqrt 3 < 1).
    { split; [apply Rinv_0_lt_compat; lra |].
      rewrite <- Rinv_1. apply Rinv_lt_contravar; lra. }
    unfold Rdiv. split; nra. }
  apply Rabs_le_both in Hx.
  unfold rot_singular. apply rq_qmat_B3; [exact rot_singular_unit | lra |].
  unfold branch_of, qmat. cbn [r00 r01 r02 r10 r11 r12 r20 r21 r22].
  set (x := sin half_singular / sqrt 3) in *. set (c := cos half_singular) in *.
  destruct (Rlt_dec (c * c - - x * - x - - x * - x + - x * - x) 1e-6) as [N | _]; [nra |].
  destruct (Rlt_dec (c * c + - x * - x - - x * - x - - x * - x)
                    (- (c * c - - x * - x + - x * - x - - x * - x))) as [N | _]; [nra |].
  reflexivity.
Qed.

Lemma aaR_rot_singular :
  aaR (cos half_singular, - (sin half_singular / sqrt 3),
       - (sin half_singular / sqrt 3), - (sin half_singular / sqrt 3))
  = (- 1e-8, - 1e-8, - 1e-8).
Proof.
  pose proof half_singular_trig as ((Hs0 & Hs1) & (Hc0 & Hc1)).
  pose proof half_singular_bounds as Hh. pose proof PI2_3_2.
  pose proof sqrt_3_bounds as B3.
  assert (S3 : sqrt 3 * sqrt 3 = 3) by (apply sqrt_sqrt; lra).
  unfold aaR, kR. cbv zeta.
  set (s := sin half_singular) in *. set (c := cos half_singular) in *.
  replace (- (s / sqrt 3) * - (s / sqrt 3) + - (s / sqrt 3) * - (s / sqrt 3)
           + - (s / sqrt 3) * - (s / sqrt 3))
    with (s * s).
  2:{ replace (- (s / sqrt 3) * - (s / sqrt 3)) with (s * s / (sqrt 3 * sqrt 3)) by (field; lra).
      rewrite S3. field. }
  destruct (Rlt_dec 0 (s * s)) as [_ | N]; [| nra].
  rewrite sqrt_square by lra.
  unfold two_thetaR, Torch.atan2R.
  destruct (Rlt_dec c 0) as [N | _]; [lra |].
  destruct (Rlt_dec 0 c) as [_ | N]; [| lra].
  change (s / c) with (tan half_singular). rewrite atan_tan by lra.
  assert (E : 0 + - (s / sqrt 3) * (2 * half_singular / s) = - 1e-8).
  { unfold half_singular. field. lra. }
  rewrite E. reflexivity.
Qed.

(** A rotation whose axis-angle vector makes [batch_rodrigues] divide by
    zero. *)
Lemma rodrigues_singular_nan :
  batch_rodrigues (rotation_matrix_to_angle_axis [ tensor_of rot_singular ])
  = [ nan_matrix ].
Proof.
  change [ tensor_of rot_singular ] with (map tensor_of [ rot_singular ]).
  rewrite rotation_matrix_to_angle_axis_fin. cbn [map].
  rewrite rq_rot_singular, aaR_rot_singular. cbn [vec3_fin3 batch_rodrigues map].
  rewrite batch_rodrigues1_nan; [reflexivity |].
  unfold norm3R.
  replace ((- 1e-8 + 1e-8) * (- 1e-8 + 1e-8) + (- 1e-8 + 1e-8) * (- 1e-8 + 1e-8)
           + (- 1e-8 + 1e-8) * (- 1e-8 + 1e-8)) with 0 by lra.
  apply sqrt_0.
Qed.

(** The only unit quaternions whose axis-angle vector is
    [(-1e-8, -1e-8, -1e-8)] are the two of [rot_singular]. *)
Lemma singular_axis_angle (q : R * R * R * R) :
  norm_sq4 q = 1 ->
  aaR q = (- 1e-8, - 1e-8, - 1e-8) ->
  qmat4 q = rot_singular.
Proof.
  destruct q as [[[w x] y] z]. cbn [norm_sq4 aaR qmat4].
  intros Hq E.
  set (k := kR w x y z) in *.
  injection E as E1 E2 E3.
  assert (Hk : k <> 0) by (intros K; rewrite K in E1; lra).
  assert (Hy : y = x) by (apply Rmult_eq_reg_r with k; [lra | exact Hk]).
  assert (Hz : z = x) by (apply Rmult_eq_reg_r with k; [lra | exact Hk]).
  subst y z.
  assert (Hx : x <> 0) by (intros X; rewrite X in E1; lra).
  pose proof sqrt_3_bounds as B3.
  assert (S3 : sqrt 3 * sqrt 3 = 3) by (apply sqrt_sqrt; lra).
  assert (Hsig : 0 < x * x + x * x + x * x) by nra.
  assert (Hsn : sqrt (x * x + x * x + x * x) = sqrt 3 * Rabs x).
  { replace (x * x + x * x + x * x) with (3 * Rsqr x) by (unfold Rsqr; ring).
    rewrite sqrt_mult by (try lra; apply Rle_0_sqr).
    rewrite sqrt_Rsqr_abs. reflexivity. }
  assert (Hax : 0 < Rabs x) by (apply Rabs_pos_lt; exact Hx).
  set (sn := sqrt 3 * Rabs x) in *.
  assert (Hsn0 : 0 < sn) by (unfold sn; nra).
  assert (Hu : w * w + sn * sn = 1).
  { unfold sn. replace (sqrt 3 * Rabs x * (sqrt 3 * Rabs x))
      with (sqrt 3 * sqrt 3 * (Rabs x * Rabs x)) by ring.
    rewrite S3. fold (Rsqr (Rabs x)). rewrite <- Rsqr_abs. unfold Rsqr. lra. }
  assert (Ek : k = two_thetaR w sn / sn).
  { unfold k, kR. cbv zeta.
    destruct (Rlt_dec 0 (x * x + x * x + x * x)) as [_ | N]; [| contradiction].
    rewrite Hsn. reflexivity. }
  destruct (half_angle_cos_sin w sn Hsn0 Hu) as [Hphi Hcase].
  cbv zeta in Hphi, Hcase.
  set (phi := two_thetaR w sn / 2) in *.
  assert (Ek2 : k = 2 * phi / sn) by (rewrite Ek; unfold phi; field; lra).
  assert (Hksn : k * sn = 2 * phi) by (rewrite Ek2; field; lra).
  unfold rot_singular.
  destruct Hcase as [(Hw & Hp & Ec & Es) | (Hw & Hp & Ec & Es)].
  - (* the real part is not negative *)
    assert (Hkpos : 0 < k) by (rewrite Ek2; apply Rdiv_lt_0_compat; lra).
    assert (Hxn : x < 0) by nra.
    assert (Hab : Rabs x = - x) by (apply Rabs_left; exact Hxn).
    assert (Hphi_eq : phi = half_singular).
    { unfold half_singular. unfold sn in Hksn. rewrite Hab in Hksn. nra. }
    rewrite Hphi_eq in Ec, Es. rewrite Ec, Es. unfold sn. rewrite Hab.
    replace (- (sqrt 3 * - x / sqrt 3)) with x by (field; lra).
    reflexivity.
  - (* the real part is negative *)
    assert (Hkneg : k < 0).
    { rewrite Ek2. unfold Rdiv. assert (0 < / sn) by (apply Rinv_0_lt_compat; exact Hsn0). nra. }
    assert (Hxp : 0 < x) by nra.
    assert (Hab : Rabs x = x) by (apply Rabs_pos_eq; lra).
    assert (Hphi_eq : phi = - half_singular).
    { unfold half_singular. unfold sn in Hksn. rewrite Hab in Hksn. nra. }
    rewrite Hphi_eq, cos_neg in Ec. rewrite Hphi_eq, sin_neg in Es.
    assert (Es' : sin half_singular = sn) by lra.
    rewrite Ec, Es'. unfold sn. rewrite Hab.
    replace (- (sqrt 3 * x / sqrt 3)) with (- x) by (field; lra).
    rewrite <- (qmat_neg w x x x). reflexivity.
Qed.

(** ** The round trips *)

(** Claim C1, as amended.  For every batch [Rs] of proper rotations,
    matrix to quaternion to matrix gives [Rs] back exactly; and matrix to
    axis-angle to matrix gives finite matrices that are within 1e-4 of
    [Rs], entry by entry, provided that no rotation of the batch is
    [rot_singular], the one whose axis-angle vector
    [(-1e-8, -1e-8, -1e-8)] is turned into the zero vector by the [1e-8]
    that [batch_rodrigues] adds. *)
Theorem rotation_round_trips (Rs : list rmat) :
  Forall is_rotation Rs ->
  quat_to_rotmat (rotation_matrix_to_quaternion (map tensor_of Rs))
  = map tensor_of Rs
  /\ (Forall (fun m => m <> rot_singular) Rs ->
      exists Rs' : list rmat,
        batch_rodrigues (rotation_matrix_to_angle_axis (map tensor_of Rs))
        = map tensor_of Rs'
        /\ Forall2 (within 1e-4) Rs' Rs).
Proof.
  intros H. split.
  - unfold quat_to_rotmat, rotation_matrix_to_quaternion. rewrite !map_map.
    apply map_ext_in. intros m Hin. apply quat_round_trip1.
    rewrite Forall_forall in H. exact (H m Hin).
  - rewrite rotation_matrix_to_angle_axis_fin. unfold batch_rodrigues.
    induction H as [| m l Hm Hl IH]; intros Hne.
    + exists []. split; [reflexivity | constructor].
    + inversion Hne as [| ? ? Hm1 Hl1]; subst.
      destruct (IH Hl1) as (l' & El & Fl).
      destruct (rq_unit_qmat m Hm) as [U Q].
      assert (Haa : vec3_fin3 (aaR (rq m)) <> vec3_fin (- 1e-8) (- 1e-8) (- 1e-8)).
      { intros E. apply Hm1. rewrite <- Q. apply singular_axis_angle; [exact U |].
        destruct (aaR (rq m)) as [[a b] c]. cbn [vec3_fin3] in E.
        unfold vec3_fin, fin in E. injection E as -> -> ->. reflexivity. }
      destruct (rodrigues_close (rq m) U Haa) as (m' & Em & Wm).
      exists (m' :: l'). split.
      * cbn [map]. rewrite Em, El. reflexivity.
      * constructor; [rewrite <- Q; exact Wm | exact Fl].
Qed.

Lemma rot_x180_not_singular : rot_x180 <> rot_singular.
Proof.
  pose proof half_singular_trig as ((Hs0 & Hs1) & (Hc0 & Hc1)).
  pose proof sqrt_3_bounds as B3.
  intros E. apply (f_equal r11) in E.
  unfold rot_x180, rot_singular, qmat in E. cbn [r11] in E.
  set (x := sin half_singular / sqrt 3) in *. set (c := cos half_singular) in *.
  assert (Hx : 0 <= x <= 1e-8).
  { unfold x. assert (0 < / sqrt 3 < 1).
    { split; [apply Rinv_0_lt_compat; lra |].
      rewrite <- Rinv_1. apply Rinv_lt_contravar; lra. }
    unfold Rdiv. split; nra. }
  nra.
Qed.

Lemma nan_matrix_not_finite (m : rmat) : nan_matrix <> tensor_of m.
Proof. unfold nan_matrix, tensor_of, fin. discriminate. Qed.

(** Claim C1, counterexample.  Matrix to axis-angle to matrix gives a
    matrix of NaN for the proper rotation [rot_singular], and for the half
    turn [rot_x180] a matrix that is not the half turn, in exact
    arithmetic. *)
Lemma rotation_round_trips_counterexample :
  (is_rotation rot_singular
   /\ batch_rodrigues (rotation_matrix_to_angle_axis [ tensor_of rot_singular ])
      = [ nan_matrix ]
   /\ ~ (exists m : rmat, nan_matrix = tensor_of m /\ within 1e-4 m rot_singular))
  /\ (is_rotation rot_x180
      /\ batch_rodrigues (rotation_matrix_to_angle_axis [ tensor_of rot_x180 ])
         <> [ tensor_of rot_x180 ]).
Proof.
  split; [split; [| split] | split].
  - exact rot_singular_rotation.
  - exact rodrigues_singular_nan.
  - intros (m & E & _). exact (nan_matrix_not_finite m E).
  - exact rot_x180_rotation.
  - exact rodrigues_x180_inexact.
Qed.

Lemma rotation_round_trips_witness :
  quat_to_rotmat (rotation_matrix_to_quaternion (map tensor_of [ rot_x180 ]))
  = map tensor_of [ rot_x180 ]
  /\ exists Rs' : list rmat,
       batch_rodrigues (rotation_matrix_to_angle_axis (map tensor_of [ rot_x180 ]))
       = map tensor_of Rs'
       /\ Forall2 (within 1e-4) Rs' [ rot_x180 ].
Proof.
  destruct (rotation_round_trips [ rot_x180 ]) as [Hq Ha].
  - constructor; [exact rot_x180_rotation | constructor].
  - split; [exact Hq |]. apply Ha.
    constructor; [exact rot_x180_not_singular | constructor].
Defined.

(* ================================================================= *)
(** ** Translation from correspondences *)

Section Lists.
Context {A : Type}.

Lemma map_nth_seq (l : list A) (d : A) :
  map (fun j => nth j l d) (seq 0 (length l)) = l.
Proof.
  apply nth_ext with (d := d) (d' := d).
  - rewrite length_map, length_seq. reflexivity.
  - intros n Hn. rewrite length_map, length_seq in Hn.
    rewrite (nth_indep _ d (nth 0 l d)) by (rewrite length_map, length_seq; exact Hn).
    rewrite (map_nth (fun j => nth j l d) (seq 0 (length l)) 0%nat n).
    rewrite seq_nth by exact Hn. reflexivity.
Qed.
End Lists.

(** Columns read off one list give back its rows. *)
Lemma transpose_columns {X : Type} (l : list X) (g : list (X -> num)) :
  g <> [] ->
  transpose (map (fun h => map h l) g) = map (fun e => map (fun h => h e) g) l.
Proof.
  intros Hg. unfold transpose, ncols.
  destruct g as [| h0 g']; [contradiction |].
  cbn [map hd]. rewrite length_map.
  destruct l as [| d l']; [reflexivity |].
  set (l := d :: l').
  transitivity (map (fun e => map (fun h => h e) (h0 :: g'))
                  (map (fun j => nth j l d) (seq 0 (length l))));
    [| rewrite map_nth_seq; reflexivity].
  rewrite map_map. cbn [map].
  apply map_ext_in. intros j Hj. apply in_seq in Hj. cbn [Nat.add] in Hj.
  f_equal.
  - rewrite (nth_indep _ None (h0 d)) by (rewrite length_map; lia).
    apply map_nth.
  - rewrite map_map. apply map_ext. intros h.
    rewrite (nth_indep _ None (h d)) by (rewrite length_map; lia).
    apply map_nth.
Qed.

(** Rows built on one list give back its columns. *)
Lemma transpose_rows {X : Type} (l : list X) (g : list (X -> num)) :
  l <> [] ->
  transpose (map (fun e => map (fun h => h e) g) l) = map (fun h => map h l) g.
Proof.
  intros Hl. unfold transpose, ncols.
  destruct l as [| d l']; [contradiction |].
  cbn [map hd]. rewrite length_map.
  transitivity (map (fun h => map h (d :: l'))
                  (map (fun j => nth j g (fun _ => None)) (seq 0 (length g))));
    [| rewrite map_nth_seq; reflexivity].
  rewrite map_map. cbn [map].
  apply map_ext_in. intros j Hj. apply in_seq in Hj. cbn [Nat.add] in Hj.
  f_equal.
  - exact (map_nth (fun h : X -> num => h d) g (fun _ => None) j).
  - rewrite map_map. apply map_ext. intros e.
    exact (map_nth (fun h : X -> num => h e) g (fun _ => None) j).
Qed.

Lemma zip_with_map {X : Type} (f : num -> num -> num) (g h : X -> num) (l : list X) :
  Np.zip_with f (map g l) (map h l) = map (fun e => f (g e) (h e)) l.
Proof.
  unfold Np.zip_with. induction l as [| e l IH]; [reflexivity |].
  cbn [map combine fst snd]. f_equal. exact IH.
Qed.

Lemma tile_pair_map {X Y : Type} (a b : Y) (l : list X) :
  Np.tile [ a; b ] (length l) = concat (map (fun _ => [ a; b ]) l).
Proof.
  unfold Np.tile. induction l as [| e l IH]; [reflexivity |].
  cbn [length repeat concat map]. rewrite IH. reflexivity.
Qed.

Lemma concat_pairs_map {X Y Z : Type} (g h : X -> Y) (k : Y -> Z) (l : list X) :
  map k (concat (map (fun p => [ g p; h p ]) l))
  = concat (map (fun p => [ k (g p); k (h p) ]) l).
Proof.
  induction l as [| e l IH]; [reflexivity |].
  cbn [map concat app]. rewrite IH. reflexivity.
Qed.

Lemma sum_fin (l : list R) : Np.sum (map fin l) = fin (sumR l).
Proof.
  unfold Np.sum, sumR. induction l as [| a l IH]; [reflexivity |].
  cbn [map fold_right]. rewrite IH. reflexivity.
Qed.

Lemma dot_vv_fin {X : Type} (g h : X -> R) (l : list X) :
  Np.dot_vv (map (fun e => fin (g e)) l) (map (fun e => fin (h e)) l)
  = fin (sumR (map (fun e => g e * h e) l)).
Proof.
  unfold Np.dot_vv. rewrite zip_with_map.
  rewrite <- sum_fin, map_map. reflexivity.
Qed.

Lemma sumR_delta (F : nat -> R) (a : R) (i s n : nat) :
  (s <= i < s + n)%nat ->
  sumR (map (fun j => (if Nat.eqb i j then a else 0) * F j) (seq s n)) = a * F i.
Proof.
  revert s. induction n as [| n IH]; intros s Hi; [lia |].
  cbn [seq map sumR fold_right]. fold (sumR (map (fun j => (if Nat.eqb i j then a else 0) * F j) (seq (S s) n))).
  destruct (Nat.eqb_spec i s) as [-> | Hne].
  - assert (Z : sumR (map (fun j => (if Nat.eqb s j then a else 0) * F j) (seq (S s) n)) = 0).
    { clear. assert (G : forall l, (forall j, In j l -> s <> j) ->
                sumR (map (fun j => (if Nat.eqb s j then a else 0) * F j) l) = 0).
      { induction l as [| j l IHl]; intros Hl; [reflexivity |].
        cbn [map sumR fold_right]. fold (sumR (map (fun j => (if Nat.eqb s j then a else 0) * F j) l)).
        rewrite IHl by (intros; apply Hl; now right).
        destruct (Nat.eqb_spec s j) as [E | _]; [exfalso; apply (Hl j); [now left | exact E] |].
        ring. }
      apply G. intros j Hj. apply in_seq in Hj. lia. }
    rewrite Z. ring.
  - rewrite IH by lia. ring.
Qed.

(** A row of [np.diagflat(w)] picks one entry of a column and scales it. *)
Lemma diag_row_dot (es : list equation) (h : equation -> R) (d : equation) (i : nat) :
  (i < length es)%nat ->
  Np.dot_vv
    (map (fun j => if Nat.eqb i j then nth i (map (fun e => fin (ew e)) es) None else fin 0)
         (seq 0 (length es)))
    (map (fun e => fin (h e)) es)
  = fin (ew (nth i es d) * h (nth i es d)).
Proof.
  intros Hi.
  assert (Ew : nth i (map (fun e => fin (ew e)) es) None = fin (ew (nth i es d))).
  { rewrite (nth_indep _ None (fin (ew d))) by (rewrite length_map; exact Hi).
    exact (map_nth (fun e => fin (ew e)) es d i). }
  rewrite Ew.
  rewrite <- (map_nth_seq es d) at 2. rewrite map_map.
  replace (map (fun j => if Nat.eqb i j then fin (ew (nth i es d)) else fin 0) (seq 0 (length es)))
    with (map (fun j => fin (if Nat.eqb i j then ew (nth i es d) else 0)) (seq 0 (length es)))
    by (apply map_ext; intros j; destruct (Nat.eqb i j); reflexivity).
  rewrite (dot_vv_fin (fun j => if Nat.eqb i j then ew (nth i es d) else 0)
             (fun j => h (nth j es d)) (seq 0 (length es))).
  apply fin_eq. apply sumR_delta. lia.
Qed.

Lemma weight_rows (es : list equation) :
  Np.dot_mm (Np.diagflat (map (fun e => fin (ew e)) es))
    (map (fun e => [ fin (e0 e); fin (e1 e); fin (e2 e) ]) es)
  = map (fun e => [ fin (ew e * e0 e); fin (ew e * e1 e); fin (ew e * e2 e) ]) es.
Proof.
  destruct es as [| d es']; [reflexivity |]. set (es := d :: es').
  unfold Np.dot_mm, Np.diagflat. rewrite length_map.
  change (map (fun e => [ fin (e0 e); fin (e1 e); fin (e2 e) ]) es)
    with (map (fun e => map (fun h : equation -> num => h e)
                          [ (fun e => fin (e0 e)); (fun e => fin (e1 e));
                            (fun e => fin (e2 e)) ]) es).
  rewrite transpose_rows by discriminate. cbn [map].
  rewrite map_map.
  transitivity (map (fun e => [ fin (ew e * e0 e); fin (ew e * e1 e); fin (ew e * e2 e) ])
                  (map (fun j => nth j es d) (seq 0 (length es))));
    [| rewrite map_nth_seq; reflexivity].
  rewrite map_map. apply map_ext_in. intros i Hi. apply in_seq in Hi.
  rewrite !(diag_row_dot es _ d i) by lia. reflexivity.
Qed.

Lemma weight_vector (es : list equation) :
  Np.dot_mv (Np.diagflat (map (fun e => fin (ew e)) es))
    (map (fun e => fin (ec e)) es)
  = map (fun e => fin (ew e * ec e)) es.
Proof.
  destruct es as [| d es']; [reflexivity |]. set (es := d :: es').
  unfold Np.dot_mv, Np.diagflat. rewrite length_map, map_map.
  transitivity (map (fun e => fin (ew e * ec e))
                  (map (fun j => nth j es d) (seq 0 (length es))));
    [| rewrite map_nth_seq; reflexivity].
  rewrite map_map. apply map_ext_in. intros i Hi. apply in_seq in Hi.
  rewrite (diag_row_dot es ec d i) by lia. reflexivity.
Qed.

(** The normal equations of a list of weighted equations. *)
Lemma normal_of_rows (es : list equation) :
  es <> [] ->
  let Q := map (fun e => [ fin (ew e * e0 e); fin (ew e * e1 e); fin (ew e * e2 e) ]) es in
  let c := map (fun e => fin (ew e * ec e)) es in
  Np.dot_mm (transpose Q) Q
  = [ [ fin (normal_entry e0 e0 es); fin (normal_entry e0 e1 es); fin (normal_entry e0 e2 es) ];
      [ fin (normal_entry e1 e0 es); fin (normal_entry e1 e1 es); fin (normal_entry e1 e2 es) ];
      [ fin (normal_entry e2 e0 es); fin (normal_entry e2 e1 es); fin (normal_entry e2 e2 es) ] ]
  /\ Np.dot_mv (transpose Q) c
     = [ fin (normal_rhs e0 es); fin (normal_rhs e1 es); fin (normal_rhs e2 es) ].
Proof.
  intros Hne Q c.
  assert (T : transpose Q
              = [ map (fun e => fin (ew e * e0 e)) es; map (fun e => fin (ew e * e1 e)) es;
                  map (fun e => fin (ew e * e2 e)) es ]).
  { unfold Q.
    change (map (fun e => [ fin (ew e * e0 e); fin (ew e * e1 e); fin (ew e * e2 e) ]) es)
      with (map (fun e => map (fun h : equation -> num => h e)
                            [ (fun e => fin (ew e * e0 e)); (fun e => fin (ew e * e1 e));
                              (fun e => fin (ew e * e2 e)) ]) es).
    rewrite transpose_rows by exact Hne. reflexivity. }
  split.
  - unfold Np.dot_mm. rewrite T. cbn [map].
    rewrite !(dot_vv_fin (fun e => ew e * _ e) (fun e => ew e * _ e) es). reflexivity.
  - unfold Np.dot_mv. rewrite T. cbn [map]. unfold c.
    rewrite !(dot_vv_fin (fun e => ew e * _ e) (fun e => ew e * ec e) es). reflexivity.
Qed.

Lemma zip_with_pairs {X : Type} (f : num -> num -> num) (g1 h1 g2 h2 : X -> num)
    (l : list X) :
  Np.zip_with f (concat (map (fun j => [ g1 j; h1 j ]) l))
                (concat (map (fun j => [ g2 j; h2 j ]) l))
  = concat (map (fun j => [ f (g1 j) (g2 j); f (h1 j) (h2 j) ]) l).
Proof.
  unfold Np.zip_with. induction l as [| e l IH]; [reflexivity |].
  cbn [map concat app combine fst snd]. rewrite IH. reflexivity.
Qed.

Lemma doubled_column {X : Type} (g : X -> num) (l : list X) :
  concat (transpose [ map g l; map g l ]) = concat (map (fun j => [ g j; g j ]) l).
Proof.
  change [ map g l; map g l ] with (map (fun h : X -> num => map h l) [ g; g ]).
  rewrite transpose_columns by discriminate. reflexivity.
Qed.

Lemma equations_nonempty (f ox oy : R) (js : list corr) :
  js <> [] -> equations f ox oy js <> [].
Proof. destruct js; [contradiction | discriminate]. Qed.

Lemma normal_equations_fin (js : list corr) (f img0 img1 : R) :
  js <> [] ->
  Forall (fun j => 0 <= cC j) js ->
  let es := equations f (img1 / 2) (img0 / 2) js in
  normal_equations (joints3d js) (joints2d js) (confidences js) (fin f)
    (fin img0, fin img1)
  = ([ [ fin (normal_entry e0 e0 es); fin (normal_entry e0 e1 es); fin (normal_entry e0 e2 es) ];
       [ fin (normal_entry e1 e0 es); fin (normal_entry e1 e1 es); fin (normal_entry e1 e2 es) ];
       [ fin (normal_entry e2 e0 es); fin (normal_entry e2 e1 es); fin (normal_entry e2 e2 es) ] ],
     [ fin (normal_rhs e0 es); fin (normal_rhs e1 es); fin (normal_rhs e2 es) ]).
Proof.
  intros Hne Hc es.
  unfold normal_equations, joints3d, joints2d, confidences.
  cbn [fst snd]. rewrite length_map, !map_map. cbn [vx vy vz vec3_fin fst snd].
  rewrite !div_fin by lra.
  rewrite !doubled_column.
  rewrite !(tile_pair_map _ _ js).
  assert (Hw : map (fun j => [ Num.sqrt (fin (cC j)); Num.sqrt (fin (cC j)) ]) js
               = map (fun j => [ fin (sqrt (cC j)); fin (sqrt (cC j)) ]) js).
  { apply map_ext_in. intros j Hj. rewrite Forall_forall in Hc.
    rewrite sqrt_fin by (apply Hc; exact Hj). reflexivity. }
  rewrite Hw. clear Hw.
  rewrite !zip_with_pairs.
  set (ox := img1 / 2) in *. set (oy := img0 / 2) in *.
  change (concat (map (fun j => [ (fin f * fin 1)%num; (fin f * fin 0)%num ]) js))
    with (concat (map (fun j => [ fin (e0 (eqn_u f ox j)); fin (e0 (eqn_v f oy j)) ]) js)).
  change (concat (map (fun j => [ (fin f * fin 0)%num; (fin f * fin 1)%num ]) js))
    with (concat (map (fun j => [ fin (e1 (eqn_u f ox j)); fin (e1 (eqn_v f oy j)) ]) js)).
  change (concat (map (fun j => [ (fin ox - fin (cU j))%num; (fin oy - fin (cV j))%num ]) js))
    with (concat (map (fun j => [ fin (e2 (eqn_u f ox j)); fin (e2 (eqn_v f oy j)) ]) js)).
  change (concat (map (fun j => [ ((fin (cU j) - fin ox) * fin (cZ j) - fin f * fin (cX j))%num;
                                  ((fin (cV j) - fin oy) * fin (cZ j) - fin f * fin (cY j))%num ]) js))
    with (concat (map (fun j => [ fin (ec (eqn_u f ox j)); fin (ec (eqn_v f oy j)) ]) js)).
  change (concat (map (fun j => [ fin (sqrt (cC j)); fin (sqrt (cC j)) ]) js))
    with (concat (map (fun j => [ fin (ew (eqn_u f ox j)); fin (ew (eqn_v f oy j)) ]) js)).
  rewrite <- !(concat_pairs_map (eqn_u f ox) (eqn_v f oy) (fun e => fin (_ e)) js).
  fold (equations f ox oy js). fold es.
  change [ map (fun e => fin (e0 e)) es; map (fun e => fin (e1 e)) es;
           map (fun e => fin (e2 e)) es ]
    with (map (fun h : equation -> num => map h es)
              [ (fun e => fin (e0 e)); (fun e => fin (e1 e)); (fun e => fin (e2 e)) ]).
  rewrite transpose_columns by discriminate. cbn [map].
  rewrite weight_rows, weight_vector.
  destruct (normal_of_rows es (equations_nonempty f ox oy js Hne)) as [EA Eb].
  cbv zeta in EA, Eb. rewrite EA, Eb. reflexivity.
Qed.

Lemma sumR_linear (es : list equation) (F G H K : equation -> R) (x y z : R) :
  (forall e, In e es -> F e * x + G e * y + H e * z = K e) ->
  sumR (map F es) * x + sumR (map G es) * y + sumR (map H es) * z
  = sumR (map K es).
Proof.
  induction es as [| e es IH]; intros Hall.
  - cbn. ring.
  - cbn [map sumR fold_right].
    fold (sumR (map F es)) (sumR (map G es)) (sumR (map H es)) (sumR (map K es)).
    rewrite <- (IH (fun e' He' => Hall e' (or_intror He'))).
    rewrite <- (Hall e (or_introl eq_refl)). ring.
Qed.

(** When every equation holds at [(x, y, z)], so do the normal equations. *)
Lemma normal_equations_hold (es : list equation) (g : equation -> R) (x y z : R) :
  (forall e, In e es -> e0 e * x + e1 e * y + e2 e * z = ec e) ->
  normal_entry g e0 es * x + normal_entry g e1 es * y + normal_entry g e2 es * z
  = normal_rhs g es.
Proof.
  intros Hall. unfold normal_entry, normal_rhs.
  apply sumR_linear. intros e He. rewrite <- (Hall e He). ring.
Qed.

Lemma fin3_eq (a b c a' b' c' : R) :
  a = a' -> b = b' -> c = c' -> [ fin a; fin b; fin c ] = [ fin a'; fin b'; fin c' ].
Proof. intros -> -> ->. reflexivity. Qed.

Lemma fin2_eq (a b a' b' : R) :
  a = a' -> b = b' -> [ fin a; fin b ] = [ fin a'; fin b' ].
Proof. intros -> ->. reflexivity. Qed.

(** [np.linalg.solve] on a finite system that [x] solves. *)
Lemma linalg_solve_unique (a00 a01 a02 a10 a11 a12 a20 a21 a22 b0 b1 b2 x0 x1 x2 : R) :
  det3R a00 a01 a02 a10 a11 a12 a20 a21 a22 <> 0 ->
  a00 * x0 + a01 * x1 + a02 * x2 = b0 ->
  a10 * x0 + a11 * x1 + a12 * x2 = b1 ->
  a20 * x0 + a21 * x1 + a22 * x2 = b2 ->
  Np.linalg_solve
    [ [ fin a00; fin a01; fin a02 ]; [ fin a10; fin a11; fin a12 ];
      [ fin a20; fin a21; fin a22 ] ]
    [ fin b0; fin b1; fin b2 ]
  = Some [ fin x0; fin x1; fin x2 ].
Proof.
  intros Hd E0 E1 E2. unfold Np.linalg_solve.
  change (Np.det3 [ [ fin a00; fin a01; fin a02 ]; [ fin a10; fin a11; fin a12 ];
                    [ fin a20; fin a21; fin a22 ] ])
    with (Some (det3R a00 a01 a02 a10 a11 a12 a20 a21 a22)).
  cbv beta iota.
  destruct (Req_dec_T (det3R a00 a01 a02 a10 a11 a12 a20 a21 a22) 0) as [E | _];
    [contradiction |].
  change (Np.det3 (Np.replace_col _ 0 [ fin b0; fin b1; fin b2 ]))
    with (fin (det3R b0 a01 a02 b1 a11 a12 b2 a21 a22)).
  change (Np.det3 (Np.replace_col _ 1 [ fin b0; fin b1; fin b2 ]))
    with (fin (det3R a00 b0 a02 a10 b1 a12 a20 b2 a22)).
  change (Np.det3 (Np.replace_col _ 2 [ fin b0; fin b1; fin b2 ]))
    with (fin (det3R a00 a01 b0 a10 a11 b1 a20 a21 b2)).
  rewrite !div_fin by exact Hd.
  subst b0 b1 b2. unfold det3R in *.
  f_equal. apply fin3_eq; field; exact Hd.
Qed.

Lemma projection_of_joint (X Y Z tx ty tz f ox oy : R) :
  Z + tz <> 0 ->
  perspective_projection_point eye3 (vec3_fin tx ty tz)
    [ [ fin f; fin 0; fin ox ]; [ fin 0; fin f; fin oy ]; [ fin 0; fin 0; fin 1 ] ]
    false (vec3_fin X Y Z)
  = [ fin (f * (X + tx) / (Z + tz) + ox); fin (f * (Y + ty) / (Z + tz) + oy) ].
Proof.
  intros Hz. unfold perspective_projection_point.
  change (transform_point eye3 (vec3_fin tx ty tz) (vec3_fin X Y Z))
    with (vec3_fin (1 * X + 0 * Y + 0 * Z + tx) (0 * X + 1 * Y + 0 * Z + ty)
                   (0 * X + 0 * Y + 1 * Z + tz)).
  assert (Hz' : 0 * X + 0 * Y + 1 * Z + tz <> 0) by (intros E; apply Hz; lra).
  unfold vec3_fin, vec3_map. cbn [vx vy vz].
  rewrite !div_fin by exact Hz'.
  unfold mat_vec3, ix. cbn [nth vx vy vz].
  cbn [Num.add Num.mul Num.lift2 fin].
  apply fin2_eq; field; repeat split; assumption.
Qed.

Lemma exact_corr_equations (f ox oy tx ty tz : R) (pts : list (R * R * R)) :
  Forall (depth_ok tz) pts ->
  forall e, In e (equations f ox oy (map (exact_corr f ox oy tx ty tz) pts)) ->
            e0 e * tx + e1 e * ty + e2 e * tz = ec e.
Proof.
  intros Hd e He. unfold equations in He.
  apply in_concat in He as (l & Hl & Hel).
  apply in_map_iff in Hl as (j & <- & Hj).
  apply in_map_iff in Hj as (p & <- & Hp).
  rewrite Forall_forall in Hd. specialize (Hd p Hp).
  destruct p as [[X Y] Z]. unfold depth_ok in Hd. cbn [snd] in Hd.
  destruct Hel as [<- | [<- | []]];
    cbn [exact_corr eqn_u eqn_v e0 e1 e2 ec cX cY cZ cU cV]; field; exact Hd.
Qed.

(** The tensors of the recovery property are those of exact
    correspondences. *)
Lemma exact_inputs (pts : list (R * R * R)) (tx ty tz f img0 img1 : R) :
  Forall (depth_ok tz) pts ->
  let js := map (exact_corr f (img1 / 2) (img0 / 2) tx ty tz) pts in
  map vec3_fin3 pts = joints3d js
  /\ exact_observations pts tx ty tz f img0 img1 = joints2d js
  /\ map (fun _ => fin 1) pts = confidences js
  /\ Forall (fun j => 0 <= cC j) js.
Proof.
  intros Hd js.
  repeat split.
  - unfold joints3d, js. rewrite map_map. apply map_ext.
    intros [[X Y] Z]. reflexivity.
  - unfold exact_observations, perspective_projection.
    cbn [length seq map nth intrinsics_at bcast_at fst snd].
    unfold joints2d, js. rewrite !map_map. apply map_ext_in.
    intros [[X Y] Z] Hp. rewrite Forall_forall in Hd. specialize (Hd _ Hp).
    unfold depth_ok in Hd. cbn [snd] in Hd.
    cbn [vec3_fin3].
    rewrite projection_of_joint by exact Hd. reflexivity.
  - unfold confidences, js. rewrite map_map. apply map_ext.
    intros [[X Y] Z]. reflexivity.
  - unfold js. apply Forall_forall. intros j Hj.
    apply in_map_iff in Hj as ([[X Y] Z] & <- & _). cbn. lra.
Qed.

Lemma normal_equations_exact (pts : list (R * R * R)) (tx ty tz f img0 img1 : R) :
  pts <> [] ->
  Forall (depth_ok tz) pts ->
  let es := equations f (img1 / 2) (img0 / 2)
              (map (exact_corr f (img1 / 2) (img0 / 2) tx ty tz) pts) in
  normal_equations (map vec3_fin3 pts)
    (exact_observations pts tx ty tz f img0 img1) (map (fun _ => fin 1) pts)
    (fin f) (fin img0, fin img1)
  = ([ [ fin (normal_entry e0 e0 es); fin (normal_entry e0 e1 es);
         fin (normal_entry e0 e2 es) ];
       [ fin (normal_entry e1 e0 es); fin (normal_entry e1 e1 es);
         fin (normal_entry e1 e2 es) ];
       [ fin (normal_entry e2 e0 es); fin (normal_entry e2 e1 es);
         fin (normal_entry e2 e2 es) ] ],
     [ fin (normal_rhs e0 es); fin (normal_rhs e1 es); fin (normal_rhs e2 es) ]).
Proof.
  intros Hne Hd es.
  destruct (exact_inputs pts tx ty tz f img0 img1 Hd) as (ES & EJ & EC & Hconf).
  cbv zeta in ES, EJ, EC, Hconf.
  rewrite EJ, EC, ES.
  apply normal_equations_fin; [| exact Hconf].
  destruct pts; [contradiction | discriminate].
Qed.

(** When the matrix [A] of the normal equations is not singular, the
    translation comes back. *)
Lemma estimate_translation_nonsingular
    (pts : list (R * R * R)) (tx ty tz f img0 img1 : R) :
  pts <> [] ->
  Forall (depth_ok tz) pts ->
  Np.det3
    (fst (normal_equations (map vec3_fin3 pts)
            (exact_observations pts tx ty tz f img0 img1)
            (map (fun _ => fin 1) pts) (fin f) (fin img0, fin img1)))
  <> fin 0 ->
  estimate_translation_np (map vec3_fin3 pts)
    (exact_observations pts tx ty tz f img0 img1) (map (fun _ => fin 1) pts)
    (fin f) (fin img0, fin img1)
  = Some [ fin tx; fin ty; fin tz ].
Proof.
  intros Hne Hd.
  unfold estimate_translation_np.
  pose proof (normal_equations_exact pts tx ty tz f img0 img1 Hne Hd) as EN.
  cbv zeta in EN. rewrite EN. cbn [fst snd]. intros Hdet.
  set (es := equations _ _ _ _) in *.
  pose proof (exact_corr_equations f (img1 / 2) (img0 / 2) tx ty tz pts Hd) as Heq.
  fold es in Heq.
  apply linalg_solve_unique;
    [| apply normal_equations_hold; exact Heq ..].
  intros E. apply Hdet.
  change (Np.det3 _) with (fin (det3R (normal_entry e0 e0 es) (normal_entry e0 e1 es)
    (normal_entry e0 e2 es) (normal_entry e1 e0 es) (normal_entry e1 e1 es)
    (normal_entry e1 e2 es) (normal_entry e2 e0 es) (normal_entry e2 e1 es)
    (normal_entry e2 e2 es))).
  rewrite E. reflexivity.
Qed.

(** *** The normal matrix is not singular *)

Lemma sumR_cons (x : R) (l : list R) : sumR (x :: l) = x + sumR l.
Proof. reflexivity. Qed.

Lemma sumR_equations (F : equation -> R) (f ox oy : R) (js : list corr) :
  sumR (map F (equations f ox oy js))
  = sumR (map (fun j => F (eqn_u f ox j) + F (eqn_v f oy j)) js).
Proof.
  unfold equations. induction js as [| j js IH]; [reflexivity |].
  cbn [map concat app]. rewrite !sumR_cons, IH. ring.
Qed.

Lemma sumR_sq_diff (x : R) (l : list R) :
  sumR (map (fun y => (x - y) * (x - y)) l)
  = sumR (map (fun _ => 1) l) * (x * x) - 2 * x * sumR l
    + sumR (map (fun y => y * y) l).
Proof.
  induction l as [| y l IH]; cbn [map]; [cbn; ring |].
  rewrite !sumR_cons, IH. ring.
Qed.

Lemma spread_cons (x : R) (l : list R) :
  spread (x :: l) = spread l + sumR (map (fun y => (x - y) * (x - y)) l).
Proof.
  rewrite sumR_sq_diff. unfold spread. cbn [map]. rewrite !sumR_cons. ring.
Qed.

Lemma sumR_sq_diff_nonneg (x : R) (l : list R) :
  0 <= sumR (map (fun y => (x - y) * (x - y)) l).
Proof.
  induction l as [| y l IH]; cbn [map]; [cbn; lra |].
  rewrite sumR_cons.
  pose proof (Rle_0_sqr (x - y)) as Q. unfold Rsqr in Q. lra.
Qed.

Lemma sumR_sq_diff_pos (x b : R) (l : list R) :
  In b l -> x <> b -> 0 < sumR (map (fun y => (x - y) * (x - y)) l).
Proof.
  induction l as [| y l IH]; intros Hin Hne; [contradiction |].
  cbn [map]. rewrite sumR_cons.
  pose proof (sumR_sq_diff_nonneg x l) as Hl.
  pose proof (Rle_0_sqr (x - y)) as Q. unfold Rsqr in Q.
  destruct Hin as [-> | Hin].
  - assert (0 < (x - b) * (x - b)) by nra. lra.
  - specialize (IH Hin Hne). lra.
Qed.

Lemma spread_nonneg (l : list R) : 0 <= spread l.
Proof.
  induction l as [| x l IH].
  - unfold spread. cbn. lra.
  - rewrite spread_cons. pose proof (sumR_sq_diff_nonneg x l). lra.
Qed.

(** The spread of a list with two different members is positive. *)
Lemma spread_pos (l : list R) (a b : R) :
  In a l -> In b l -> a <> b -> 0 < spread l.
Proof.
  induction l as [| x l IH]; intros Ha Hb Hne; [contradiction |].
  rewrite spread_cons.
  pose proof (spread_nonneg l) as Hs.
  pose proof (sumR_sq_diff_nonneg x l) as Hd.
  destruct Ha as [-> | Ha], Hb as [-> | Hb].
  - contradiction.
  - pose proof (sumR_sq_diff_pos a b l Hb Hne). lra.
  - assert (Hne' : b <> a) by (intros E; apply Hne; symmetry; exact E).
    pose proof (sumR_sq_diff_pos b a l Ha Hne'). lra.
  - specialize (IH Ha Hb Hne). lra.
Qed.

(** The entries of the normal matrix when every confidence is one. *)
Lemma normal_entries_unit (f ox oy : R) (js : list corr) :
  Forall (fun j => cC j = 1) js ->
  let es := equations f ox oy js in
  let N := sumR (map (fun _ => 1) js) in
  let A := map (fun j => ox - cU j) js in
  let B := map (fun j => oy - cV j) js in
  normal_entry e0 e0 es = N * (f * f)
  /\ normal_entry e0 e1 es = 0
  /\ normal_entry e0 e2 es = f * sumR A
  /\ normal_entry e1 e0 es = 0
  /\ normal_entry e1 e1 es = N * (f * f)
  /\ normal_entry e1 e2 es = f * sumR B
  /\ normal_entry e2 e0 es = f * sumR A
  /\ normal_entry e2 e1 es = f * sumR B
  /\ normal_entry e2 e2 es
     = sumR (map (fun x => x * x) A) + sumR (map (fun x => x * x) B).
Proof.
  intros Hc. cbv zeta. unfold normal_entry. rewrite !sumR_equations.
  induction Hc as [| j js Hj Hjs IH].
  - cbn. repeat split; ring.
  - destruct IH as (I00 & I01 & I02 & I10 & I11 & I12 & I20 & I21 & I22).
    cbn [map]. rewrite !sumR_cons.
    cbn [eqn_u eqn_v e0 e1 e2 ew] in *.
    rewrite Hj, sqrt_1.
    rewrite I00, I01, I02, I10, I11, I12, I20, I21, I22.
    repeat split; ring.
Qed.

Lemma sumR_ones_pos {X : Type} (l : list X) :
  l <> [] -> 1 <= sumR (map (fun _ => 1) l).
Proof.
  intros Hne. destruct l as [| x l]; [contradiction |].
  cbn [map]. rewrite sumR_cons.
  assert (0 <= sumR (map (fun _ : X => 1) l)).
  { clear Hne. induction l as [| y l IH]; cbn [map]; [cbn; lra | rewrite sumR_cons; lra]. }
  lra.
Qed.

(** The determinant of the normal matrix, when every confidence is one. *)
Lemma normal_det_unit (f ox oy : R) (js : list corr) :
  Forall (fun j => cC j = 1) js ->
  let es := equations f ox oy js in
  det3R (normal_entry e0 e0 es) (normal_entry e0 e1 es) (normal_entry e0 e2 es)
        (normal_entry e1 e0 es) (normal_entry e1 e1 es) (normal_entry e1 e2 es)
        (normal_entry e2 e0 es) (normal_entry e2 e1 es) (normal_entry e2 e2 es)
  = sumR (map (fun _ => 1) js) * (f * f * (f * f))
    * (spread (map (fun j => ox - cU j) js) + spread (map (fun j => oy - cV j) js)).
Proof.
  intros Hc es.
  destruct (normal_entries_unit f ox oy js Hc)
    as (I00 & I01 & I02 & I10 & I11 & I12 & I20 & I21 & I22).
  fold es in I00, I01, I02, I10, I11, I12, I20, I21, I22.
  rewrite I00, I01, I02, I10, I11, I12, I20, I21, I22.
  unfold det3R, spread. rewrite !map_map. ring.
Qed.

(** Joints that are seen at the same place are on one line with the
    centre of the camera. *)
Lemma same_projection_collinear (f ox oy tx ty tz : R) (p q r : R * R * R) :
  f <> 0 -> depth_ok tz p -> depth_ok tz q -> depth_ok tz r ->
  cU (exact_corr f ox oy tx ty tz p) = cU (exact_corr f ox oy tx ty tz q) ->
  cV (exact_corr f ox oy tx ty tz p) = cV (exact_corr f ox oy tx ty tz q) ->
  cU (exact_corr f ox oy tx ty tz p) = cU (exact_corr f ox oy tx ty tz r) ->
  cV (exact_corr f ox oy tx ty tz p) = cV (exact_corr f ox oy tx ty tz r) ->
  collinear3 p q r.
Proof.
  destruct p as [[x0 y0] z0], q as [[x1 y1] z1], r as [[x2 y2] z2].
  unfold depth_ok. cbn [snd exact_corr cU cV collinear3].
  intros Hf H0 H1 H2 U1 V1 U2 V2.
  set (al := (x0 + tx) / (z0 + tz)) in *.
  set (be := (y0 + ty) / (z0 + tz)) in *.
  assert (D : forall x z, z + tz <> 0 ->
                f * (x0 + tx) / (z0 + tz) + ox = f * (x + tx) / (z + tz) + ox ->
                x + tx = al * (z + tz)).
  { intros x z Hz E. unfold al.
    assert (E' : (x0 + tx) / (z0 + tz) = (x + tx) / (z + tz)).
    { apply Rmult_eq_reg_l with f; [| exact Hf]. unfold Rdiv in *. lra. }
    rewrite E'. field. exact Hz. }
  assert (Dy : forall y z, z + tz <> 0 ->
                f * (y0 + ty) / (z0 + tz) + oy = f * (y + ty) / (z + tz) + oy ->
                y + ty = be * (z + tz)).
  { intros y z Hz E. unfold be.
    assert (E' : (y0 + ty) / (z0 + tz) = (y + ty) / (z + tz)).
    { apply Rmult_eq_reg_l with f; [| exact Hf]. unfold Rdiv in *. lra. }
    rewrite E'. field. exact Hz. }
  pose proof (D x0 z0 H0 eq_refl) as X0. pose proof (Dy y0 z0 H0 eq_refl) as Y0.
  pose proof (D x1 z1 H1 U1) as X1. pose proof (Dy y1 z1 H1 V1) as Y1.
  pose proof (D x2 z2 H2 U2) as X2. pose proof (Dy y2 z2 H2 V2) as Y2.
  assert (Ex1 : x1 - x0 = al * (z1 - z0)) by lra.
  assert (Ex2 : x2 - x0 = al * (z2 - z0)) by lra.
  assert (Ey1 : y1 - y0 = be * (z1 - z0)) by lra.
  assert (Ey2 : y2 - y0 = be * (z2 - z0)) by lra.
  rewrite Ex1, Ex2, Ey1, Ey2. repeat split; ring.
Qed.

Lemma exact_corr_confidence (f ox oy tx ty tz : R) (pts : list (R * R * R)) :
  Forall (fun j => cC j = 1) (map (exact_corr f ox oy tx ty tz) pts).
Proof.
  apply Forall_forall. intros j Hj.
  apply in_map_iff in Hj as ([[X Y] Z] & <- & _). reflexivity.
Qed.

(** Joints that are not on one line are not all seen at the same place. *)
Lemma non_collinear_spread (f ox oy tx ty tz : R) (pts : list (R * R * R)) :
  f <> 0 -> Forall (depth_ok tz) pts -> non_collinear pts ->
  let js := map (exact_corr f ox oy tx ty tz) pts in
  0 < spread (map (fun j => ox - cU j) js) + spread (map (fun j => oy - cV j) js).
Proof.
  intros Hf Hd (p & q & r & Hp & Hq & Hr & Hn) js.
  pose proof (spread_nonneg (map (fun j => ox - cU j) js)) as SA.
  pose proof (spread_nonneg (map (fun j => oy - cV j) js)) as SB.
  rewrite Forall_forall in Hd.
  set (c := exact_corr f ox oy tx ty tz).
  assert (InA : forall s, In s pts -> In (ox - cU (c s)) (map (fun j => ox - cU j) js)).
  { intros s Hs. unfold js. rewrite map_map. apply in_map_iff. exists s. split; [reflexivity | exact Hs]. }
  assert (InB : forall s, In s pts -> In (oy - cV (c s)) (map (fun j => oy - cV j) js)).
  { intros s Hs. unfold js. rewrite map_map. apply in_map_iff. exists s. split; [reflexivity | exact Hs]. }
  assert (PA : forall s, In s pts -> cU (c p) <> cU (c s) ->
                 0 < spread (map (fun j => ox - cU j) js)).
  { intros s Hs Hne. apply (spread_pos _ (ox - cU (c p)) (ox - cU (c s)));
      [apply InA; exact Hp | apply InA; exact Hs | lra]. }
  assert (PB : forall s, In s pts -> cV (c p) <> cV (c s) ->
                 0 < spread (map (fun j => oy - cV j) js)).
  { intros s Hs Hne. apply (spread_pos _ (oy - cV (c p)) (oy - cV (c s)));
      [apply InB; exact Hp | apply InB; exact Hs | lra]. }
  destruct (Req_dec_T (cU (c p)) (cU (c q))) as [U1 | U1];
    [| specialize (PA q Hq U1); lra].
  destruct (Req_dec_T (cV (c p)) (cV (c q))) as [V1 | V1];
    [| specialize (PB q Hq V1); lra].
  destruct (Req_dec_T (cU (c p)) (cU (c r))) as [U2 | U2];
    [| specialize (PA r Hr U2); lra].
  destruct (Req_dec_T (cV (c p)) (cV (c r))) as [V2 | V2];
    [| specialize (PB r Hr V2); lra].
  exfalso. apply Hn.
  exact (same_projection_collinear f ox oy tx ty tz p q r Hf (Hd p Hp) (Hd q Hq)
           (Hd r Hr) U1 V1 U2 V2).
Qed.

(** The normal matrix of exact observations of joints that are not on one
    line is not singular. *)
Lemma normal_matrix_nonsingular (pts : list (R * R * R)) (tx ty tz f img0 img1 : R) :
  f <> 0 -> Forall (depth_ok tz) pts -> non_collinear pts ->
  exists d : R,
    Np.det3
      (fst (normal_equations (map vec3_fin3 pts)
              (exact_observations pts tx ty tz f img0 img1)
              (map (fun _ => fin 1) pts) (fin f) (fin img0, fin img1)))
    = fin d
    /\ d <> 0.
Proof.
  intros Hf Hd Hn.
  assert (Hne : pts <> []).
  { destruct Hn as (p & _ & _ & Hp & _). intros E. rewrite E in Hp. exact Hp. }
  pose proof (normal_equations_exact pts tx ty tz f img0 img1 Hne Hd) as EN.
  cbv zeta in EN. rewrite EN. cbn [fst].
  set (ox := img1 / 2) in *. set (oy := img0 / 2) in *.
  set (js := map (exact_corr f ox oy tx ty tz) pts).
  set (es := equations f ox oy js).
  exists (det3R (normal_entry e0 e0 es) (normal_entry e0 e1 es)
    (normal_entry e0 e2 es) (normal_entry e1 e0 es) (normal_entry e1 e1 es)
    (normal_entry e1 e2 es) (normal_entry e2 e0 es) (normal_entry e2 e1 es)
    (normal_entry e2 e2 es)).
  split; [reflexivity |].
  unfold es. rewrite (normal_det_unit f ox oy js (exact_corr_confidence _ _ _ _ _ _ pts)).
  pose proof (non_collinear_spread f ox oy tx ty tz pts Hf Hd Hn) as Hs.
  cbv zeta in Hs. fold js in Hs.
  assert (HN : 1 <= sumR (map (fun _ => 1) js)).
  { apply sumR_ones_pos. unfold js. destruct pts; [contradiction | discriminate]. }
  assert (Hf2 : 0 < f * f) by nra.
  assert (Hf4 : 0 < f * f * (f * f)) by nra.
  apply Rmult_integral_contrapositive_currified;
    [apply Rmult_integral_contrapositive_currified |]; lra.
Qed.

(** Claim C4.  For joints [pts] that are not all on one line (six of them
    or any other number), a translation [(tx, ty, tz)] that leaves every
    joint at a nonzero depth, a focal length that is not zero and an image
    size: when the observations are the projections that
    [perspective_projection] itself computes with the identity rotation and
    every confidence is one, the matrix [A] of the normal equations is not
    singular, and [estimate_translation_np] returns exactly that
    translation. *)
Theorem estimate_translation_recovers
    (pts : list (R * R * R)) (tx ty tz f img0 img1 : R) :
  f <> 0 ->
  Forall (depth_ok tz) pts ->
  non_collinear pts ->
  (exists d : R,
     Np.det3
       (fst (normal_equations (map vec3_fin3 pts)
               (exact_observations pts tx ty tz f img0 img1)
               (map (fun _ => fin 1) pts) (fin f) (fin img0, fin img1)))
     = fin d
     /\ d <> 0)
  /\ estimate_translation_np (map vec3_fin3 pts)
       (exact_observations pts tx ty tz f img0 img1) (map (fun _ => fin 1) pts)
       (fin f) (fin img0, fin img1)
     = Some [ fin tx; fin ty; fin tz ].
Proof.
  intros Hf Hd Hn.
  destruct (normal_matrix_nonsingular pts tx ty tz f img0 img1 Hf Hd Hn)
    as (d & Ed & Hd0).
  split; [exists d; split; assumption |].
  apply estimate_translation_nonsingular.
  - destruct Hn as (p & _ & _ & Hp & _). intros E. rewrite E in Hp. exact Hp.
  - exact Hd.
  - rewrite Ed. intros E. injection E as E. exact (Hd0 E).
Qed.

Lemma six_joints_depth : Forall (depth_ok 1) six_joints.
Proof. unfold six_joints, depth_ok. repeat constructor; cbn [snd]; lra. Qed.

Lemma six_joints_non_collinear : non_collinear six_joints.
Proof.
  exists (0, 0, 0), (1, 0, 0), (0, 1, 0).
  unfold six_joints. cbn [In collinear3].
  repeat split; auto. intros (_ & _ & H). lra.
Qed.

(** Six joints that are not on one line, the translation [(0, 0, 1)], the
    focal length one and the centre at the origin. *)
Lemma estimate_translation_recovers_witness :
  (exists d : R,
     Np.det3
       (fst (normal_equations (map vec3_fin3 six_joints)
               (exact_observations six_joints 0 0 1 1 0 0)
               (map (fun _ => fin 1) six_joints) (fin 1) (fin 0, fin 0)))
     = fin d
     /\ d <> 0)
  /\ estimate_translation_np (map vec3_fin3 six_joints)
       (exact_observations six_joints 0 0 1 1 0 0)
       (map (fun _ => fin 1) six_joints) (fin 1) (fin 0, fin 0)
     = Some [ fin 0; fin 0; fin 1 ].
Proof.
  apply (estimate_translation_recovers six_joints 0 0 1 1 0 0).
  - lra.
  - exact six_joints_depth.
  - exact six_joints_non_collinear.
Defined.

(* ================================================================= *)
(** ** Twist about an axis *)

Lemma sqrt_four_sq (a : R) : sqrt (2 * a * (2 * a)) = 2 * Rabs a.
Proof.
  fold (Rsqr (2 * a)). rewrite sqrt_Rsqr_abs, Rabs_mult, (Rabs_pos_eq 2) by lra.
  reflexivity.
Qed.

Lemma sign_scale (a b : R) :
  a <> 0 -> exists e : R, (e = 1 \/ e = - 1) /\ a / Rabs a = e.
Proof.
  intros Ha. destruct (Rle_or_lt 0 a) as [P | N].
  - exists 1. split; [now left |]. rewrite Rabs_pos_eq by exact P. field. exact Ha.
  - exists (- 1). split; [now right |]. rewrite Rabs_left by exact N. field. exact Ha.
Qed.

Lemma tuple4_eq (a b c d a' b' c' d' : R) :
  a = a' -> b = b' -> c = c' -> d = d' -> (a, b, c, d) = (a', b', c', d').
Proof. intros -> -> -> ->. reflexivity. Qed.

(** On the matrix of a unit quaternion, [rotation_matrix_to_quaternion]
    gives the quaternion back up to its sign. *)
Lemma rq_qmat_sign (w x y z : R) :
  w * w + x * x + y * y + z * z = 1 ->
  exists e : R, (e = 1 \/ e = - 1)
    /\ rq (qmat w x y z) = (e * w, e * x, e * y, e * z).
Proof.
  intros H. pose proof (branch_t_pos (qmat w x y z)) as Ht.
  unfold rq. rewrite half_is_inv2.
  destruct (branch_of (qmat w x y z));
    unfold qmat in *;
    cbn [cand_t cand_w cand_x cand_y cand_z r00 r01 r02 r10 r11 r12 r20 r21 r22] in *.
  - (* x *)
    assert (T : 1 + (w * w + x * x - y * y - z * z) - (w * w - x * x + y * y - z * z)
                - (w * w - x * x - y * y + z * z) = 2 * x * (2 * x)) by (rewrite <- H; ring).
    rewrite T in *. rewrite sqrt_four_sq.
    assert (Hx : x <> 0) by (intros E; rewrite E in Ht; lra).
    destruct (sign_scale x x Hx) as (e & He & E). exists e. split; [exact He |].
    assert (Ha : Rabs x <> 0) by (apply Rabs_no_R0; exact Hx).
    rewrite <- E. apply tuple4_eq; field; exact Ha.
  - (* y *)
    assert (T : 1 - (w * w + x * x - y * y - z * z) + (w * w - x * x + y * y - z * z)
                - (w * w - x * x - y * y + z * z) = 2 * y * (2 * y)) by (rewrite <- H; ring).
    rewrite T in *. rewrite sqrt_four_sq.
    assert (Hx : y <> 0) by (intros E; rewrite E in Ht; lra).
    destruct (sign_scale y y Hx) as (e & He & E). exists e. split; [exact He |].
    assert (Ha : Rabs y <> 0) by (apply Rabs_no_R0; exact Hx).
    rewrite <- E. apply tuple4_eq; field; exact Ha.
  - (* z *)
    assert (T : 1 - (w * w + x * x - y * y - z * z) - (w * w - x * x + y * y - z * z)
                + (w * w - x * x - y * y + z * z) = 2 * z * (2 * z)) by (rewrite <- H; ring).
    rewrite T in *. rewrite sqrt_four_sq.
    assert (Hx : z <> 0) by (intros E; rewrite E in Ht; lra).
    destruct (sign_scale z z Hx) as (e & He & E). exists e. split; [exact He |].
    assert (Ha : Rabs z <> 0) by (apply Rabs_no_R0; exact Hx).
    rewrite <- E. apply tuple4_eq; field; exact Ha.
  - (* w *)
    assert (T : 1 + (w * w + x * x - y * y - z * z) + (w * w - x * x + y * y - z * z)
                + (w * w - x * x - y * y + z * z) = 2 * w * (2 * w)) by (rewrite <- H; ring).
    rewrite T in *. rewrite sqrt_four_sq.
    assert (Hx : w <> 0) by (intros E; rewrite E in Ht; lra).
    destruct (sign_scale w w Hx) as (e & He & E). exists e. split; [exact He |].
    assert (Ha : Rabs w <> 0) by (apply Rabs_no_R0; exact Hx).
    rewrite <- E. apply tuple4_eq; field; exact Ha.
Qed.

Lemma twist_axis_norm_pos (ax ay az : R) : 0 < norm3R ax ay az + 1e-9.
Proof. pose proof (norm3R_nonneg ax ay az). lra. Qed.

Lemma compute_twist_rotation1_fin (m : rmat) (a : R * R * R) :
  compute_twist_rotation1 (tensor_of m) (vec3_fin3 a)
  = (quaternion_to_rotation_matrix1
       (quat_fin4 (twist_quatR (rq m) (twist_axisR a))),
     (fin (sum3 (aaR (twist_quatR (rq m) (twist_axisR a))))
      / fin (sum3 (twist_axisR a)))%num).
Proof.
  destruct a as [[ax ay] az]. cbn [vec3_fin3 twist_axisR].
  unfold compute_twist_rotation1.
  rewrite rotation_matrix_to_quaternion1_rq.
  rewrite norm3_fin. fold (norm3R ax ay az).
  change (fin (norm3R ax ay az) + fin 1e-9)%num with (fin (norm3R ax ay az + 1e-9)).
  pose proof (twist_axis_norm_pos ax ay az) as Hn.
  set (n := norm3R ax ay az + 1e-9) in *.
  unfold vec3_fin, vec3_map. cbn [vx vy vz].
  rewrite !div_fin by lra.
  destruct (rq m) as [[[w x] y] z]. cbn [quat_fin4 quat_fin qw qx qy qz twist_quatR].
  unfold Torch.dot3. cbn [vx vy vz].
  cbn [Num.add Num.mul Num.lift2 fin].
  set (d := ax / n * x + ay / n * y + az / n * z).
  change (Q4 (fin w) (Some (d * (ax / n))) (Some (d * (ay / n))) (Some (d * (az / n))))
    with (quat_fin w (d * (ax / n)) (d * (ay / n)) (d * (az / n))).
  rewrite norm4_fin.
  set (s := sqrt _).
  assert (Hs : 0 <= s) by apply sqrt_pos.
  change (fin s + fin 1e-9)%num with (fin (s + 1e-9)).
  unfold quat_map, quat_fin. cbn [qw qx qy qz].
  rewrite !div_fin by lra.
  fold (quat_fin (w / (s + 1e-9)) (d * (ax / n) / (s + 1e-9)) (d * (ay / n) / (s + 1e-9))
          (d * (az / n) / (s + 1e-9))).
  rewrite quaternion_to_angle_axis1_fin.
  reflexivity.
Qed.

Lemma sin_lb_poly (a : R) :
  sin_lb a = a - a ^ 3 / 6 + a ^ 5 / 120 - a ^ 7 / 5040.
Proof.
  unfold sin_lb, sin_approx, sin_term. cbn [sum_f_R0].
  replace (INR (fact (2 * 0 + 1))) with 1 by (cbn; lra).
  replace (INR (fact (2 * 1 + 1))) with 6 by (cbn; lra).
  replace (INR (fact (2 * 2 + 1))) with 120 by (rewrite INR_IZR_INZ; reflexivity).
  replace (INR (fact (2 * 3 + 1))) with 5040 by (rewrite INR_IZR_INZ; reflexivity).
  cbn [Nat.mul Nat.add pow]. field.
Qed.

Lemma sin_ge_half (x : R) : 0 <= x <= 1 -> x / 2 <= sin x.
Proof.
  intros [H0 H1]. pose proof PI2_3_2.
  destruct (SIN x H0 ltac:(lra)) as [L _]. rewrite sin_lb_poly in L.
  assert (Hp : x - x ^ 3 / 6 - x ^ 7 / 5040 <= sin x).
  { assert (0 <= x ^ 5 / 120) by (apply Rmult_le_pos; [apply pow_le; lra | lra]). lra. }
  assert (x ^ 3 <= x) by (simpl; nra).
  assert (x ^ 7 <= x).
  { replace (x ^ 7) with (x ^ 3 * x ^ 3 * x) by ring.
    assert (0 <= x ^ 3) by (apply pow_le; lra).
    set (y := x ^ 3) in *.
    assert (y * y <= 1) by nra. nra. }
  lra.
Qed.

(** An angle of the first quadrant with a small sine is small. *)
Lemma small_angle (x : R) :
  0 <= x <= PI / 2 -> sin x <= 2 / 5 -> x <= 2 * sin x.
Proof.
  intros [H0 H1] Hs. pose proof PI2_3_2.
  destruct (Rle_or_lt x 1) as [Le | Gt].
  - pose proof (sin_ge_half x ltac:(lra)). lra.
  - pose proof (sin_ge_half 1 ltac:(lra)).
    pose proof (sin_increasing_1 1 x ltac:(lra) ltac:(lra) ltac:(lra) H1 Gt). lra.
Qed.

(** The half angle that the code reads off the twist quaternion, against
    the half angle of the rotation. *)
Lemma twist_angle_core (c sa ka ps ps' : R) :
  0 < c -> 0 <= sa -> c * c + sa * sa = 1 ->
  1 - 1e-6 <= ka <= 1 ->
  let n0 := sqrt (c * c + ka * ka * sa * (ka * ka * sa)) in
  0 <= ps < PI / 2 -> cos ps = c -> sin ps = sa ->
  0 <= ps' <= PI / 2 -> cos ps' = c / n0 -> sin ps' = ka * ka * sa / n0 ->
  Rabs (2 * ps' / ka - 2 * ps) <= 1e-4.
Proof.
  intros Hc Hsa Hu Hk n0 Hps Ec Es Hps' Ec' Es'.
  pose proof PI2_3_2 as P3. pose proof PI_4 as P4.
  assert (Hk2 : 0.99 <= ka * ka <= 1) by nra.
  assert (Hk4 : 0.99 * 0.99 <= ka * ka * (ka * ka) <= 1) by nra.
  assert (Hn0 : 0.99 <= n0 <= 1).
  { unfold n0.
    replace (c * c + ka * ka * sa * (ka * ka * sa))
      with (c * c + ka * ka * (ka * ka) * (sa * sa)) by ring.
    set (k4 := ka * ka * (ka * ka)) in *.
    assert (0 <= sa * sa) by nra. assert (0 <= c * c) by nra.
    split.
    - rewrite <- (sqrt_square 0.99) by lra. apply sqrt_le_1_alt. nra.
    - rewrite <- sqrt_1. apply sqrt_le_1_alt. nra. }
  assert (Hsin : sin (ps - ps') = c * sa * (1 - ka * ka) / n0).
  { rewrite sin_minus, Ec, Es, Ec', Es'. field. lra. }
  assert (Hcs : 0 <= c * sa <= / 2).
  { pose proof (Rle_0_sqr (c - sa)) as Q. unfold Rsqr in Q. split; nra. }
  assert (Hi : 0 < / n0 <= / 0.99).
  { split; [apply Rinv_0_lt_compat; lra | apply Rinv_le_contravar; lra]. }
  assert (HE : 0 <= sin (ps - ps') <= 1.1e-6).
  { rewrite Hsin. unfold Rdiv.
    assert (0 <= c * sa * (1 - ka * ka) <= 1e-6) by nra.
    split; nra. }
  assert (Hx0 : 0 <= ps - ps').
  { destruct (Rle_or_lt 0 (ps - ps')) as [P | N]; [exact P |].
    pose proof (sin_lt_0_var (ps - ps') ltac:(lra) N). lra. }
  pose proof (small_angle (ps - ps') ltac:(lra) ltac:(lra)) as Hx.
  assert (Hik : 1 <= / ka <= 1 + 2e-6).
  { split.
    - rewrite <- Rinv_1 at 1. apply Rinv_le_contravar; lra.
    - apply Rmult_le_reg_r with ka; [lra |]. rewrite Rinv_l by lra. nra. }
  replace (2 * ps' / ka - 2 * ps)
    with (2 * ps * (/ ka - 1) - 2 * (ps - ps') * / ka) by (field; lra).
  apply Rabs_le. split; nra.
Qed.

Lemma atan2R_scale (l y x : R) :
  0 < l -> Torch.atan2R (l * y) (l * x) = Torch.atan2R y x.
Proof.
  intros Hl. unfold Torch.atan2R.
  assert (Q : x <> 0 -> l * y / (l * x) = y / x) by (intros; field; lra).
  destruct (Rlt_dec 0 x) as [Px | Px].
  - destruct (Rlt_dec 0 (l * x)) as [_ | N]; [| exfalso; apply N; nra].
    rewrite Q by lra. reflexivity.
  - destruct (Rlt_dec 0 (l * x)) as [P | _]; [exfalso; nra |].
    destruct (Rlt_dec x 0) as [Nx | Nx].
    + destruct (Rlt_dec (l * x) 0) as [_ | N]; [| exfalso; apply N; nra].
      rewrite Q by lra.
      destruct (Rlt_dec y 0) as [Ny | Ny];
        (destruct (Rlt_dec (l * y) 0) as [Ny' | Ny']; [| ]); try reflexivity;
        exfalso; nra.
    + destruct (Rlt_dec (l * x) 0) as [N | _]; [exfalso; nra |].
      destruct (Rlt_dec 0 y) as [Py | Py];
        (destruct (Rlt_dec 0 (l * y)) as [Py' | Py']; [| ]); try reflexivity;
        try (exfalso; nra).
      destruct (Rlt_dec y 0) as [Ny | Ny];
        (destruct (Rlt_dec (l * y) 0) as [Ny' | Ny']; [| ]); try reflexivity;
        exfalso; nra.
Qed.

Lemma two_thetaR_scale (l w sn : R) :
  0 < l -> two_thetaR (l * w) (l * sn) = two_thetaR w sn.
Proof.
  intros Hl. unfold two_thetaR.
  replace (- (l * sn)) with (l * - sn) by ring.
  replace (- (l * w)) with (l * - w) by ring.
  rewrite !atan2R_scale by exact Hl.
  destruct (Rlt_dec w 0) as [N | N];
    (destruct (Rlt_dec (l * w) 0) as [N' | N']; [| ]); try reflexivity; exfalso; nra.
Qed.

Lemma kR_axis (a b ux uy uz : R) :
  ux * ux + uy * uy + uz * uz = 1 -> b <> 0 ->
  kR a (b * ux) (b * uy) (b * uz) = two_thetaR a (Rabs b) / Rabs b.
Proof.
  intros Hu Hb. unfold kR. cbv zeta.
  replace (b * ux * (b * ux) + b * uy * (b * uy) + b * uz * (b * uz))
    with (b * b) by (replace (b * b) with (b * b * (ux * ux + uy * uy + uz * uz))
                       by (rewrite Hu; ring); ring).
  destruct (Rlt_dec 0 (b * b)) as [_ | N]; [| exfalso; apply N; nra].
  fold (Rsqr b). rewrite sqrt_Rsqr_abs. reflexivity.
Qed.

Lemma kR_scalar (a : R) : kR a 0 0 0 = 2 * 1.
Proof.
  unfold kR. cbv zeta.
  destruct (Rlt_dec 0 (0 * 0 + 0 * 0 + 0 * 0)) as [P | _]; [lra | reflexivity].
Qed.

(** The formula of Rodrigues is the matrix of the half-angle quaternion. *)
Lemma rotation_about_qmat (ux uy uz theta : R) :
  ux * ux + uy * uy + uz * uz = 1 ->
  rotation_about ux uy uz theta
  = qmat (cos (theta / 2)) (sin (theta / 2) * ux) (sin (theta / 2) * uy)
         (sin (theta / 2) * uz).
Proof.
  intros Hu.
  assert (Ec : cos theta = cos (theta / 2) * cos (theta / 2)
                           - sin (theta / 2) * sin (theta / 2)).
  { replace theta with (2 * (theta / 2)) at 1 by field. apply cos_2a. }
  assert (Es : sin theta = 2 * sin (theta / 2) * cos (theta / 2)).
  { replace theta with (2 * (theta / 2)) at 1 by field. apply sin_2a. }
  unfold rotation_about, qmat. cbv zeta. rewrite Ec, Es.
  pose proof (sin2_cos2 (theta / 2)) as SC. unfold Rsqr in SC.
  set (c := cos (theta / 2)) in *. set (s := sin (theta / 2)) in *.
  assert (E1 : 1 - (c * c - s * s) = 2 * (s * s)) by lra.
  rewrite E1.
  f_equal; try ring.
  - replace (c * c + s * ux * (s * ux) - s * uy * (s * uy) - s * uz * (s * uz))
      with (c * c + s * s * (ux * ux - (uy * uy + uz * uz))) by ring.
    replace (uy * uy + uz * uz) with (1 - ux * ux) by lra. ring.
  - replace (c * c - s * ux * (s * ux) + s * uy * (s * uy) - s * uz * (s * uz))
      with (c * c + s * s * (uy * uy - (ux * ux + uz * uz))) by ring.
    replace (ux * ux + uz * uz) with (1 - uy * uy) by lra. ring.
  - replace (c * c - s * ux * (s * ux) - s * uy * (s * uy) + s * uz * (s * uz))
      with (c * c + s * s * (uz * uz - (ux * ux + uy * uy))) by ring.
    replace (ux * ux + uy * uy) with (1 - uz * uz) by lra. ring.
Qed.

Lemma sqrt_quotient_sq (a b : R) : 0 <= a -> 0 < b -> sqrt (a * a / (b * b)) = a / b.
Proof.
  intros Ha Hb. replace (a * a / (b * b)) with ((a / b) * (a / b)) by (field; lra).
  apply sqrt_square. apply Rmult_le_pos; [exact Ha | left; apply Rinv_0_lt_compat; exact Hb].
Qed.

(** The twist angle read off the quaternion [(a, b u)], where
    [(a, b) = e (c, ka² s) / nq], against the angle [2 phi] of the
    rotation. *)
Lemma twist_angle_value (e c s ka phi : R) :
  e = 1 \/ e = - 1 ->
  - (PI / 2) < phi < PI / 2 -> cos phi = c -> sin phi = s -> s <> 0 ->
  1 - 1e-6 <= ka <= 1 ->
  let n0 := sqrt (c * c + ka * ka * s * (ka * ka * s)) in
  let nq := n0 + 1e-9 in
  let a := e * c / nq in
  let b := e * (ka * ka * s) / nq in
  Rabs (b * (two_thetaR a (Rabs b) / Rabs b) / ka - 2 * phi) <= 1e-4.
Proof.
  intros He Hphi Ec Es Hs Hk n0 nq a b.
  pose proof PI2_3_2 as P3.
  assert (Hc : 0 < c) by (rewrite <- Ec; apply cos_gt_0; lra).
  assert (Hu : c * c + s * s = 1).
  { pose proof (sin2_cos2 phi) as SC. unfold Rsqr in SC. rewrite Ec, Es in SC. lra. }
  assert (Hk2 : 0.99 <= ka * ka <= 1) by nra.
  assert (Hn0 : 0 < n0).
  { unfold n0. apply sqrt_lt_R0. nra. }
  assert (Hn0sq : n0 * n0 = c * c + ka * ka * s * (ka * ka * s)).
  { unfold n0. apply sqrt_sqrt. nra. }
  assert (Hnq : 0 < nq) by (unfold nq; lra).
  set (sa := Rabs s).
  assert (Hsa : 0 < sa) by (apply Rabs_pos_lt; exact Hs).
  assert (Hsa2 : sa * sa = s * s).
  { unfold sa. rewrite <- Rabs_mult. apply Rabs_pos_eq. nra. }
  assert (Hb : Rabs b = ka * ka * sa / nq).
  { unfold b, Rdiv. rewrite !Rabs_mult.
    rewrite (Rabs_pos_eq (/ nq)) by (left; apply Rinv_0_lt_compat; exact Hnq).
    rewrite (Rabs_pos_eq ka) by lra.
    replace (Rabs e) with 1
      by (destruct He as [-> | ->]; [rewrite Rabs_R1 | rewrite Rabs_left by lra]; lra).
    fold sa. ring. }
  assert (Hb0 : 0 < Rabs b).
  { rewrite Hb. apply Rdiv_lt_0_compat; [nra | exact Hnq]. }
  (* normalise the arguments of atan2 *)
  set (nu := n0 / nq).
  assert (Hnu : 0 < nu) by (apply Rdiv_lt_0_compat; assumption).
  replace (two_thetaR a (Rabs b))
    with (two_thetaR (nu * (e * c / n0)) (nu * (ka * ka * sa / n0)))
    by (f_equal; [unfold a, nu | rewrite Hb; unfold nu]; field; lra).
  rewrite two_thetaR_scale by exact Hnu.
  assert (Hunit : e * c / n0 * (e * c / n0)
                  + ka * ka * sa / n0 * (ka * ka * sa / n0) = 1).
  { replace (e * c / n0 * (e * c / n0) + ka * ka * sa / n0 * (ka * ka * sa / n0))
      with ((e * e * (c * c) + ka * ka * (ka * ka) * (sa * sa)) / (n0 * n0))
      by (field; lra).
    replace (e * e) with 1 by (destruct He as [-> | ->]; ring).
    rewrite Hsa2, Hn0sq. field. nra. }
  assert (Hsn : 0 < ka * ka * sa / n0) by (apply Rdiv_lt_0_compat; [nra | exact Hn0]).
  destruct (half_angle_cos_sin (e * c / n0) (ka * ka * sa / n0) Hsn Hunit)
    as [Hr Hcase].
  set (tt := two_thetaR (e * c / n0) (ka * ka * sa / n0)) in *.
  assert (Hin : 0 < / n0) by (apply Rinv_0_lt_compat; exact Hn0).
  (* the sign of the sine of the rotation *)
  assert (Hsg : (0 < s /\ sa = s /\ 0 < phi) \/ (s < 0 /\ sa = - s /\ phi < 0)).
  { destruct (Rlt_or_le 0 s) as [P | N].
    - left. repeat split; [exact P | unfold sa; apply Rabs_pos_eq; lra |].
      destruct (Rlt_or_le 0 phi) as [Q | Q]; [exact Q |].
      destruct Q as [Q | Q]; [| rewrite Q, sin_0 in Es; lra].
      pose proof (sin_lt_0_var phi ltac:(lra) Q). lra.
    - right. assert (s < 0) by lra. repeat split; [assumption | unfold sa; apply Rabs_left; assumption |].
      destruct (Rlt_or_le phi 0) as [Q | Q]; [exact Q |].
      destruct Q as [Q | Q]; [| rewrite <- Q, sin_0 in Es; lra].
      pose proof (sin_gt_0 phi Q ltac:(lra)). lra. }
  assert (Core : forall ps ps' : R,
             0 <= ps < PI / 2 -> cos ps = c -> sin ps = sa ->
             0 <= ps' <= PI / 2 -> cos ps' = c / n0 -> sin ps' = ka * ka * sa / n0 ->
             Rabs (2 * ps' / ka - 2 * ps) <= 1e-4).
  { intros ps ps' H1 H2 H3 H4 H5 H6.
    apply (twist_angle_core c sa ka ps ps'); try assumption; try lra.
    - fold n0. replace (c * c + ka * ka * sa * (ka * ka * sa))
        with (c * c + ka * ka * s * (ka * ka * s)) by nra. exact H5.
    - replace (c * c + ka * ka * sa * (ka * ka * sa))
        with (c * c + ka * ka * s * (ka * ka * s)) by nra. exact H6. }
  assert (Hbv : b = e * (ka * ka * s) / nq) by reflexivity.
  destruct Hcase as [(W0 & T0 & Ect & Est) | (W0 & T0 & Ect & Est)].
  - (* the real part is kept: e = 1 *)
    assert (E1 : e = 1).
    { destruct He as [-> | ->]; [reflexivity |]. exfalso.
      assert (- 1 * c / n0 < 0) by (unfold Rdiv; nra). lra. }
    subst e.
    replace (1 * c / n0) with (c / n0) in Ect by (field; lra).
    destruct Hsg as [(Sp & Esa & Pp) | (Sn & Esa & Pn)].
    + replace (b * (tt / Rabs b) / ka - 2 * phi) with (2 * (tt / 2) / ka - 2 * phi).
      * apply Core; try assumption; lra.
      * rewrite Hb, Hbv, Esa. field. repeat split; lra.
    + replace (b * (tt / Rabs b) / ka - 2 * phi) with (- (2 * (tt / 2) / ka - 2 * (- phi))).
      * rewrite Rabs_Ropp. apply Core; try assumption; try lra.
        -- rewrite cos_neg. exact Ec.
        -- rewrite sin_neg, Es. lra.
      * rewrite Hb, Hbv, Esa. field. repeat split; lra.
  - (* the real part is flipped: e = -1 *)
    assert (E1 : e = - 1).
    { destruct He as [-> | ->]; [| reflexivity]. exfalso.
      assert (0 < 1 * c / n0) by (unfold Rdiv; nra). lra. }
    subst e.
    replace (- (-1 * c / n0)) with (c / n0) in Ect by (field; lra).
    destruct Hsg as [(Sp & Esa & Pp) | (Sn & Esa & Pn)].
    + replace (b * (tt / Rabs b) / ka - 2 * phi) with (2 * (- (tt / 2)) / ka - 2 * phi).
      * apply Core; try assumption; try lra.
        -- rewrite cos_neg. exact Ect.
        -- rewrite sin_neg, Est. lra.
      * rewrite Hb, Hbv, Esa. field. repeat split; lra.
    + replace (b * (tt / Rabs b) / ka - 2 * phi)
        with (- (2 * (- (tt / 2)) / ka - 2 * (- phi))).
      * rewrite Rabs_Ropp. apply Core; try assumption; try lra.
        -- rewrite cos_neg. exact Ec.
        -- rewrite sin_neg, Es. lra.
        -- rewrite cos_neg. exact Ect.
        -- rewrite sin_neg, Est. lra.
      * rewrite Hb, Hbv, Esa. field. repeat split; lra.
Qed.

Lemma tuple3_eq (a b c a' b' c' : R) :
  a = a' -> b = b' -> c = c' -> (a, b, c) = (a', b', c').
Proof. intros -> -> ->. reflexivity. Qed.

Lemma unit_of_axis (ax ay az : R) :
  let L := norm3R ax ay az in
  0 < L ->
  ax / L * (ax / L) + ay / L * (ay / L) + az / L * (az / L) = 1.
Proof.
  intros L HL. pose proof (norm3R_sq ax ay az) as S. fold L in S.
  replace (ax / L * (ax / L) + ay / L * (ay / L) + az / L * (az / L))
    with ((ax * ax + ay * ay + az * az) / (L * L)) by (field; lra).
  rewrite <- S. field. lra.
Qed.

Lemma twist_axisR_unit (ax ay az : R) :
  let L := norm3R ax ay az in
  0 < L ->
  twist_axisR (ax, ay, az)
  = (L / (L + 1e-9) * (ax / L), L / (L + 1e-9) * (ay / L),
     L / (L + 1e-9) * (az / L)).
Proof.
  intros L HL. unfold twist_axisR. fold L. apply tuple3_eq; field; lra.
Qed.

Lemma twist_quatR_axis (e c s ka ux uy uz : R) :
  e = 1 \/ e = - 1 ->
  ux * ux + uy * uy + uz * uz = 1 ->
  let n0 := sqrt (c * c + ka * ka * s * (ka * ka * s)) in
  let nq := n0 + 1e-9 in
  twist_quatR (e * c, e * (s * ux), e * (s * uy), e * (s * uz))
              (ka * ux, ka * uy, ka * uz)
  = (e * c / nq, e * (ka * ka * s) / nq * ux, e * (ka * ka * s) / nq * uy,
     e * (ka * ka * s) / nq * uz).
Proof.
  intros He Hu n0 nq. unfold twist_quatR.
  assert (Hee : e * e = 1) by (destruct He as [-> | ->]; ring).
  assert (Hd : ka * ux * (e * (s * ux)) + ka * uy * (e * (s * uy)) + ka * uz * (e * (s * uz))
               = e * (ka * s)).
  { replace (e * (ka * s)) with (e * (ka * s) * (ux * ux + uy * uy + uz * uz))
      by (rewrite Hu; ring). ring. }
  rewrite Hd.
  assert (Hsq : e * c * (e * c) + e * (ka * s) * (ka * ux) * (e * (ka * s) * (ka * ux))
                + e * (ka * s) * (ka * uy) * (e * (ka * s) * (ka * uy))
                + e * (ka * s) * (ka * uz) * (e * (ka * s) * (ka * uz))
                = c * c + ka * ka * s * (ka * ka * s)).
  { replace (c * c + ka * ka * s * (ka * ka * s))
      with (e * e * (c * c)
            + e * e * (ka * ka * s * (ka * ka * s)) * (ux * ux + uy * uy + uz * uz))
      by (rewrite Hu, Hee; ring).
    ring. }
  rewrite Hsq. fold n0. fold nq.
  assert (Hnq : 0 < nq) by (unfold nq; pose proof (sqrt_pos (c * c + ka * ka * s * (ka * ka * s))); fold n0 in H; lra).
  apply tuple4_eq; field; lra.
Qed.

Lemma quaternion_to_rotation_matrix1_same (q : quat) :
  quaternion_to_rotation_matrix1 q = quat_to_rotmat1 q.
Proof. reflexivity. Qed.

(** The twist of a rotation about the twist axis itself, one item. *)
Lemma twist_of_rotation_about1 (ax ay az theta : R) :
  let L := norm3R ax ay az in
  1e-3 <= L ->
  ax + ay + az <> 0 ->
  - PI < theta < PI ->
  exists (m' : rmat) (ang : R),
    compute_twist_rotation1
      (tensor_of (rotation_about (ax / L) (ay / L) (az / L) theta))
      (vec3_fin ax ay az)
    = (tensor_of m', fin ang)
    /\ within 1e-4 m' (rotation_about (ax / L) (ay / L) (az / L) theta)
    /\ Rabs (ang - theta) <= 1e-4.
Proof.
  intros L HL Hsum Hth.
  assert (HL0 : 0 < L) by lra.
  pose proof (unit_of_axis ax ay az HL0) as Hu. fold L in Hu.
  set (ux := ax / L) in *. set (uy := ay / L) in *. set (uz := az / L) in *.
  rewrite (rotation_about_qmat ux uy uz theta Hu).
  set (phi := theta / 2).
  assert (Hphi : - (PI / 2) < phi < PI / 2) by (unfold phi; lra).
  set (c := cos phi). set (s := sin phi).
  assert (Hc : 0 < c) by (apply cos_gt_0; lra).
  assert (Hcs : c * c + s * s = 1).
  { pose proof (sin2_cos2 phi) as SC. unfold Rsqr in SC. fold c s in SC. lra. }
  assert (Hq : c * c + s * ux * (s * ux) + s * uy * (s * uy) + s * uz * (s * uz) = 1).
  { replace (c * c + s * ux * (s * ux) + s * uy * (s * uy) + s * uz * (s * uz))
      with (c * c + s * s * (ux * ux + uy * uy + uz * uz)) by ring.
    rewrite Hu. lra. }
  destruct (rq_qmat_sign c (s * ux) (s * uy) (s * uz) Hq) as (e & He & Erq).
  change (vec3_fin ax ay az) with (vec3_fin3 (ax, ay, az)).
  rewrite compute_twist_rotation1_fin, Erq.
  rewrite (twist_axisR_unit ax ay az HL0). fold L ux uy uz.
  set (ka := L / (L + 1e-9)).
  assert (Hka : 1 - 1e-6 <= ka <= 1).
  { unfold ka. split.
    - apply Rmult_le_reg_r with (L + 1e-9); [lra |].
      unfold Rdiv. rewrite Rmult_assoc, Rinv_l by lra. nra.
    - apply Rmult_le_reg_r with (L + 1e-9); [lra |].
      unfold Rdiv. rewrite Rmult_assoc, Rinv_l by lra. lra. }
  rewrite (twist_quatR_axis e c s ka ux uy uz He Hu).
  set (n0 := sqrt (c * c + ka * ka * s * (ka * ka * s))).
  set (nq := n0 + 1e-9).
  assert (Hk2 : 0.99 <= ka * ka <= 1) by nra.
  assert (Hk4 : 0.99 * 0.99 <= ka * ka * (ka * ka) <= 1) by nra.
  assert (Hn0 : 0.99 <= n0 <= 1).
  { unfold n0.
    replace (c * c + ka * ka * s * (ka * ka * s))
      with (c * c + ka * ka * (ka * ka) * (s * s)) by ring.
    set (k4 := ka * ka * (ka * ka)) in *.
    assert (0 <= s * s) by nra. assert (0 <= c * c) by nra.
    split.
    - rewrite <- (sqrt_square 0.99) by lra. apply sqrt_le_1_alt. nra.
    - rewrite <- sqrt_1. apply sqrt_le_1_alt. nra. }
  assert (Hn0sq : n0 * n0 = c * c + ka * ka * s * (ka * ka * s)).
  { unfold n0. apply sqrt_sqrt. nra. }
  assert (Hnq : 0.99 <= nq <= 1.01) by (unfold nq; lra).
  set (a := e * c / nq). set (b := e * (ka * ka * s) / nq).
  cbn [quat_fin4 aaR sum3].
  (* the twist rotation *)
  assert (Hee : e * e = 1) by (destruct He as [-> | ->]; ring).
  assert (Hab : a * a + b * b = n0 * n0 / (nq * nq)).
  { unfold a, b. rewrite Hn0sq.
    replace (e * c / nq * (e * c / nq) + e * (ka * ka * s) / nq * (e * (ka * ka * s) / nq))
      with (e * e * (c * c + ka * ka * s * (ka * ka * s)) / (nq * nq)) by (field; lra).
    rewrite Hee. field. lra. }
  assert (Hab4 : / 4 <= a * a + b * b).
  { rewrite Hab. apply Rmult_le_reg_r with (nq * nq); [nra |].
    unfold Rdiv. rewrite Rmult_assoc, Rinv_l by nra. nra. }
  set (nu := sqrt (a * a + b * ux * (b * ux) + b * uy * (b * uy) + b * uz * (b * uz))).
  assert (Hnunu : nu * nu = a * a + b * b).
  { unfold nu. rewrite sqrt_sqrt by nra.
    replace (b * b) with (b * b * (ux * ux + uy * uy + uz * uz)) by (rewrite Hu; ring).
    ring. }
  assert (Hnu : nu <> 0) by (intros E; rewrite E in Hnunu; lra).
  rewrite quaternion_to_rotation_matrix1_same.
  rewrite quat_to_rotmat1_fin by exact Hnu. fold nu.
  rewrite (qmat_axis_normalised a b nu ux uy uz Hnu Hnunu).
  rewrite (qmat_axis c s ux uy uz).
  pose proof (axis_mat_close a b c s ux uy uz Hu Hcs Hab4) as Hclose.
  assert (HE : Rabs (a * s - b * c) <= 1.1e-6).
  { replace (a * s - b * c) with (e * (c * s * (1 - ka * ka)) * / nq)
      by (unfold a, b; field; lra).
    rewrite !Rabs_mult.
    replace (Rabs e) with 1
      by (destruct He as [-> | ->]; [rewrite Rabs_R1 | rewrite Rabs_left by lra]; lra).
    rewrite (Rabs_pos_eq (/ nq)) by (left; apply Rinv_0_lt_compat; lra).
    rewrite (Rabs_pos_eq (1 - ka * ka)) by lra.
    assert (Bc : Rabs c * Rabs s <= / 2).
    { rewrite <- Rabs_mult. apply Rabs_le.
      pose proof (Rle_0_sqr (c - s)) as Q1. pose proof (Rle_0_sqr (c + s)) as Q2.
      unfold Rsqr in Q1, Q2. split; nra. }
    assert (Hi : 0 < / nq <= / 0.99).
    { split; [apply Rinv_0_lt_compat; lra | apply Rinv_le_contravar; lra]. }
    pose proof (Rabs_pos c). pose proof (Rabs_pos s).
    assert (Hk2' : 0 <= 1 - ka * ka <= 2e-6) by nra.
    set (dk := 1 - ka * ka) in *. set (cs := Rabs c * Rabs s) in *.
    assert (0 <= cs) by (unfold cs; nra).
    assert (0 <= cs * dk <= 1e-6) by nra.
    nra. }
  (* the twist angle *)
  assert (Hsu : ux + uy + uz <> 0).
  { unfold ux, uy, uz. intros E. apply Hsum.
    replace (ax + ay + az) with ((ax / L + ay / L + az / L) * L) by (field; lra).
    rewrite E. ring. }
  assert (Hden : ka * ux + ka * uy + ka * uz <> 0).
  { replace (ka * ux + ka * uy + ka * uz) with (ka * (ux + uy + uz)) by ring.
    apply Rmult_integral_contrapositive_currified; lra. }
  rewrite div_fin by exact Hden.
  eexists. eexists. split; [reflexivity |]. split.
  - unfold within in *. repeat split; (eapply Rle_trans; [apply Hclose | lra]).
  - set (k := kR a (b * ux) (b * uy) (b * uz)).
    replace ((0 + b * ux * k + (0 + b * uy * k) + (0 + b * uz * k))
             / (ka * ux + ka * uy + ka * uz))
      with (b * k / ka) by (field; split; lra).
    replace theta with (2 * phi) by (unfold phi; field).
    destruct (Req_dec_T s 0) as [S0 | S0].
    + (* no rotation *)
      assert (Hb0 : b = 0) by (unfold b; rewrite S0; unfold Rdiv; ring).
      assert (Hphi0 : phi = 0).
      { destruct (Rtotal_order phi 0) as [N | [Z | P]]; [| exact Z |].
        - pose proof (sin_lt_0_var phi ltac:(lra) N). fold s in H. lra.
        - pose proof (sin_gt_0 phi P ltac:(lra)). fold s in H. lra. }
      rewrite Hb0, Hphi0.
      replace (0 * k / ka - 2 * 0) with 0 by (field; lra).
      rewrite Rabs_R0. lra.
    + assert (Hbn : b <> 0).
      { intros E. apply S0.
        assert (X : b * nq * e = ka * ka * s).
        { unfold b. replace (e * (ka * ka * s) / nq * nq * e)
            with (e * e * (ka * ka * s)) by (field; lra).
          rewrite Hee. ring. }
        rewrite E in X. nra. }
      unfold k. rewrite (kR_axis a b ux uy uz Hu Hbn).
      exact (twist_angle_value e c s ka phi He Hphi eq_refl eq_refl S0 Hka).
Qed.

(** A batch built item by item from one list. *)
Lemma compute_twist_rotation_map {X : Type} (f : X -> matrix) (g : X -> vec3)
    (l : list X) :
  compute_twist_rotation (map f l) (map g l)
  = (map (fun x => fst (compute_twist_rotation1 (f x) (g x))) l,
     map (fun x => snd (compute_twist_rotation1 (f x) (g x))) l).
Proof.
  unfold compute_twist_rotation. rewrite length_map.
  assert (E : map (fun b => compute_twist_rotation1 (nth b (map f l) []) (nth b (map g l) nan3))
                  (seq 0 (length l))
              = map (fun x => compute_twist_rotation1 (f x) (g x)) l).
  { destruct l as [| d l']; [reflexivity |]. set (l := d :: l').
    transitivity (map (fun x => compute_twist_rotation1 (f x) (g x))
                    (map (fun j => nth j l d) (seq 0 (length l))));
      [| rewrite map_nth_seq; reflexivity].
    rewrite map_map. apply map_ext_in. intros j Hj. apply in_seq in Hj.
    rewrite (nth_indep (map f l) [] (f d)) by (rewrite length_map; lia).
    rewrite (nth_indep (map g l) nan3 (g d)) by (rewrite length_map; lia).
    rewrite !map_nth. reflexivity. }
  rewrite E, !map_map. reflexivity.
Qed.

(** Claim C8, as amended.  For every batch of rotations, each the rotation
    by an angle [theta] with [-PI < theta < PI] about an axis of length at
    least 1e-3 whose components do not sum to zero, [compute_twist_rotation]
    returns finite twist rotations within 1e-4 of the rotations given, entry
    by entry, and finite twist angles within 1e-4 of the angles [theta]. *)
Theorem twist_of_rotation_about (ts : list twist_case) :
  Forall twist_case_ok ts ->
  exists (ms : list rmat) (angles : list R),
    compute_twist_rotation (map (fun t => tensor_of (twist_rotation_of t)) ts)
      (map twist_axis_of ts)
    = (map tensor_of ms, map fin angles)
    /\ Forall2 (fun m t => within 1e-4 m (twist_rotation_of t)) ms ts
    /\ Forall2 (fun ang t => Rabs (ang - ta_theta t) <= 1e-4) angles ts.
Proof.
  intros H. rewrite compute_twist_rotation_map.
  induction H as [| t l Ht Hl IH].
  - exists [], []. repeat split; constructor.
  - destruct IH as (ms & angles & E & Fm & Fa).
    apply pair_equal_spec in E as [E1 E2].
    destruct Ht as (HL & Hs & Hth).
    destruct (twist_of_rotation_about1 (ta_x t) (ta_y t) (ta_z t) (ta_theta t) HL Hs Hth)
      as (m' & ang & Et & Wm & Wa).
    assert (Et' : compute_twist_rotation1 (tensor_of (twist_rotation_of t))
                    (twist_axis_of t) = (tensor_of m', fin ang)) by exact Et.
    assert (Wm' : within 1e-4 m' (twist_rotation_of t)) by exact Wm.
    exists (m' :: ms), (ang :: angles).
    cbn [map]. rewrite Et', E1, E2. cbn [fst snd].
    repeat split; constructor; assumption.
Qed.

Lemma twist_of_rotation_about_witness :
  exists (ms : list rmat) (angles : list R),
    compute_twist_rotation
      (map (fun t => tensor_of (twist_rotation_of t)) [ TwistCase 1 1 1 1 ])
      (map twist_axis_of [ TwistCase 1 1 1 1 ])
    = (map tensor_of ms, map fin angles)
    /\ Forall2 (fun m t => within 1e-4 m (twist_rotation_of t)) ms
         [ TwistCase 1 1 1 1 ]
    /\ Forall2 (fun ang t => Rabs (ang - ta_theta t) <= 1e-4) angles
         [ TwistCase 1 1 1 1 ].
Proof.
  apply (twist_of_rotation_about [ TwistCase 1 1 1 1 ]).
  constructor; [| constructor].
  unfold twist_case_ok. cbn [ta_x ta_y ta_z ta_theta].
  pose proof PI2_3_2. split; [| split; lra].
  unfold norm3R. replace (1 * 1 + 1 * 1 + 1 * 1) with 3 by ring.
  pose proof sqrt_3_bounds. lra.
Defined.

(** ** Axes whose components sum to zero *)

Lemma rotation_about_rotation (ux uy uz theta : R) :
  ux * ux + uy * uy + uz * uz = 1 -> is_rotation (rotation_about ux uy uz theta).
Proof.
  intros Hu. rewrite rotation_about_qmat by exact Hu. apply qmat_rotation.
  pose proof (sin2_cos2 (theta / 2)) as T. unfold Rsqr in T.
  set (c := cos (theta / 2)) in *. set (s := sin (theta / 2)) in *.
  replace (c * c + s * ux * (s * ux) + s * uy * (s * uy) + s * uz * (s * uz))
    with (c * c + s * s * (ux * ux + uy * uy + uz * uz)) by ring.
  rewrite Hu. lra.
Qed.

Lemma rot_half_turn_112_rotation : is_rotation rot_half_turn_112.
Proof. split; unfold rdet, rot_half_turn_112; cbn; lra. Qed.

(** The twist angle about an axis whose components sum to zero is a NaN,
    whatever the rotation. *)
Lemma twist_angle_nan (m : rmat) (ax ay az : R) :
  ax + ay + az = 0 ->
  snd (compute_twist_rotation1 (tensor_of m) (vec3_fin ax ay az)) = None.
Proof.
  intros H. change (vec3_fin ax ay az) with (vec3_fin3 (ax, ay, az)).
  rewrite compute_twist_rotation1_fin. cbn [snd twist_axisR sum3].
  pose proof (twist_axis_norm_pos ax ay az) as Hn.
  set (n := norm3R ax ay az + 1e-9) in *.
  unfold Num.div, fin.
  destruct (Req_dec_T (ax / n + ay / n + az / n) 0) as [_ | N]; [reflexivity |].
  exfalso. apply N.
  replace (ax / n + ay / n + az / n) with ((ax + ay + az) / n) by (field; lra).
  rewrite H. unfold Rdiv. ring.
Qed.

Lemma sqrt_6_sq : sqrt 6 * sqrt 6 = 6.
Proof. apply sqrt_sqrt. lra. Qed.

Lemma norm3R_112 : norm3R 1 1 (- 2) = sqrt 6.
Proof. unfold norm3R. f_equal. lra. Qed.

Lemma rot_half_turn_112_about :
  rot_half_turn_112
  = rotation_about (1 / norm3R 1 1 (- 2)) (1 / norm3R 1 1 (- 2))
      (- 2 / norm3R 1 1 (- 2)) PI.
Proof.
  rewrite norm3R_112. unfold rot_half_turn_112, rotation_about. cbv zeta.
  rewrite cos_PI, sin_PI.
  pose proof sqrt_6_sq as S6.
  assert (H6 : sqrt 6 <> 0) by (intros E; rewrite E in S6; lra).
  assert (I : / sqrt 6 * / sqrt 6 = / 6).
  { rewrite <- Rinv_mult, S6. reflexivity. }
  set (i := / sqrt 6) in *.
  unfold Rdiv. fold i.
  f_equal; nra.
Qed.

Lemma twist_half_turn_112_nan :
  snd (compute_twist_rotation [ tensor_of rot_half_turn_112 ] [ vec3_fin 1 1 (- 2) ])
  = [ None ].
Proof.
  change [ tensor_of rot_half_turn_112 ] with (map tensor_of [ rot_half_turn_112 ]).
  change [ vec3_fin 1 1 (- 2) ] with (map (fun _ : rmat => vec3_fin 1 1 (- 2)) [ rot_half_turn_112 ]).
  rewrite compute_twist_rotation_map. cbn [snd map].
  rewrite twist_angle_nan by lra. reflexivity.
Qed.

(** ** Half turns *)

(** The twist angle of a half turn is [PI] or [- PI] times
    [(L + 1e-9) / L], for an axis of length [L]. *)
Lemma twist_half_turn_angle (ax ay az : R) :
  let L := norm3R ax ay az in
  0 < L ->
  ax + ay + az <> 0 ->
  exists e : R, (e = 1 \/ e = - 1)
    /\ snd (compute_twist_rotation1
              (tensor_of (rotation_about (ax / L) (ay / L) (az / L) PI))
              (vec3_fin ax ay az))
       = fin (e * (PI * (L + 1e-9) / L)).
Proof.
  intros L HL Hsum.
  pose proof (unit_of_axis ax ay az HL) as Hu. fold L in Hu.
  set (ux := ax / L) in *. set (uy := ay / L) in *. set (uz := az / L) in *.
  rewrite (rotation_about_qmat ux uy uz PI Hu).
  rewrite cos_PI2, sin_PI2.
  assert (Hq : 0 * 0 + 1 * ux * (1 * ux) + 1 * uy * (1 * uy) + 1 * uz * (1 * uz) = 1)
    by lra.
  destruct (rq_qmat_sign 0 (1 * ux) (1 * uy) (1 * uz) Hq) as (e & He & Erq).
  change (vec3_fin ax ay az) with (vec3_fin3 (ax, ay, az)).
  rewrite compute_twist_rotation1_fin, Erq.
  rewrite (twist_axisR_unit ax ay az HL). fold L ux uy uz.
  set (ka := L / (L + 1e-9)).
  assert (Hka : 0 < ka).
  { unfold ka. apply Rdiv_lt_0_compat; lra. }
  rewrite (twist_quatR_axis e 0 1 ka ux uy uz He Hu).
  set (n0 := sqrt (0 * 0 + ka * ka * 1 * (ka * ka * 1))).
  assert (Hn0 : 0 <= n0) by apply sqrt_pos.
  set (nq := n0 + 1e-9).
  assert (Hnq : 0 < nq) by (unfold nq; lra).
  assert (Hee : e * e = 1) by (destruct He as [-> | ->]; ring).
  set (b := e * (ka * ka * 1) / nq).
  assert (Hb : b <> 0).
  { unfold b. intros E.
    assert (X : b * nq * e = ka * ka).
    { unfold b. replace (e * (ka * ka * 1) / nq * nq * e) with (e * e * (ka * ka)) by (field; lra).
      rewrite Hee. ring. }
    fold b in E. rewrite E in X. nra. }
  replace (e * 0 / nq) with 0 by (unfold Rdiv; ring).
  cbn [snd aaR sum3].
  rewrite (kR_axis 0 b ux uy uz Hu Hb).
  assert (Hsu : ux + uy + uz <> 0).
  { unfold ux, uy, uz. intros E. apply Hsum.
    replace (ax + ay + az) with ((ax / L + ay / L + az / L) * L) by (field; lra).
    rewrite E. ring. }
  assert (Hden : ka * ux + ka * uy + ka * uz <> 0).
  { replace (ka * ux + ka * uy + ka * uz) with (ka * (ux + uy + uz)) by ring.
    apply Rmult_integral_contrapositive_currified; lra. }
  rewrite div_fin by exact Hden.
  assert (Hab : 0 < Rabs b) by (apply Rabs_pos_lt; exact Hb).
  assert (Ht : two_thetaR 0 (Rabs b) = PI).
  { unfold two_thetaR, Torch.atan2R.
    destruct (Rlt_dec 0 0) as [N | _]; [lra |].
    destruct (Rlt_dec 0 (Rabs b)) as [_ | N]; [field | lra]. }
  rewrite Ht.
  exists e. split; [exact He |]. apply fin_eq.
  assert (Hsb : b / Rabs b = e).
  { unfold b. destruct He as [-> | ->].
    - rewrite Rabs_pos_eq; [field |].
      + lra.
      + apply Rlt_le. apply Rdiv_lt_0_compat; nra.
    - rewrite Rabs_left; [field; split; [lra | nra] |].
      assert (0 < ka * ka * 1 / nq) by (apply Rdiv_lt_0_compat; nra).
      unfold Rdiv in *. nra. }
  transitivity (b / Rabs b * PI / ka).
  - field. repeat split; lra.
  - rewrite Hsb. unfold ka. field. lra.
Qed.

Lemma norm3R_111 : norm3R 1 1 1 = sqrt 3.
Proof. unfold norm3R. f_equal. lra. Qed.

(** Claim C8, counterexample.  The axis [(1,1,-2)] has no zero component.
    For the rotation by one radian about it, and for the half turn about it,
    the twist angle that [compute_twist_rotation] returns is not a finite
    number: the sum of the components of the axis, by which the function
    divides, is zero.  And for the half turn about the axis [(1,1,1)] the
    twist angle is a finite number larger than [PI] in absolute value: the
    [1e-9] added to the length of the axis is seen in the result. *)
Lemma twist_of_rotation_about_counterexample :
  (1 <> 0 /\ - 2 <> 0)
  /\ (is_rotation (twist_rotation_of (TwistCase 1 1 (- 2) 1))
      /\ snd (compute_twist_rotation
                [ tensor_of (twist_rotation_of (TwistCase 1 1 (- 2) 1)) ]
                [ twist_axis_of (TwistCase 1 1 (- 2) 1) ])
         = [ None ])
  /\ (is_rotation rot_half_turn_112
      /\ rot_half_turn_112
         = rotation_about (1 / norm3R 1 1 (- 2)) (1 / norm3R 1 1 (- 2))
             (- 2 / norm3R 1 1 (- 2)) PI
      /\ snd (compute_twist_rotation [ tensor_of rot_half_turn_112 ]
                [ vec3_fin 1 1 (- 2) ])
         = [ None ])
  /\ (is_rotation (twist_rotation_of (TwistCase 1 1 1 PI))
      /\ exists ang : R,
           snd (compute_twist_rotation
                  [ tensor_of (twist_rotation_of (TwistCase 1 1 1 PI)) ]
                  [ twist_axis_of (TwistCase 1 1 1 PI) ])
           = [ fin ang ]
           /\ PI < Rabs ang).
Proof.
  split; [split; lra |]. split; [split | split; [split; [| split] | split]].
  - unfold twist_rotation_of. cbn [ta_x ta_y ta_z ta_theta].
    apply rotation_about_rotation. apply (unit_of_axis 1 1 (- 2)).
    rewrite norm3R_112. apply sqrt_lt_R0. lra.
  - set (t := TwistCase 1 1 (- 2) 1).
    change [ tensor_of (twist_rotation_of t) ]
      with (map (fun t => tensor_of (twist_rotation_of t)) [ t ]).
    change [ twist_axis_of t ] with (map twist_axis_of [ t ]).
    rewrite compute_twist_rotation_map. cbn [snd map].
    unfold twist_axis_of, t. cbn [ta_x ta_y ta_z].
    rewrite twist_angle_nan by lra. reflexivity.
  - exact rot_half_turn_112_rotation.
  - exact rot_half_turn_112_about.
  - exact twist_half_turn_112_nan.
  - unfold twist_rotation_of. cbn [ta_x ta_y ta_z ta_theta].
    apply rotation_about_rotation. apply (unit_of_axis 1 1 1).
    rewrite norm3R_111. apply sqrt_lt_R0. lra.
  - set (t := TwistCase 1 1 1 PI).
    change [ tensor_of (twist_rotation_of t) ]
      with (map (fun t => tensor_of (twist_rotation_of t)) [ t ]).
    change [ twist_axis_of t ] with (map twist_axis_of [ t ]).
    rewrite compute_twist_rotation_map. cbn [snd map].
    unfold twist_axis_of, twist_rotation_of, t. cbn [ta_x ta_y ta_z ta_theta].
    pose proof sqrt_3_bounds as B3. pose proof PI_RGT_0 as HP.
    assert (HL : 0 < norm3R 1 1 1) by (rewrite norm3R_111; lra).
    destruct (twist_half_turn_angle 1 1 1 HL ltac:(lra)) as (e & He & E).
    rewrite E. rewrite norm3R_111.
    exists (e * (PI * (sqrt 3 + 1e-9) / sqrt 3)). split; [reflexivity |].
    assert (Hg : PI < PI * (sqrt 3 + 1e-9) / sqrt 3).
    { apply Rmult_lt_reg_r with (sqrt 3); [lra |].
      unfold Rdiv. rewrite Rmult_assoc, Rinv_l by lra. nra. }
    destruct He as [-> | ->].
    + rewrite Rmult_1_l, Rabs_pos_eq by lra. exact Hg.
    + rewrite Rabs_left by lra. lra.
Qed.

(** * Further properties of the code *)

(** ** Quaternion to matrix: rotations, scale, and the zero quaternion *)

Lemma quat_to_rotmat1_zero_norm (w x y z : R) :
  sqrt (w * w + x * x + y * y + z * z) = 0 ->
  quat_to_rotmat1 (quat_fin w x y z) = nan_matrix.
Proof.
  intros Hn. unfold quat_to_rotmat1. rewrite norm4_fin, Hn.
  unfold quat_fin, fin, Num.div. cbn [qw qx qy qz].
  destruct (Req_dec_T 0 0) as [_ | N]; [reflexivity | contradiction].
Qed.

Lemma norm_sq4_pos (q : R * R * R * R) :
  q <> (0, 0, 0, 0) -> 0 < norm_sq4 q.
Proof.
  destruct q as [[[w x] y] z]. cbn [norm_sq4]. intros Hq.
  destruct (Req_dec_T w 0) as [-> | Hw]; [| nra].
  destruct (Req_dec_T x 0) as [-> | Hx]; [| nra].
  destruct (Req_dec_T y 0) as [-> | Hy]; [| nra].
  destruct (Req_dec_T z 0) as [-> | Hz]; [| nra].
  contradiction Hq. reflexivity.
Qed.

(** A quaternion that is not zero gives a rotation. *)
Lemma quat_to_rotmat1_rotation (q : R * R * R * R) :
  q <> (0, 0, 0, 0) ->
  exists m : rmat, quat_to_rotmat1 (quat_fin4 q) = tensor_of m /\ is_rotation m.
Proof.
  intros Hq. pose proof (norm_sq4_pos q Hq) as Hp.
  destruct q as [[[w x] y] z]. cbn [norm_sq4 quat_fin4] in *.
  set (n := sqrt (w * w + x * x + y * y + z * z)).
  assert (Hn : 0 < n) by (apply sqrt_lt_R0; exact Hp).
  assert (Hnn : n * n = w * w + x * x + y * y + z * z) by (apply sqrt_sqrt; lra).
  exists (qmat (w / n) (x / n) (y / n) (z / n)). split.
  - apply quat_to_rotmat1_fin. fold n. lra.
  - apply qmat_rotation.
    replace (w / n * (w / n) + x / n * (x / n) + y / n * (y / n) + z / n * (z / n))
      with ((w * w + x * x + y * y + z * z) / (n * n)) by (field; lra).
    rewrite <- Hnn. field. lra.
Qed.

(** X1.  For every batch of finite quaternions none of which is zero, of
    norm one or not, [quat_to_rotmat] returns finite matrices that are
    proper rotations. *)
Theorem quat_to_rotmat_gives_rotations (qs : list (R * R * R * R)) :
  Forall (fun q => q <> (0, 0, 0, 0)) qs ->
  exists ms : list rmat,
    quat_to_rotmat (map quat_fin4 qs) = map tensor_of ms
    /\ Forall is_rotation ms.
Proof.
  intros H. induction H as [| q l Hq Hl IH].
  - exists []. split; [reflexivity | constructor].
  - destruct IH as (ms & E & F).
    destruct (quat_to_rotmat1_rotation q Hq) as (m & Em & Rm).
    exists (m :: ms). split.
    + unfold quat_to_rotmat in *. cbn [map]. rewrite Em, E. reflexivity.
    + constructor; assumption.
Qed.

Lemma quat_to_rotmat_gives_rotations_witness :
  exists ms : list rmat,
    quat_to_rotmat (map quat_fin4 [ (2, 0, 0, 0); (0, 1, 1, 0) ]) = map tensor_of ms
    /\ Forall is_rotation ms.
Proof.
  apply (quat_to_rotmat_gives_rotations [ (2, 0, 0, 0); (0, 1, 1, 0) ]).
  repeat constructor; intros E; injection E; lra.
Defined.

(** The zero quaternion: the division by its norm is not guarded. *)
Lemma quat_to_rotmat_zero_is_nan (B : nat) :
  quat_to_rotmat (repeat (quat_fin 0 0 0 0) B) = repeat nan_matrix B.
Proof.
  unfold quat_to_rotmat. rewrite map_repeat_const. f_equal.
  apply quat_to_rotmat1_zero_norm.
  replace (0 * 0 + 0 * 0 + 0 * 0 + 0 * 0) with 0 by ring. apply sqrt_0.
Qed.





(** ** Axis-angle to matrix: rotations *)





(** The vector that the added [1e-8] cancels. *)
Lemma batch_rodrigues_singular_is_nan (B : nat) :
  batch_rodrigues (repeat (vec3_fin (- 1e-8) (- 1e-8) (- 1e-8)) B)
  = repeat nan_matrix B.
Proof.
  unfold batch_rodrigues. rewrite map_repeat_const. f_equal.
  apply batch_rodrigues1_nan. unfold norm3R.
  replace ((- 1e-8 + 1e-8) * (- 1e-8 + 1e-8) + (- 1e-8 + 1e-8) * (- 1e-8 + 1e-8)
           + (- 1e-8 + 1e-8) * (- 1e-8 + 1e-8)) with 0 by lra.
  apply sqrt_0.
Qed.

(** ** NaN in, NaN out *)


(** ** Matrix to quaternion: no division by zero, no use of the fourth
    column *)



(** ** The length of the axis-angle vector *)








(** ** The two quaternions of a rotation *)

Lemma atan2R_neg_pos (y x : R) : 0 < x -> Torch.atan2R (- y) x = - Torch.atan2R y x.
Proof.
  intros Hx. unfold Torch.atan2R.
  destruct (Rlt_dec 0 x) as [_ | N]; [| contradiction].
  replace (- y / x) with (- (y / x)) by (field; lra). apply atan_opp.
Qed.

Lemma two_thetaR_neg (w sn : R) :
  w <> 0 -> two_thetaR (- w) sn = - two_thetaR w sn.
Proof.
  intros Hw. unfold two_thetaR.
  destruct (Rlt_dec w 0) as [Wn | Wp].
  - destruct (Rlt_dec (- w) 0) as [C | _]; [lra |].
    rewrite (atan2R_neg_pos sn (- w)) by lra. ring.
  - destruct (Rlt_dec (- w) 0) as [_ | C]; [| lra].
    rewrite Ropp_involutive.
    rewrite (atan2R_neg_pos sn w) by lra. ring.
Qed.

Lemma aaR_neg (q : R * R * R * R) :
  fst (fst (fst q)) <> 0 -> aaR (qneg q) = aaR q.
Proof.
  destruct q as [[[w x] y] z]. cbn [fst qneg aaR]. intros Hw.
  assert (Ek : kR (- w) (- x) (- y) (- z) = - kR w x y z \/
               (kR (- w) (- x) (- y) (- z) = kR w x y z /\ x = 0 /\ y = 0 /\ z = 0)).
  { unfold kR. cbv zeta.
    replace (- x * - x + - y * - y + - z * - z) with (x * x + y * y + z * z) by ring.
    destruct (Rlt_dec 0 (x * x + y * y + z * z)) as [P | P].
    - left. rewrite two_thetaR_neg by exact Hw.
      field. apply Rgt_not_eq, sqrt_lt_R0. exact P.
    - right. split; [reflexivity | nra]. }
  destruct Ek as [-> | (-> & -> & -> & ->)].
  - apply tuple3_eq; ring.
  - apply tuple3_eq; ring.
Qed.

(** X8.  For every batch of finite quaternions whose real parts are not
    zero, [quaternion_to_angle_axis] returns the same vectors for [q] and
    for [-q]. *)
Theorem quaternion_to_angle_axis_sign_invariant (qs : list (R * R * R * R)) :
  Forall (fun q => fst (fst (fst q)) <> 0) qs ->
  quaternion_to_angle_axis (map (fun q => quat_neg (quat_fin4 q)) qs)
  = quaternion_to_angle_axis (map quat_fin4 qs).
Proof.
  intros H. unfold quaternion_to_angle_axis. rewrite !map_map.
  apply map_ext_in. intros q Hq. rewrite Forall_forall in H. specialize (H q Hq).
  pose proof (aaR_neg q H) as E.
  destruct q as [[[w x] y] z]. cbn [quat_fin4 qneg] in *.
  change (quat_neg (quat_fin w x y z)) with (quat_fin (- w) (- x) (- y) (- z)).
  rewrite !quaternion_to_angle_axis1_fin.
  change (vec3_fin3 (aaR (- w, - x, - y, - z)) = vec3_fin3 (aaR (w, x, y, z))).
  rewrite E. reflexivity.
Qed.

Lemma quaternion_to_angle_axis_sign_invariant_witness :
  quaternion_to_angle_axis (map (fun q => quat_neg (quat_fin4 q)) [ (1, 2, 3, 4) ])
  = quaternion_to_angle_axis (map quat_fin4 [ (1, 2, 3, 4) ]).
Proof.
  apply (quaternion_to_angle_axis_sign_invariant [ (1, 2, 3, 4) ]).
  repeat constructor. cbn [fst]. lra.
Defined.

(** ** Euler angles and the rotations about the axes *)

Lemma rmat_eq (a b : rmat) :
  r00 a = r00 b -> r01 a = r01 b -> r02 a = r02 b ->
  r10 a = r10 b -> r11 a = r11 b -> r12 a = r12 b ->
  r20 a = r20 b -> r21 a = r21 b -> r22 a = r22 b -> a = b.
Proof.
  destruct a, b. cbn. intros. subst. reflexivity.
Qed.

(** The matrix of a product of quaternions is the product of their
    matrices. *)
Lemma qmat4_qmul (p q : R * R * R * R) :
  qmat4 (qmul p q) = rmul (qmat4 p) (qmat4 q).
Proof.
  destruct p as [[[a b] c] d], q as [[[e f] g] h].
  cbn [qmul qmat4]. unfold qmat, rmul.
  cbn [r00 r01 r02 r10 r11 r12 r20 r21 r22].
  apply rmat_eq; cbn [r00 r01 r02 r10 r11 r12 r20 r21 r22]; ring.
Qed.

Lemma norm_sq4_qmul (p q : R * R * R * R) :
  norm_sq4 (qmul p q) = norm_sq4 p * norm_sq4 q.
Proof.
  destruct p as [[[a b] c] d], q as [[[e f] g] h].
  cbn [qmul norm_sq4]. ring.
Qed.

Lemma half_angle_cos (a : R) :
  cos a = cos (a / 2) * cos (a / 2) - sin (a / 2) * sin (a / 2).
Proof.
  replace a with (2 * (a / 2)) at 1 by field. rewrite cos_2a. reflexivity.
Qed.

Lemma half_angle_sin (a : R) : sin a = 2 * sin (a / 2) * cos (a / 2).
Proof.
  replace a with (2 * (a / 2)) at 1 by field. rewrite sin_2a. reflexivity.
Qed.

Lemma half_angle_unit (a : R) :
  cos (a / 2) * cos (a / 2) + sin (a / 2) * sin (a / 2) = 1.
Proof. pose proof (sin2_cos2 (a / 2)) as H. unfold Rsqr in H. lra. Qed.

Lemma qmat_rotX (a : R) : qmat (cos (a / 2)) (sin (a / 2)) 0 0 = rotX a.
Proof.
  pose proof (half_angle_unit a) as U.
  unfold qmat, rotX. rewrite (half_angle_cos a), (half_angle_sin a).
  apply rmat_eq; cbn [r00 r01 r02 r10 r11 r12 r20 r21 r22]; lra.
Qed.

Lemma qmat_rotY (a : R) : qmat (cos (a / 2)) 0 (sin (a / 2)) 0 = rotY a.
Proof.
  pose proof (half_angle_unit a) as U.
  unfold qmat, rotY. rewrite (half_angle_cos a), (half_angle_sin a).
  apply rmat_eq; cbn [r00 r01 r02 r10 r11 r12 r20 r21 r22]; lra.
Qed.

Lemma qmat_rotZ (a : R) : qmat (cos (a / 2)) 0 0 (sin (a / 2)) = rotZ a.
Proof.
  pose proof (half_angle_unit a) as U.
  unfold qmat, rotZ. rewrite (half_angle_cos a), (half_angle_sin a).
  apply rmat_eq; cbn [r00 r01 r02 r10 r11 r12 r20 r21 r22]; lra.
Qed.

(** The quaternion of [euler_to_quaternion]. *)
Lemma euler_to_quaternion1_fin (x y z : R) :
  euler_to_quaternion1 (vec3_fin x y z)
  = quat_fin4 (qmul (cos (x / 2), sin (x / 2), 0, 0)
                 (qmul (cos (y / 2), 0, sin (y / 2), 0)
                       (cos (z / 2), 0, 0, sin (z / 2)))).
Proof.
  unfold euler_to_quaternion1, vec3_fin. cbn [vx vy vz].
  rewrite !div_fin by lra.
  cbn [qmul quat_fin4]. unfold quat_fin, fin.
  cbn [Num.cos Num.sin Num.lift1 Num.mul Num.add Num.sub Num.lift2].
  f_equal; f_equal; ring.
Qed.

Lemma euler_quaternion_unit (x y z : R) :
  norm_sq4 (qmul (cos (x / 2), sin (x / 2), 0, 0)
              (qmul (cos (y / 2), 0, sin (y / 2), 0)
                    (cos (z / 2), 0, 0, sin (z / 2)))) = 1.
Proof.
  rewrite !norm_sq4_qmul. cbn [norm_sq4].
  pose proof (half_angle_unit x). pose proof (half_angle_unit y).
  pose proof (half_angle_unit z).
  replace (cos (x / 2) * cos (x / 2) + sin (x / 2) * sin (x / 2) + 0 * 0 + 0 * 0) with 1 by lra.
  replace (cos (y / 2) * cos (y / 2) + 0 * 0 + sin (y / 2) * sin (y / 2) + 0 * 0) with 1 by lra.
  replace (cos (z / 2) * cos (z / 2) + 0 * 0 + 0 * 0 + sin (z / 2) * sin (z / 2)) with 1 by lra.
  ring.
Qed.

Lemma quaternion_to_rotation_matrix1_unit (q : R * R * R * R) :
  norm_sq4 q = 1 ->
  quaternion_to_rotation_matrix1 (quat_fin4 q) = tensor_of (qmat4 q).
Proof.
  destruct q as [[[w x] y] z]. cbn [norm_sq4 quat_fin4 qmat4]. intros H.
  rewrite quaternion_to_rotation_matrix1_same.
  apply quat_to_rotmat1_unit. exact H.
Qed.

Lemma dot_mm_tensor_of (a b : rmat) :
  Np.dot_mm (tensor_of a) (tensor_of b) = tensor_of (rmul a b).
Proof.
  unfold Np.dot_mm, transpose, ncols, tensor_of, rmul.
  cbn [hd length seq map nth Np.dot_vv Np.zip_with combine Np.sum fold_right fst snd
       r00 r01 r02 r10 r11 r12 r20 r21 r22].
  unfold fin. cbn [Num.mul Num.add Num.lift2].
  repeat (f_equal; try ring).
Qed.

Lemma transpose_tensor_of (a : rmat) :
  transpose (tensor_of a)
  = tensor_of (RM (r00 a) (r10 a) (r20 a) (r01 a) (r11 a) (r21 a)
                  (r02 a) (r12 a) (r22 a)).
Proof. reflexivity. Qed.

Lemma Rot_x_fin (a : R) (category : string) (prepend_dim : bool) :
  category = "torch"%string \/ category = "numpy"%string ->
  Rot_x (fin a) category prepend_dim
  = inr (if prepend_dim then Rot133 [ tensor_of (rotX a) ]
         else Rot33 (tensor_of (rotX a))).
Proof.
  intros [-> | ->]; destruct prepend_dim; reflexivity.
Qed.

Lemma Rot_y_fin (a : R) (category : string) (prepend_dim : bool) :
  category = "torch"%string \/ category = "numpy"%string ->
  Rot_y (fin a) category prepend_dim
  = inr (if prepend_dim then Rot133 [ tensor_of (rotY a) ]
         else Rot33 (tensor_of (rotY a))).
Proof.
  intros [-> | ->]; destruct prepend_dim; reflexivity.
Qed.

Lemma Rot_z_fin (a : R) (category : string) (prepend_dim : bool) :
  category = "torch"%string \/ category = "numpy"%string ->
  Rot_z (fin a) category prepend_dim
  = inr (if prepend_dim then Rot133 [ tensor_of (rotZ a) ]
         else Rot33 (tensor_of (rotZ a))).
Proof.
  intros [-> | ->]; destruct prepend_dim; reflexivity.
Qed.

Lemma rotX_rotation (a : R) : is_rotation (rotX a).
Proof.
  pose proof (sin2_cos2 a) as H. unfold Rsqr in H.
  split; unfold rdet, rotX; cbn [r00 r01 r02 r10 r11 r12 r20 r21 r22]; nra.
Qed.

Lemma rotY_rotation (a : R) : is_rotation (rotY a).
Proof.
  pose proof (sin2_cos2 a) as H. unfold Rsqr in H.
  split; unfold rdet, rotY; cbn [r00 r01 r02 r10 r11 r12 r20 r21 r22]; nra.
Qed.

Lemma rotZ_rotation (a : R) : is_rotation (rotZ a).
Proof.
  pose proof (sin2_cos2 a) as H. unfold Rsqr in H.
  split; unfold rdet, rotZ; cbn [r00 r01 r02 r10 r11 r12 r20 r21 r22]; nra.
Qed.

Lemma rotX_add (a b : R) : rmul (rotX a) (rotX b) = rotX (a + b).
Proof.
  unfold rmul, rotX. cbn [r00 r01 r02 r10 r11 r12 r20 r21 r22].
  rewrite cos_plus, sin_plus. apply rmat_eq; cbn; ring.
Qed.

Lemma rotY_add (a b : R) : rmul (rotY a) (rotY b) = rotY (a + b).
Proof.
  unfold rmul, rotY. cbn [r00 r01 r02 r10 r11 r12 r20 r21 r22].
  rewrite cos_plus, sin_plus. apply rmat_eq; cbn; ring.
Qed.

Lemma rotZ_add (a b : R) : rmul (rotZ a) (rotZ b) = rotZ (a + b).
Proof.
  unfold rmul, rotZ. cbn [r00 r01 r02 r10 r11 r12 r20 r21 r22].
  rewrite cos_plus, sin_plus. apply rmat_eq; cbn; ring.
Qed.

(** Any other category is refused. *)
Lemma Rot_other_category (angle : num) (category : string) (prepend_dim : bool) :
  category <> "torch"%string -> category <> "numpy"%string ->
  Rot_x angle category prepend_dim = inl ValueError
  /\ Rot_y angle category prepend_dim = inl ValueError
  /\ Rot_z angle category prepend_dim = inl ValueError.
Proof.
  intros Ht Hn. apply String.eqb_neq in Ht, Hn.
  unfold Rot_x, Rot_y, Rot_z. rewrite Ht, Hn. repeat split.
Qed.

Lemma Rot_category_cases (category : string) :
  (category = "torch"%string \/ category = "numpy"%string)
  \/ (category <> "torch"%string /\ category <> "numpy"%string).
Proof.
  destruct (String.eqb_spec category "torch") as [-> | Nt]; [left; left; reflexivity |].
  destruct (String.eqb_spec category "numpy") as [-> | Nn]; [left; right; reflexivity |].
  right. split; assumption.
Qed.

(** X9.  For a finite angle and the category ["torch"] or ["numpy"],
    [Rot_x], [Rot_y] and [Rot_z] return proper rotations that leave the
    first, the second and the third axis where they are, in a batch of one
    when [prepend_dim] is set; for any other category, whatever the angle,
    they raise [ValueError]. *)
Theorem Rot_xyz_rotations (a : R) (category : string) :
  (category = "torch"%string \/ category = "numpy"%string ->
   exists mx my mz : rmat,
     Rot_x (fin a) category true = inr (Rot133 [ tensor_of mx ])
     /\ Rot_x (fin a) category false = inr (Rot33 (tensor_of mx))
     /\ Rot_y (fin a) category true = inr (Rot133 [ tensor_of my ])
     /\ Rot_y (fin a) category false = inr (Rot33 (tensor_of my))
     /\ Rot_z (fin a) category true = inr (Rot133 [ tensor_of mz ])
     /\ Rot_z (fin a) category false = inr (Rot33 (tensor_of mz))
     /\ is_rotation mx /\ is_rotation my /\ is_rotation mz
     /\ rapply mx (1, 0, 0) = (1, 0, 0)
     /\ rapply my (0, 1, 0) = (0, 1, 0)
     /\ rapply mz (0, 0, 1) = (0, 0, 1))
  /\ (category <> "torch"%string -> category <> "numpy"%string ->
      forall (angle : num) (prepend_dim : bool),
        Rot_x angle category prepend_dim = inl ValueError
        /\ Rot_y angle category prepend_dim = inl ValueError
        /\ Rot_z angle category prepend_dim = inl ValueError).
Proof.
  split.
  - intros Hc. exists (rotX a), (rotY a), (rotZ a).
    rewrite !Rot_x_fin, !Rot_y_fin, !Rot_z_fin by exact Hc.
    repeat split; try reflexivity;
      try apply rotX_rotation; try apply rotY_rotation; try apply rotZ_rotation;
      unfold rapply, rotX, rotY, rotZ; cbn [r00 r01 r02 r10 r11 r12 r20 r21 r22];
      apply tuple3_eq; ring.
  - intros Ht Hn angle prepend_dim. apply Rot_other_category; assumption.
Qed.

(** X10.  For each of [Rot_x], [Rot_y] and [Rot_z]: the matrix for the sum
    of two finite angles is the [np.dot] of the matrices for the angles, and
    the matrix for the opposite angle is the transpose. *)
Theorem Rot_xyz_compose (a b : R) (category : string) (A B : matrix)
    (F : num -> string -> bool -> result rot_out) :
  F = Rot_x \/ F = Rot_y \/ F = Rot_z ->
  F (fin a) category false = inr (Rot33 A) ->
  F (fin b) category false = inr (Rot33 B) ->
  F (fin (a + b)) category false = inr (Rot33 (Np.dot_mm A B))
  /\ F (fin (- a)) category false = inr (Rot33 (transpose A)).
Proof.
  intros HF HA HB.
  assert (Hc : category = "torch"%string \/ category = "numpy"%string).
  { destruct (Rot_category_cases category) as [Hc | [Nt Nn]]; [exact Hc |].
    exfalso.
    destruct (Rot_other_category (fin a) category false Nt Nn) as (Ex & Ey & Ez).
    destruct HF as [-> | [-> | ->]]; congruence. }
  destruct HF as [-> | [-> | ->]].
  - rewrite Rot_x_fin in HA, HB |- * by exact Hc.
    injection HA as <-. injection HB as <-.
    rewrite dot_mm_tensor_of, rotX_add, Rot_x_fin by exact Hc.
    split; [reflexivity |]. rewrite transpose_tensor_of.
    unfold rotX. cbn [r00 r01 r02 r10 r11 r12 r20 r21 r22].
    rewrite cos_neg, sin_neg, Ropp_involutive.
    unfold tensor_of. cbn [r00 r01 r02 r10 r11 r12 r20 r21 r22]. reflexivity.
  - rewrite Rot_y_fin in HA, HB |- * by exact Hc.
    injection HA as <-. injection HB as <-.
    rewrite dot_mm_tensor_of, rotY_add, Rot_y_fin by exact Hc.
    split; [reflexivity |]. rewrite transpose_tensor_of.
    unfold rotY. cbn [r00 r01 r02 r10 r11 r12 r20 r21 r22].
    rewrite cos_neg, sin_neg, Ropp_involutive.
    unfold tensor_of. cbn [r00 r01 r02 r10 r11 r12 r20 r21 r22]. reflexivity.
  - rewrite Rot_z_fin in HA, HB |- * by exact Hc.
    injection HA as <-. injection HB as <-.
    rewrite dot_mm_tensor_of, rotZ_add, Rot_z_fin by exact Hc.
    split; [reflexivity |]. rewrite transpose_tensor_of.
    unfold rotZ. cbn [r00 r01 r02 r10 r11 r12 r20 r21 r22].
    rewrite cos_neg, sin_neg, Ropp_involutive.
    unfold tensor_of. cbn [r00 r01 r02 r10 r11 r12 r20 r21 r22]. reflexivity.
Qed.

Lemma Rot_xyz_compose_witness :
  Rot_y (fin (1 + 2)) "torch" false
  = inr (Rot33 (Np.dot_mm (tensor_of (rotY 1)) (tensor_of (rotY 2))))
  /\ Rot_y (fin (- 1)) "torch" false = inr (Rot33 (transpose (tensor_of (rotY 1)))).
Proof.
  apply (Rot_xyz_compose 1 2 "torch" (tensor_of (rotY 1)) (tensor_of (rotY 2)) Rot_y);
    [right; left; reflexivity | reflexivity | reflexivity].
Defined.

(** X11.  For every batch of finite Euler angles [(x, y, z)],
    [euler_to_quaternion] returns finite quaternions of norm one, and
    [batch_euler2matrix] returns the product of the matrices that [Rot_x],
    [Rot_y] and [Rot_z] return for [x], [y] and [z], in this order, which is
    a proper rotation. *)
Theorem batch_euler2matrix_is_product (rs : list (R * R * R)) :
  (exists qs : list (R * R * R * R),
     euler_to_quaternion (map vec3_fin3 rs) = map quat_fin4 qs
     /\ Forall (fun q => norm_sq4 q = 1) qs)
  /\ exists ms : list rmat,
       batch_euler2matrix (map vec3_fin3 rs) = map tensor_of ms
       /\ Forall is_rotation ms
       /\ Forall2 (fun m r =>
                     exists X Y Z : matrix,
                       Rot_x (fin (fst (fst r))) "numpy" false = inr (Rot33 X)
                       /\ Rot_y (fin (snd (fst r))) "numpy" false = inr (Rot33 Y)
                       /\ Rot_z (fin (snd r)) "numpy" false = inr (Rot33 Z)
                       /\ tensor_of m = Np.dot_mm X (Np.dot_mm Y Z))
                  ms rs.
Proof.
  assert (P : forall x y z,
             qmat4 (qmul (cos (x / 2), sin (x / 2), 0, 0)
                      (qmul (cos (y / 2), 0, sin (y / 2), 0)
                            (cos (z / 2), 0, 0, sin (z / 2))))
             = rmul (rotX x) (rmul (rotY y) (rotZ z))).
  { intros x y z. rewrite !qmat4_qmul. cbn [qmat4].
    rewrite qmat_rotX, qmat_rotY, qmat_rotZ. reflexivity. }
  split.
  - exists (map (fun r => qmul (cos (fst (fst r) / 2), sin (fst (fst r) / 2), 0, 0)
                   (qmul (cos (snd (fst r) / 2), 0, sin (snd (fst r) / 2), 0)
                         (cos (snd r / 2), 0, 0, sin (snd r / 2)))) rs).
    split.
    + unfold euler_to_quaternion. rewrite !map_map. apply map_ext.
      intros [[x y] z]. apply euler_to_quaternion1_fin.
    + apply Forall_forall. intros q Hq.
      apply in_map_iff in Hq as ([[x y] z] & <- & _).
      apply euler_quaternion_unit.
  - exists (map (fun r => rmul (rotX (fst (fst r)))
                            (rmul (rotY (snd (fst r))) (rotZ (snd r)))) rs).
    split; [| split].
    + unfold batch_euler2matrix, quaternion_to_rotation_matrix, euler_to_quaternion.
      rewrite !map_map. apply map_ext. intros [[x y] z]. cbn [vec3_fin3 fst snd].
      rewrite euler_to_quaternion1_fin.
      rewrite quaternion_to_rotation_matrix1_unit by apply euler_quaternion_unit.
      rewrite P. reflexivity.
    + apply Forall_forall. intros m Hm.
      apply in_map_iff in Hm as ([[x y] z] & <- & _). cbn [fst snd].
      rewrite <- P. pose proof (euler_quaternion_unit x y z) as U.
      destruct (qmul _ _) as [[[a b] c] d]. cbn [qmat4 norm_sq4] in *.
      apply qmat_rotation. exact U.
    + induction rs as [| [[x y] z] rs IH]; [constructor |].
      cbn [map]. constructor; [| exact IH]. cbn [fst snd].
      exists (tensor_of (rotX x)), (tensor_of (rotY y)), (tensor_of (rotZ z)).
      rewrite !dot_mm_tensor_of. repeat split.
Qed.

(** ** The angle of a 2D rotation *)

Lemma atan2R_div (d y x : R) :
  0 < d -> Torch.atan2R (y / d) (x / d) = Torch.atan2R y x.
Proof.
  intros Hd. unfold Rdiv. rewrite (Rmult_comm y), (Rmult_comm x).
  apply atan2R_scale. apply Rinv_0_lt_compat. exact Hd.
Qed.

Lemma normalize2_fin (a b : R) :
  let d := Rmax (sqrt (a * a + b * b)) 1e-12 in
  0 < d /\ normalize2 (fin a, fin b) = (fin (a / d), fin (b / d)).
Proof.
  intros d.
  assert (Hd : 0 < d).
  { unfold d. pose proof (Rmax_r (sqrt (a * a + b * b)) 1e-12). lra. }
  split; [exact Hd |].
  unfold normalize2. cbn [fst snd].
  change (fin a * fin a + fin b * fin b)%num with (fin (a * a + b * b)).
  rewrite sqrt_fin by nra.
  change (Num.max (fin (sqrt (a * a + b * b))) (fin 1e-12)) with (fin d).
  rewrite !div_fin by lra. reflexivity.
Qed.

(** The angle of [(sin t, cos t)]. *)
Lemma atan2R_sin_cos (t : R) : - PI < t <= PI -> Torch.atan2R (sin t) (cos t) = t.
Proof.
  intros Ht. pose proof PI_RGT_0 as Hpi. unfold Torch.atan2R.
  destruct (Rlt_dec 0 (cos t)) as [Cp | Cp].
  - assert (Hr : - (PI / 2) < t < PI / 2).
    { split.
      - destruct (Rle_lt_dec t (- (PI / 2))) as [L | G]; [| exact G].
        exfalso. assert (cos t <= 0); [| lra].
        rewrite <- cos_neg. apply cos_le_0; lra.
      - destruct (Rle_lt_dec (PI / 2) t) as [L | G]; [| exact G].
        exfalso. assert (cos t <= 0); [| lra]. apply cos_le_0; lra. }
    change (sin t / cos t) with (tan t). apply atan_tan. exact Hr.
  - destruct (Rlt_dec (cos t) 0) as [Cn | Cn].
    + destruct (Rlt_dec (sin t) 0) as [Sn | Sn].
      * (* third quadrant *)
        assert (Hr : - PI < t < - (PI / 2)).
        { split; [lra |].
          destruct (Rle_lt_dec (- (PI / 2)) t) as [L | G]; [| exact G].
          exfalso. destruct (Rle_lt_dec t 0) as [L0 | G0].
          - assert (0 <= cos t); [| lra]. apply cos_ge_0; lra.
          - assert (0 <= sin t); [| lra]. apply sin_ge_0; lra. }
        replace (sin t / cos t) with (tan (t + PI)).
        2:{ unfold tan. rewrite neg_sin, neg_cos. field. lra. }
        rewrite atan_tan by lra. ring.
      * (* second quadrant *)
        assert (Hr : PI / 2 < t <= PI).
        { split; [| lra].
          destruct (Rle_lt_dec t (PI / 2)) as [L | G]; [| exact G].
          exfalso. destruct (Rle_lt_dec (- (PI / 2)) t) as [L0 | G0].
          - assert (0 <= cos t); [| lra]. apply cos_ge_0; lra.
          - assert (sin t < 0); [| lra].
            apply sin_lt_0_var; lra. }
        replace (sin t / cos t) with (tan (t - PI)).
        2:{ unfold tan. rewrite sin_minus, cos_minus, cos_PI, sin_PI. field. lra. }
        rewrite atan_tan by lra. ring.
    + assert (C0 : cos t = 0) by lra.
      pose proof (sin2_cos2 t) as SC. unfold Rsqr in SC. rewrite C0 in SC.
      destruct (Rlt_dec 0 (sin t)) as [Sp | Sp].
      * (* t = PI/2 *)
        destruct (Rtotal_order t (PI / 2)) as [L | [E | G]]; [| lra |].
        -- exfalso. destruct (Rle_lt_dec t (- (PI / 2))) as [L1 | G1].
           ++ assert (sin t <= 0); [| lra].
              destruct (Req_dec_T t (- (PI / 2))) as [-> | N];
                [rewrite sin_neg, sin_PI2; lra |].
              apply Rlt_le, sin_lt_0_var; lra.
           ++ assert (0 < cos t); [| lra]. apply cos_gt_0; lra.
        -- exfalso. assert (cos t < 0); [| lra]. apply cos_lt_0; lra.
      * destruct (Rlt_dec (sin t) 0) as [Sn | Sn]; [| exfalso; nra].
        destruct (Rtotal_order t (- (PI / 2))) as [L | [E | G]]; [| lra |].
        -- exfalso. assert (cos t < 0); [| lra].
           rewrite <- cos_neg. apply cos_lt_0; lra.
        -- exfalso. destruct (Rle_lt_dec (PI / 2) t) as [L1 | G1].
           ++ assert (0 <= sin t); [| lra]. apply sin_ge_0; lra.
           ++ assert (0 < cos t); [| lra]. apply cos_gt_0; lra.
Qed.

Lemma rotmat_to_angle_fin (x : list (R * R)) :
  rotmat_to_angle (map (fun v => (fin (fst v), fin (snd v))) x)
  = map (fun v => [ fin (Torch.atan2R (fst v) (snd v)) ]) x.
Proof.
  unfold rotmat_to_angle. rewrite map_map. apply map_ext. intros [a b].
  cbn [fst snd]. cbv zeta.
  destruct (normalize2_fin a b) as [Hd E]. cbv zeta in Hd, E.
  rewrite E. cbn [fst snd].
  change (Torch.atan2 (fin ?u) (fin ?v)) with (fin (Torch.atan2R u v)).
  unfold Torch.atan2, fin. cbn [Num.lift2].
  rewrite atan2R_div by exact Hd. reflexivity.
Qed.

(** X12.  For every batch of finite rows [(a, b)], [rotmat_to_angle]
    returns [atan2(a, b)]: the normalisation that comes first does not
    change the angle, whatever the length of the row. *)
Theorem rotmat_to_angle_is_atan2 (x : list (R * R)) :
  rotmat_to_angle (map (fun v => (fin (fst v), fin (snd v))) x)
  = map (fun v => [ fin (Torch.atan2R (fst v) (snd v)) ]) x.
Proof. exact (rotmat_to_angle_fin x). Qed.

(** X13.  For every batch of angles [t] with [-PI < t <= PI],
    [rotmat_to_angle] applied to the rows [(sin t, cos t)] gives the angles
    back. *)
Theorem rotmat_to_angle_round_trip (ts : list R) :
  Forall (fun t => - PI < t <= PI) ts ->
  rotmat_to_angle (map (fun t => (fin (sin t), fin (cos t))) ts)
  = map (fun t => [ fin t ]) ts.
Proof.
  intros H.
  pose proof (rotmat_to_angle_fin (map (fun t => (sin t, cos t)) ts)) as E.
  rewrite !map_map in E. cbn [fst snd] in E. rewrite E.
  apply map_ext_in. intros t Ht. rewrite Forall_forall in H.
  rewrite atan2R_sin_cos by (apply H; exact Ht). reflexivity.
Qed.

Lemma rotmat_to_angle_round_trip_witness :
  rotmat_to_angle (map (fun t => (fin (sin t), fin (cos t))) [ 0; PI; - 1 ])
  = map (fun t => [ fin t ]) [ 0; PI; - 1 ].
Proof.
  apply (rotmat_to_angle_round_trip [ 0; PI; - 1 ]).
  pose proof PI_RGT_0. pose proof PI2_3_2. repeat constructor; lra.
Defined.

(** ** The pinhole camera *)

Lemma transform_point_fin (m : rmat) (tx ty tz px py pz : R) :
  transform_point (tensor_of m) (vec3_fin tx ty tz) (vec3_fin px py pz)
  = vec3_fin3 (let '(x, y, z) := rapply m (px, py, pz) in (x + tx, y + ty, z + tz)).
Proof. reflexivity. Qed.

Lemma pinhole_point (m : rmat) (tx ty tz px py pz f cx cy : R) (retain_z : bool) :
  let '(X, Y, Z) := rapply m (px, py, pz) in
  Z + tz <> 0 ->
  perspective_projection_point (tensor_of m) (vec3_fin tx ty tz)
    [ [ fin f; fin 0; fin cx ]; [ fin 0; fin f; fin cy ]; [ fin 0; fin 0; fin 1 ] ]
    retain_z (vec3_fin px py pz)
  = [ fin (f * ((X + tx) / (Z + tz)) + cx); fin (f * ((Y + ty) / (Z + tz)) + cy) ]
    ++ (if retain_z then [ fin 1 ] else []).
Proof.
  unfold perspective_projection_point. rewrite transform_point_fin.
  destruct (rapply m (px, py, pz)) as [[X Y] Z]. intros Hz.
  cbn [vec3_fin3]. unfold vec3_fin, vec3_map. cbn [vx vy vz].
  rewrite !div_fin by exact Hz.
  unfold mat_vec3, ix. cbn [nth vx vy vz].
  cbn [Num.add Num.mul Num.lift2 fin].
  destruct retain_z; cbn [app];
    [apply fin3_eq | apply fin2_eq]; field; exact Hz.
Qed.

Lemma zero_depth_point (rotation : matrix) (translation : vec3) (K : matrix)
    (retain_z : bool) (p : vec3) :
  vz (transform_point rotation translation p) = fin 0 ->
  perspective_projection_point rotation translation K retain_z p
  = [ None; None ] ++ (if retain_z then [ None ] else []).
Proof.
  intros Hz. unfold perspective_projection_point. rewrite Hz.
  assert (D : forall a : num, (a / fin 0)%num = None).
  { intros [a |]; [| reflexivity]. unfold Num.div, fin.
    destruct (Req_dec_T 0 0) as [_ | N]; [reflexivity | contradiction]. }
  unfold vec3_map. rewrite !D. unfold mat_vec3. cbn [vx vy vz].
  assert (M : forall a : num, (a * None)%num = None) by (intros [a |]; reflexivity).
  rewrite !M. destruct retain_z; reflexivity.
Qed.

Lemma perspective_projection_nth (points : list (list vec3)) (rotation : list matrix)
    (translation : list vec3) (cam : camera) (retain_z : bool) (b k : nat)
    (item : list vec3) (p : vec3) :
  nth_error points b = Some item ->
  nth_error item k = Some p ->
  nth_error (nth b (perspective_projection points rotation translation cam retain_z) []) k
  = Some (perspective_projection_point (nth b rotation []) (nth b translation nan3)
            (intrinsics_at cam b) retain_z p).
Proof.
  intros Hb Hk. unfold perspective_projection.
  rewrite (nth_error_nth _ _ _ (nth_error_map_seq _ _ _ (nth_error_Some_lt _ _ _ Hb))).
  rewrite (nth_error_nth _ _ _ Hb).
  rewrite nth_error_map, Hk. reflexivity.
Qed.

Lemma pinhole_nth
    (points : list (list vec3)) (rotation : list matrix) (translation : list vec3)
    (focal_length : bcast) (camera_center : list (num * num)) (retain_z : bool)
    (b k : nat) (item : list vec3) (m : rmat)
    (tx ty tz px py pz f cx cy X Y Z : R) :
  nth_error points b = Some item ->
  nth_error item k = Some (vec3_fin px py pz) ->
  nth_error rotation b = Some (tensor_of m) ->
  nth_error translation b = Some (vec3_fin tx ty tz) ->
  bcast_at focal_length b = fin f ->
  nth_error camera_center b = Some (fin cx, fin cy) ->
  rapply m (px, py, pz) = (X, Y, Z) ->
  Z + tz <> 0 ->
  nth_error
    (nth b (perspective_projection points rotation translation
              (FocalCenter focal_length camera_center) retain_z) []) k
  = Some ([ fin (f * ((X + tx) / (Z + tz)) + cx);
            fin (f * ((Y + ty) / (Z + tz)) + cy) ]
          ++ (if retain_z then [ fin 1 ] else [])).
Proof.
  intros Hb Hk Hr Ht Hf Hc HX Hz.
  rewrite (perspective_projection_nth _ _ _ _ _ _ _ _ _ Hb Hk).
  rewrite (nth_error_nth _ _ _ Hr), (nth_error_nth _ _ _ Ht).
  cbn [intrinsics_at]. rewrite Hf, (nth_error_nth _ _ _ Hc). cbn [fst snd].
  pose proof (pinhole_point m tx ty tz px py pz f cx cy retain_z) as P.
  rewrite HX in P. rewrite (P Hz). reflexivity.
Qed.

(** X14.  The pinhole camera.  For a finite point [p] of item [b], a
    finite rotation and translation, and the camera built from a finite focal
    length [f] and centre [(cx, cy)]: when the point [R p + t = (X', Y', Z')]
    is at a depth [Z'] that is not zero, [perspective_projection] returns
    [(f X'/Z' + cx, f Y'/Z' + cy)], followed by [1] with [retain_z]. *)
Theorem perspective_projection_pinhole
    (points : list (list vec3)) (rotation : list matrix) (translation : list vec3)
    (focal_length : bcast) (camera_center : list (num * num)) (retain_z : bool)
    (b k : nat) (item : list vec3) (m : rmat)
    (tx ty tz px py pz f cx cy X Y Z : R) :
  nth_error points b = Some item ->
  nth_error item k = Some (vec3_fin px py pz) ->
  nth_error rotation b = Some (tensor_of m) ->
  nth_error translation b = Some (vec3_fin tx ty tz) ->
  bcast_at focal_length b = fin f ->
  nth_error camera_center b = Some (fin cx, fin cy) ->
  rapply m (px, py, pz) = (X, Y, Z) ->
  Z + tz <> 0 ->
  nth_error
    (nth b (perspective_projection points rotation translation
              (FocalCenter focal_length camera_center) retain_z) []) k
  = Some ([ fin (f * ((X + tx) / (Z + tz)) + cx);
            fin (f * ((Y + ty) / (Z + tz)) + cy) ]
          ++ (if retain_z then [ fin 1 ] else [])).
Proof. apply pinhole_nth. Qed.

Lemma perspective_projection_pinhole_witness :
  nth_error
    (nth 0 (perspective_projection [ [ vec3_fin 1 2 3 ] ] [ tensor_of rot_z90 ]
              [ vec3_fin 0 0 1 ]
              (FocalCenter (Scalar (fin 5000)) [ (fin 112, fin 112) ]) true) []) 0
  = Some ([ fin (5000 * ((0 * 1 + -1 * 2 + 0 * 3 + 0) / (0 * 1 + 0 * 2 + 1 * 3 + 1))
                 + 112);
            fin (5000 * ((1 * 1 + 0 * 2 + 0 * 3 + 0) / (0 * 1 + 0 * 2 + 1 * 3 + 1))
                 + 112) ]
          ++ [ fin 1 ]).
Proof.
  apply (perspective_projection_pinhole [ [ vec3_fin 1 2 3 ] ] [ tensor_of rot_z90 ]
           [ vec3_fin 0 0 1 ] (Scalar (fin 5000)) [ (fin 112, fin 112) ] true 0 0
           [ vec3_fin 1 2 3 ] rot_z90 0 0 1 1 2 3 5000 112 112
           (0 * 1 + -1 * 2 + 0 * 3) (1 * 1 + 0 * 2 + 0 * 3) (0 * 1 + 0 * 2 + 1 * 3));
    try reflexivity.
  lra.
Defined.

(** X15.  A point at depth zero.  When the third component of [R p + t]
    is zero, [perspective_projection] returns a value that is not finite in
    every channel of that point, whatever the camera: the division is not
    guarded. *)
Theorem perspective_projection_zero_depth
    (points : list (list vec3)) (rotation : list matrix) (translation : list vec3)
    (cam : camera) (retain_z : bool) (b k : nat) (item : list vec3) (p : vec3) :
  nth_error points b = Some item ->
  nth_error item k = Some p ->
  vz (transform_point (nth b rotation []) (nth b translation nan3) p) = fin 0 ->
  nth_error
    (nth b (perspective_projection points rotation translation cam retain_z) []) k
  = Some ([ None; None ] ++ (if retain_z then [ None ] else [])).
Proof.
  intros Hb Hk Hz.
  rewrite (perspective_projection_nth _ _ _ _ _ _ _ _ _ Hb Hk).
  rewrite zero_depth_point by exact Hz. reflexivity.
Qed.

Lemma perspective_projection_zero_depth_witness :
  nth_error
    (nth 0 (perspective_projection [ [ vec3_fin 1 2 0 ] ] [ eye3 ] [ vec3_fin 0 0 0 ]
              (FocalCenter (Scalar (fin 5000)) [ (fin 0, fin 0) ]) false) []) 0
  = Some ([ None; None ] ++ []).
Proof.
  apply (perspective_projection_zero_depth [ [ vec3_fin 1 2 0 ] ] [ eye3 ]
           [ vec3_fin 0 0 0 ] (FocalCenter (Scalar (fin 5000)) [ (fin 0, fin 0) ])
           false 0 0 [ vec3_fin 1 2 0 ] (vec3_fin 1 2 0)); try reflexivity.
  unfold transform_point, mat_vec3, vec3_map2, eye3, vec3_fin, ix. cbn.
  apply fin_eq. lra.
Defined.

(** ** Projection with a predicted camera *)


(** X17.  With [iwp_mode], for a finite camera [(s, tx, ty)] and a finite
    joint [(X, Y, Z)]: the joint is seen with the focal length 5000 and the
    centre at the origin after the translation
    [(tx, ty, 2 * 5000 / (224 s + 1e-9))]. *)
Theorem projection_iwp_formula (pred_joints : list (list vec3))
    (pred_camera : camera_dict) (retain_z : bool) (cam_sxy : list vec3)
    (b k : nat) (item : list vec3) (s tx ty X Y Z : R) :
  key_cam_sxy pred_camera = Some cam_sxy ->
  nth_error pred_joints b = Some item ->
  nth_error item k = Some (vec3_fin X Y Z) ->
  nth_error cam_sxy b = Some (vec3_fin s tx ty) ->
  224 * s + 1e-9 <> 0 ->
  Z + 2 * 5000 / (224 * s + 1e-9) <> 0 ->
  exists v,
    projection pred_joints pred_camera retain_z true = inr v
    /\ nth_error (nth b v []) k
       = Some ([ fin (5000 * ((X + tx) / (Z + 2 * 5000 / (224 * s + 1e-9))));
                 fin (5000 * ((Y + ty) / (Z + 2 * 5000 / (224 * s + 1e-9)))) ]
               ++ (if retain_z then [ fin 1 ] else [])).
Proof.
  intros Hsxy Hb Hk Hc Hs Hz. unfold projection. rewrite Hsxy. cbn [getitem bind].
  eexists. split; [reflexivity |].
  pose proof (nth_error_Some_lt _ _ _ Hb) as Hlt.
  rewrite (pinhole_nth _ _ _ _ _ retain_z b k item rid
             tx ty (2 * 5000 / (224 * s + 1e-9)) X Y Z 5000 0 0
             (1 * X + 0 * Y + 0 * Z) (0 * X + 1 * Y + 0 * Z) (0 * X + 0 * Y + 1 * Z)
             Hb Hk).
  - assert (Hz' : 0 * X + 0 * Y + 1 * Z + 2 * 5000 / (224 * s + 1e-9) <> 0)
      by (intros E; apply Hz; rewrite <- E; ring).
    apply f_equal.
    apply (f_equal (fun l => l ++ (if retain_z then [ fin 1 ] else []))).
    assert (Q1 : 224 * s * 1000000000 + 1 <> 0) by (intros E; apply Hs; lra).
    assert (Q2 : Z * (224 * s * 1000000000 + 1) + 10000000000000 <> 0).
    { intros E. apply Hz.
      replace (Z + 2 * 5000 / (224 * s + 1e-9))
        with ((Z * (224 * s + 1e-9) + 10000) / (224 * s + 1e-9)) by (field; exact Q1).
      replace (Z * (224 * s + 1e-9) + 10000) with 0 by lra.
      unfold Rdiv. ring. }
    apply fin2_eq; field; split; assumption.
  - change (tensor_of rid) with eye3.
    rewrite nth_error_repeat by exact Hlt. reflexivity.
  - rewrite nth_error_map, Hc. cbn [option_map vec3_fin vx vy vz].
    change (fin 2 * fin 5000)%num with (fin (2 * 5000)).
    change (fin 224 * fin s + fin 1e-9)%num with (fin (224 * s + 1e-9)).
    rewrite div_fin by exact Hs. reflexivity.
  - reflexivity.
  - rewrite nth_error_repeat by exact Hlt. reflexivity.
  - reflexivity.
  - intros E. apply Hz. rewrite <- E. ring.
Qed.

(** X18.  Without [iwp_mode], when the key [cam_t] is there: the result is
    the projection with [cam_rotmat], [cam_t] and [cam_intrinsics]; it has
    two channels whatever [retain_z] is, and the values under the other keys
    play no part, though the keys have to be there. *)
Theorem projection_full_camera (pred_joints : list (list vec3))
    (d d' : camera_dict) (retain_z retain_z' : bool) (cam_t : list vec3)
    (cam_rotmat cam_intrinsics : list matrix) :
  full_camera_keys d -> full_camera_keys d' ->
  key_cam_t d = Some cam_t -> key_cam_t d' = Some cam_t ->
  key_cam_rotmat d = Some cam_rotmat -> key_cam_rotmat d' = Some cam_rotmat ->
  key_cam_intrinsics d = Some cam_intrinsics ->
  key_cam_intrinsics d' = Some cam_intrinsics ->
  projection pred_joints d retain_z false
  = inr (perspective_projection pred_joints cam_rotmat cam_t
           (CamIntrinsics cam_intrinsics) false)
  /\ projection pred_joints d' retain_z' false
     = projection pred_joints d retain_z false.
Proof.
  intros (H1 & H2 & H3 & H4 & H5 & H6 & H7 & H8)
         (G1 & G2 & G3 & G4 & G5 & G6 & G7 & G8) Ht Ht' Hr Hr' HK HK'.
  destruct d as [sxy scale center w h crop rot K t].
  destruct d' as [sxy' scale' center' w' h' crop' rot' K' t'].
  cbn [key_cam_sxy key_bbox_scale key_bbox_center
    key_img_w key_img_h key_crop_res key_cam_rotmat key_cam_intrinsics key_cam_t] in *.
  subst.
  destruct scale, center, w, h, crop, sxy; try contradiction.
  destruct scale', center', w', h', crop', sxy'; try contradiction.
  split; reflexivity.
Qed.

Lemma projection_iwp_formula_witness :
  exists v,
    projection [ [ vec3_fin 1 2 3 ] ]
      (CameraDict (Some [ vec3_fin 1 0 0 ]) None None None None None None None None)
      true true = inr v
    /\ nth_error (nth 0 v []) 0
       = Some ([ fin (5000 * ((1 + 0) / (3 + 2 * 5000 / (224 * 1 + 1e-9))));
                 fin (5000 * ((2 + 0) / (3 + 2 * 5000 / (224 * 1 + 1e-9)))) ]
               ++ [ fin 1 ]).
Proof.
  apply (projection_iwp_formula [ [ vec3_fin 1 2 3 ] ]
           (CameraDict (Some [ vec3_fin 1 0 0 ]) None None None None None None None None)
           true [ vec3_fin 1 0 0 ] 0 0 [ vec3_fin 1 2 3 ] 1 0 0 1 2 3);
    try reflexivity; lra.
Defined.

Lemma projection_full_camera_witness :
  projection [ [ vec3_fin 1 2 3 ] ]
    (CameraDict (Some []) (Some []) (Some []) (Some (Scalar None)) (Some (Scalar None))
       (Some None) (Some [ eye3 ]) (Some [ eye3 ]) (Some [ vec3_fin 0 0 1 ]))
    true false
  = inr (perspective_projection [ [ vec3_fin 1 2 3 ] ] [ eye3 ] [ vec3_fin 0 0 1 ]
           (CamIntrinsics [ eye3 ]) false)
  /\ projection [ [ vec3_fin 1 2 3 ] ]
       (CameraDict (Some [ vec3_fin 1 1 1 ]) (Some [ fin 2 ]) (Some [ (fin 3, fin 4) ])
          (Some (Scalar (fin 5))) (Some (Scalar (fin 6))) (Some (fin 7))
          (Some [ eye3 ]) (Some [ eye3 ]) (Some [ vec3_fin 0 0 1 ]))
       false false
     = projection [ [ vec3_fin 1 2 3 ] ]
         (CameraDict (Some []) (Some []) (Some []) (Some (Scalar None))
            (Some (Scalar None)) (Some None) (Some [ eye3 ]) (Some [ eye3 ])
            (Some [ vec3_fin 0 0 1 ]))
         true false.
Proof.
  apply (projection_full_camera [ [ vec3_fin 1 2 3 ] ]
           (CameraDict (Some []) (Some []) (Some []) (Some (Scalar None))
              (Some (Scalar None)) (Some None) (Some [ eye3 ]) (Some [ eye3 ])
              (Some [ vec3_fin 0 0 1 ]))
           (CameraDict (Some [ vec3_fin 1 1 1 ]) (Some [ fin 2 ]) (Some [ (fin 3, fin 4) ])
              (Some (Scalar (fin 5))) (Some (Scalar (fin 6))) (Some (fin 7))
              (Some [ eye3 ]) (Some [ eye3 ]) (Some [ vec3_fin 0 0 1 ]))
           true false [ vec3_fin 0 0 1 ] [ eye3 ] [ eye3 ]);
    try reflexivity; unfold full_camera_keys; cbn; repeat split; discriminate.
Defined.

(** ** Systems that cannot be solved, and joints that do not count *)

Lemma sqrt_sqr_nonneg (c : R) : 0 <= c -> sqrt c * sqrt c = c.
Proof. intros H. apply sqrt_sqrt. exact H. Qed.

(** The normal matrix when every joint is observed at the same place
    [(u, v)]. *)
Lemma normal_entries_coincident (f ox oy u v : R) (js : list corr) :
  Forall (fun j => cU j = u /\ cV j = v /\ 0 <= cC j) js ->
  let es := equations f ox oy js in
  let W := sumR (map cC js) in
  normal_entry e0 e0 es = W * (f * f)
  /\ normal_entry e0 e1 es = 0
  /\ normal_entry e0 e2 es = W * (f * (ox - u))
  /\ normal_entry e1 e0 es = 0
  /\ normal_entry e1 e1 es = W * (f * f)
  /\ normal_entry e1 e2 es = W * (f * (oy - v))
  /\ normal_entry e2 e0 es = W * (f * (ox - u))
  /\ normal_entry e2 e1 es = W * (f * (oy - v))
  /\ normal_entry e2 e2 es = W * ((ox - u) * (ox - u) + (oy - v) * (oy - v)).
Proof.
  intros Hc. cbv zeta. unfold normal_entry. rewrite !sumR_equations.
  induction Hc as [| j js (Hu & Hv & Hj) Hjs IH].
  - cbn. repeat split; ring.
  - destruct IH as (I00 & I01 & I02 & I10 & I11 & I12 & I20 & I21 & I22).
    cbn [map]. rewrite !sumR_cons.
    cbn [eqn_u eqn_v e0 e1 e2 ew] in *.
    rewrite I00, I01, I02, I10, I11, I12, I20, I21, I22, Hu, Hv.
    pose proof (sqrt_sqr_nonneg (cC j) Hj) as Q.
    set (w := sqrt (cC j)) in *.
    repeat split.
    all: try (replace (cC j) with (w * w) by exact Q; ring).
Qed.

Lemma coincident_singular (js : list corr) (f img0 img1 u v : R) :
  js <> [] ->
  Forall (fun j => cU j = u /\ cV j = v /\ 0 <= cC j) js ->
  estimate_translation_np (joints3d js) (joints2d js) (confidences js) (fin f)
    (fin img0, fin img1)
  = None.
Proof.
  intros Hne Hc. unfold estimate_translation_np.
  assert (Hc' : Forall (fun j => 0 <= cC j) js).
  { apply Forall_forall. intros j Hj. rewrite Forall_forall in Hc.
    exact (proj2 (proj2 (Hc j Hj))). }
  pose proof (normal_equations_fin js f img0 img1 Hne Hc') as EN.
  cbv zeta in EN. rewrite EN. cbn [fst snd].
  destruct (normal_entries_coincident f (img1 / 2) (img0 / 2) u v js Hc)
    as (I00 & I01 & I02 & I10 & I11 & I12 & I20 & I21 & I22).
  cbv zeta in I00, I01, I02, I10, I11, I12, I20, I21, I22.
  rewrite I00, I01, I02, I10, I11, I12, I20, I21, I22.
  set (W := sumR (map cC js)). set (a := img1 / 2 - u). set (b := img0 / 2 - v).
  set (A := [ [ fin (W * (f * f)); fin 0; fin (W * (f * a)) ];
              [ fin 0; fin (W * (f * f)); fin (W * (f * b)) ];
              [ fin (W * (f * a)); fin (W * (f * b)); fin (W * (a * a + b * b)) ] ]).
  assert (Hd : Np.det3 A = fin 0).
  { change (Np.det3 A) with (fin (det3R (W * (f * f)) 0 (W * (f * a)) 0 (W * (f * f))
                                  (W * (f * b)) (W * (f * a)) (W * (f * b))
                                  (W * (a * a + b * b)))).
    apply fin_eq. unfold det3R. ring. }
  unfold Np.linalg_solve. rewrite Hd.
  unfold fin. destruct (Req_dec_T 0 0) as [_ | N]; [reflexivity | contradiction].
Qed.



(** *** Joints of confidence zero *)

Lemma sumR_app (l l' : list R) : sumR (l ++ l') = sumR l + sumR l'.
Proof.
  induction l as [| x l IH]; cbn [app]; [cbn; ring |].
  rewrite !sumR_cons, IH. ring.
Qed.

Lemma normal_entry_zero_confidence (g h : equation -> R) (f ox oy : R)
    (js1 js2 : list corr) (j : corr) :
  cC j = 0 ->
  normal_entry g h (equations f ox oy (js1 ++ j :: js2))
  = normal_entry g h (equations f ox oy (js1 ++ js2)).
Proof.
  intros Hj. unfold normal_entry. rewrite !sumR_equations.
  rewrite !map_app, !sumR_app. cbn [map]. rewrite sumR_cons.
  cbn [eqn_u eqn_v ew]. rewrite Hj, sqrt_0. ring.
Qed.

Lemma normal_rhs_zero_confidence (g : equation -> R) (f ox oy : R)
    (js1 js2 : list corr) (j : corr) :
  cC j = 0 ->
  normal_rhs g (equations f ox oy (js1 ++ j :: js2))
  = normal_rhs g (equations f ox oy (js1 ++ js2)).
Proof.
  intros Hj. unfold normal_rhs. rewrite !sumR_equations.
  rewrite !map_app, !sumR_app. cbn [map]. rewrite sumR_cons.
  cbn [eqn_u eqn_v ew]. rewrite Hj, sqrt_0. ring.
Qed.

(** X20.  A joint of confidence zero does not count: with finite data,
    [estimate_translation_np] returns the same, or raises [LinAlgError] all
    the same, when such a joint is added anywhere among the others. *)
Theorem estimate_translation_np_ignores_zero_confidence
    (js1 js2 : list corr) (j : corr) (f img0 img1 : R) :
  js1 ++ js2 <> [] ->
  Forall (fun j => 0 <= cC j) (js1 ++ js2) ->
  cC j = 0 ->
  estimate_translation_np (joints3d (js1 ++ j :: js2)) (joints2d (js1 ++ j :: js2))
    (confidences (js1 ++ j :: js2)) (fin f) (fin img0, fin img1)
  = estimate_translation_np (joints3d (js1 ++ js2)) (joints2d (js1 ++ js2))
      (confidences (js1 ++ js2)) (fin f) (fin img0, fin img1).
Proof.
  intros Hne Hc Hj. unfold estimate_translation_np.
  assert (Hne' : js1 ++ j :: js2 <> []) by (destruct js1; discriminate).
  assert (Hc' : Forall (fun j => 0 <= cC j) (js1 ++ j :: js2)).
  { apply Forall_app in Hc as [H1 H2]. apply Forall_app. split; [exact H1 |].
    constructor; [lra | exact H2]. }
  rewrite (normal_equations_fin (js1 ++ j :: js2) f img0 img1 Hne' Hc').
  rewrite (normal_equations_fin (js1 ++ js2) f img0 img1 Hne Hc).
  rewrite !(normal_entry_zero_confidence _ _ _ _ _ js1 js2 j Hj).
  rewrite !(normal_rhs_zero_confidence _ _ _ _ js1 js2 j Hj).
  reflexivity.
Qed.

Lemma estimate_translation_np_ignores_zero_confidence_witness :
  estimate_translation_np (joints3d ([ Corr 1 2 3 4 5 1 ] ++ Corr 9 9 9 9 9 0 :: []))
    (joints2d ([ Corr 1 2 3 4 5 1 ] ++ Corr 9 9 9 9 9 0 :: []))
    (confidences ([ Corr 1 2 3 4 5 1 ] ++ Corr 9 9 9 9 9 0 :: [])) (fin 5000)
    (fin 224, fin 224)
  = estimate_translation_np (joints3d ([ Corr 1 2 3 4 5 1 ] ++ []))
      (joints2d ([ Corr 1 2 3 4 5 1 ] ++ [])) (confidences ([ Corr 1 2 3 4 5 1 ] ++ []))
      (fin 5000) (fin 224, fin 224).
Proof.
  apply (estimate_translation_np_ignores_zero_confidence [ Corr 1 2 3 4 5 1 ] []
           (Corr 9 9 9 9 9 0) 5000 224 224).
  - discriminate.
  - repeat constructor. cbn [cC]. lra.
  - reflexivity.
Defined.

(** ** Translation for a batch *)

Lemma collect_ok {A : Type} (body : nat -> result A) (h : nat -> A) (range : list nat) :
  (forall i, In i range -> body i = inr (h i)) ->
  collect body range = inr (map h range).
Proof.
  induction range as [| i rest IH]; intros H; [reflexivity |].
  cbn [collect map]. rewrite (H i (or_introl eq_refl)). cbn [bind].
  rewrite IH by (intros k Hk; apply H; right; exact Hk). reflexivity.
Qed.

Lemma collect_error {A : Type} (body : nat -> result A) (h : nat -> A)
    (before after : list nat) (i : nat) (e : py_error) :
  (forall k, In k before -> body k = inr (h k)) ->
  body i = inl e ->
  collect body (before ++ i :: after) = inl e.
Proof.
  induction before as [| k rest IH]; intros H Hi.
  - cbn [app collect]. rewrite Hi. reflexivity.
  - cbn [app collect]. rewrite (H k (or_introl eq_refl)). cbn [bind].
    rewrite IH; [reflexivity | intros j Hj; apply H; right; exact Hj | exact Hi].
Qed.

Lemma index_map {A B : Type} (g : A -> B) (l : list A) (i : nat) (d : A) :
  (i < length l)%nat -> index (map g l) i = inr (g (nth i l d)).
Proof.
  intros Hi. unfold index. rewrite nth_error_map.
  rewrite (nth_error_nth' l d Hi). reflexivity.
Qed.

Lemma index_repeat {A : Type} (a : A) (n i : nat) :
  (i < n)%nat -> index (repeat a n) i = inr a.
Proof. intros Hi. unfold index. rewrite nth_error_repeat by exact Hi. reflexivity. Qed.

Lemma skipn_app_exact {A : Type} (n : nat) (l l' : list A) :
  length l = n -> skipn n (l ++ l') = l'.
Proof.
  intros <-. rewrite skipn_app, skipn_all, Nat.sub_diag. reflexivity.
Qed.

(** X21.  For a batch in which the joints from index 25 on are not on one
    line and are observed exactly with confidence one, a focal length that
    is not zero and a square image: [estimate_translation] without
    [use_all_kps] returns the translation of every item, whatever the first
    25 joints and observations are. *)
Theorem estimate_translation_recovers_batch (cases : list gt_case) (f sz : R) :
  f <> 0 ->
  Forall gt_case_ok cases ->
  estimate_translation (map gt_joints cases) (map (gt_observations f sz) cases)
    (FocalNumber (fin f)) (SizeNumber (fin sz)) false
  = inr (map (fun c => let '(tx, ty, tz) := gt_t c in [ fin tx; fin ty; fin tz ])
           cases).
Proof.
  intros Hf Hok. unfold estimate_translation. rewrite !length_map, !map_map.
  set (h := fun i => let '(tx, ty, tz) := gt_t (nth i cases empty_case) in
                     [ fin tx; fin ty; fin tz ]).
  rewrite (collect_ok _ h).
  - f_equal. transitivity (map (fun c => let '(tx, ty, tz) := gt_t c in
                                         [ fin tx; fin ty; fin tz ])
                             (map (fun i => nth i cases empty_case)
                                (seq 0 (length cases)))).
    + rewrite map_map. reflexivity.
    + rewrite map_nth_seq. reflexivity.
  - intros i Hi. apply in_seq in Hi. assert (Hlt : (i < length cases)%nat) by lia.
    unfold estimate_translation_item.
    rewrite !(index_map _ cases i empty_case Hlt). cbn [bind].
    rewrite !index_repeat by exact Hlt. cbn [bind].
    rewrite Forall_forall in Hok.
    pose proof (Hok _ (nth_In cases empty_case Hlt)) as (H3 & H2 & Hd & Hn).
    set (c := nth i cases empty_case) in *.
    unfold gt_joints, gt_observations, h. fold c.
    destruct (gt_t c) as [[tx ty] tz] eqn:Et. cbn [snd] in Hd.
    rewrite !skipn_app_exact by assumption.
    rewrite !map_map. cbn [fst snd].
    rewrite map_id.
    assert (Ec : map (fun _ : num * num => fin 1)
                     (exact_observations (gt_pts c) tx ty tz f sz sz)
                 = map (fun _ => fin 1) (gt_pts c)).
    { unfold exact_observations.
      cbn [perspective_projection length seq map nth].
      rewrite !map_map. reflexivity. }
    rewrite Ec.
    assert (Hne : gt_pts c <> []).
    { destruct Hn as (p & _ & _ & Hp & _). intros E. rewrite E in Hp. exact Hp. }
    destruct (normal_matrix_nonsingular (gt_pts c) tx ty tz f sz sz Hf Hd Hn)
      as (d & Ed & Hd0).
    rewrite (estimate_translation_nonsingular (gt_pts c) tx ty tz f sz sz Hne Hd);
      [reflexivity |].
    rewrite Ed. intros E. injection E as E. exact (Hd0 E).
Qed.

Lemma six_joints_case_ok :
  gt_case_ok (GtCase (repeat nan3 25) (repeat (None, None, None) 25) six_joints (0, 0, 1)).
Proof.
  unfold gt_case_ok. cbn [gt_pre3 gt_pre2 gt_pts gt_t snd].
  repeat split; try reflexivity.
  - exact six_joints_depth.
  - exact six_joints_non_collinear.
Qed.

Lemma estimate_translation_recovers_batch_witness :
  estimate_translation
    (map gt_joints
       [ GtCase (repeat nan3 25) (repeat (None, None, None) 25) six_joints (0, 0, 1) ])
    (map (gt_observations 1 0)
       [ GtCase (repeat nan3 25) (repeat (None, None, None) 25) six_joints (0, 0, 1) ])
    (FocalNumber (fin 1)) (SizeNumber (fin 0)) false
  = inr (map (fun c => let '(tx, ty, tz) := gt_t c in [ fin tx; fin ty; fin tz ])
           [ GtCase (repeat nan3 25) (repeat (None, None, None) 25) six_joints
               (0, 0, 1) ]).
Proof.
  apply (estimate_translation_recovers_batch
           [ GtCase (repeat nan3 25) (repeat (None, None, None) 25) six_joints
               (0, 0, 1) ] 1 0).
  - lra.
  - constructor; [exact six_joints_case_ok | constructor].
Defined.

(** Without [use_all_kps], [estimate_translation] does not read the
    first 25 joints and observations of an item: two batches that agree
    from index 25 on give the same result or the same exception. *)
Lemma estimate_translation_skips_25 (S_ S' : list (list vec3))
    (joints_2d joints' : list (list (num * num * num))) (focal_length : focal_arg)
    (img_size : size_arg) :
  map (skipn 25) S_ = map (skipn 25) S' ->
  map (skipn 25) joints_2d = map (skipn 25) joints' ->
  estimate_translation S_ joints_2d focal_length img_size false
  = estimate_translation S' joints' focal_length img_size false.
Proof.
  intros HS HJ. unfold estimate_translation.
  assert (HL : length S_ = length S').
  { rewrite <- (length_map (skipn 25) S_), HS, length_map. reflexivity. }
  rewrite HS, HJ, HL. reflexivity.
Qed.

Lemma estimate_translation_skips_25_witness :
  estimate_translation [ repeat nan3 25 ++ [ vec3_fin 1 2 3 ] ]
    [ repeat (None, None, None) 25 ++ [ (fin 4, fin 5, fin 1) ] ]
    (FocalNumber (fin 5000)) (SizeNumber (fin 224)) false
  = estimate_translation [ repeat (vec3_fin 0 0 0) 25 ++ [ vec3_fin 1 2 3 ] ]
      [ repeat (fin 7, fin 7, fin 7) 25 ++ [ (fin 4, fin 5, fin 1) ] ]
      (FocalNumber (fin 5000)) (SizeNumber (fin 224)) false.
Proof.
  apply (estimate_translation_skips_25
           [ repeat nan3 25 ++ [ vec3_fin 1 2 3 ] ]
           [ repeat (vec3_fin 0 0 0) 25 ++ [ vec3_fin 1 2 3 ] ]
           [ repeat (None, None, None) 25 ++ [ (fin 4, fin 5, fin 1) ] ]
           [ repeat (fin 7, fin 7, fin 7) 25 ++ [ (fin 4, fin 5, fin 1) ] ]);
    reflexivity.
Defined.

(** One item that cannot be solved *)
Lemma collect_one_error {A : Type} (body : nat -> result A) (range : list nat)
    (e : py_error) (i : nat) :
  (forall k, In k range -> (exists a, body k = inr a) \/ body k = inl e) ->
  In i range -> body i = inl e ->
  collect body range = inl e.
Proof.
  induction range as [| k rest IH]; intros H Hin Hi; [contradiction |].
  cbn [collect].
  destruct (H k (or_introl eq_refl)) as [(a & Ea) | Ee].
  - rewrite Ea. cbn [bind].
    destruct Hin as [-> | Hin]; [rewrite Hi in Ea; discriminate |].
    rewrite IH; [reflexivity | intros j Hj; apply H; right; exact Hj | exact Hin | exact Hi].
  - rewrite Ee. reflexivity.
Qed.

(** X22.  One item whose system cannot be solved makes the whole call
    raise [LinAlgError]: no translation is returned for the other items. *)
Theorem estimate_translation_one_singular (S_ : list (list vec3))
    (joints_2d : list (list (num * num * num))) (f sz : num) (i : nat)
    (S_i : list vec3) (joints_i : list (num * num * num)) :
  length joints_2d = length S_ ->
  nth_error S_ i = Some S_i ->
  nth_error joints_2d i = Some joints_i ->
  estimate_translation_np (skipn 25 S_i) (map fst (skipn 25 joints_i))
    (map snd (skipn 25 joints_i)) f (sz, sz) = None ->
  estimate_translation S_ joints_2d (FocalNumber f) (SizeNumber sz) false
  = inl LinAlgError.
Proof.
  intros HL HS HJ Hnp. unfold estimate_translation. rewrite length_map.
  pose proof (nth_error_Some_lt _ _ _ HS) as Hlt.
  apply (collect_one_error _ _ LinAlgError i).
  - intros k Hk. apply in_seq in Hk. assert (Hk' : (k < length S_)%nat) by lia.
    unfold estimate_translation_item.
    rewrite (index_map _ S_ k [] Hk'). cbn [bind].
    rewrite !map_map.
    rewrite (index_map _ joints_2d k []) by (rewrite HL; exact Hk'). cbn [bind].
    rewrite (index_map _ joints_2d k []) by (rewrite HL; exact Hk'). cbn [bind].
    rewrite !index_repeat by exact Hk'. cbn [bind].
    destruct (estimate_translation_np (skipn 25 (nth k S_ [])) _ _ _ _) as [t |];
      [left; exists t; reflexivity | right; reflexivity].
  - apply in_seq. lia.
  - unfold estimate_translation_item.
    rewrite (index_map _ S_ i [] Hlt). cbn [bind].
    rewrite !map_map.
    rewrite (index_map _ joints_2d i []) by (rewrite HL; exact Hlt). cbn [bind].
    rewrite (index_map _ joints_2d i []) by (rewrite HL; exact Hlt). cbn [bind].
    rewrite !index_repeat by exact Hlt. cbn [bind].
    rewrite (nth_error_nth _ _ _ HS), (nth_error_nth _ _ _ HJ).
    rewrite Hnp. reflexivity.
Qed.

Lemma single_joint_singular :
  estimate_translation_np (skipn 25 (repeat nan3 25 ++ [ vec3_fin 1 2 3 ]))
    (map fst (skipn 25 (repeat (None, None, None) 25 ++ [ (fin 4, fin 5, fin 1) ])))
    (map snd (skipn 25 (repeat (None, None, None) 25 ++ [ (fin 4, fin 5, fin 1) ])))
    (fin 5000) (fin 224, fin 224)
  = None.
Proof.
  apply (coincident_singular [ Corr 1 2 3 4 5 1 ] 5000 224 224 4 5).
  - discriminate.
  - repeat constructor. cbn [cC]. lra.
Qed.

Lemma estimate_translation_one_singular_witness :
  estimate_translation
    [ repeat nan3 25 ++ [ vec3_fin 1 2 3 ] ]
    [ repeat (None, None, None) 25 ++ [ (fin 4, fin 5, fin 1) ] ]
    (FocalNumber (fin 5000)) (SizeNumber (fin 224)) false
  = inl LinAlgError.
Proof.
  apply (estimate_translation_one_singular
           [ repeat nan3 25 ++ [ vec3_fin 1 2 3 ] ]
           [ repeat (None, None, None) 25 ++ [ (fin 4, fin 5, fin 1) ] ]
           (fin 5000) (fin 224) 0
           (repeat nan3 25 ++ [ vec3_fin 1 2 3 ])
           (repeat (None, None, None) 25 ++ [ (fin 4, fin 5, fin 1) ]));
    try reflexivity.
  exact single_joint_singular.
Defined.

(** ** The 6D representation: what comes out is a rotation *)

Lemma normalize_fin (x y z : R) :
  let n := norm3R x y z in
  1e-12 <= n ->
  Torch.normalize (vec3_fin x y z) = vec3_fin (x / n) (y / n) (z / n).
Proof.
  intros n Hn. unfold Torch.normalize. rewrite norm3_fin.
  fold (norm3R x y z). fold n.
  change (Num.max (fin n) (fin 1e-12)) with (fin (Rmax n 1e-12)).
  rewrite Rmax_left by exact Hn.
  unfold vec3_fin, vec3_map. cbn [vx vy vz].
  rewrite !div_fin by lra. reflexivity.
Qed.

Lemma unit_scaled (x y z : R) :
  let n := norm3R x y z in
  0 < n -> x / n * (x / n) + y / n * (y / n) + z / n * (z / n) = 1.
Proof. intros n Hn. exact (unit_of_axis x y z Hn). Qed.

(** Two orthonormal vectors and their cross product are the columns of a
    rotation. *)
Lemma frame_rotation (p1 p2 p3 q1 q2 q3 : R) :
  p1 * p1 + p2 * p2 + p3 * p3 = 1 ->
  q1 * q1 + q2 * q2 + q3 * q3 = 1 ->
  p1 * q1 + p2 * q2 + p3 * q3 = 0 ->
  is_rotation (RM p1 q1 (p2 * q3 - p3 * q2)
                  p2 q2 (p3 * q1 - p1 * q3)
                  p3 q3 (p1 * q2 - p2 * q1)).
Proof.
  intros Hp Hq Hpq.
  assert (L : (p2 * q3 - p3 * q2) * (p2 * q3 - p3 * q2)
              + (p3 * q1 - p1 * q3) * (p3 * q1 - p1 * q3)
              + (p1 * q2 - p2 * q1) * (p1 * q2 - p2 * q1) = 1).
  { replace ((p2 * q3 - p3 * q2) * (p2 * q3 - p3 * q2)
             + (p3 * q1 - p1 * q3) * (p3 * q1 - p1 * q3)
             + (p1 * q2 - p2 * q1) * (p1 * q2 - p2 * q1))
      with ((p1 * p1 + p2 * p2 + p3 * p3) * (q1 * q1 + q2 * q2 + q3 * q3)
            - (p1 * q1 + p2 * q2 + p3 * q3) * (p1 * q1 + p2 * q2 + p3 * q3)) by ring.
    rewrite Hp, Hq, Hpq. ring. }
  split; unfold rdet; cbn [r00 r01 r02 r10 r11 r12 r20 r21 r22];
    try assumption; try ring.
  rewrite <- L. ring.
Qed.

Lemma rot6d_item_gram_schmidt (a : (R * R * R) * (R * R * R)) :
  gram_schmidt_ok a ->
  exists m : rmat, rot6d_item (chunk 2 (six_of a)) = tensor_of m /\ is_rotation m.
Proof.
  destruct a as [[[x1 y1] z1] [[x2 y2] z2]].
  unfold gram_schmidt_ok. cbn [fst residual norm3R3].
  set (n := norm3R x1 y1 z1).
  set (d := x1 / n * x2 + y1 / n * y2 + z1 / n * z2).
  set (n2 := norm3R (x2 - d * (x1 / n)) (y2 - d * (y1 / n)) (z2 - d * (z1 / n))).
  intros [Hn Hn2].
  assert (U1 : x1 / n * (x1 / n) + y1 / n * (y1 / n) + z1 / n * (z1 / n) = 1)
    by (apply unit_scaled; fold n; lra).
  set (p1 := x1 / n) in *. set (p2 := y1 / n) in *. set (p3 := z1 / n) in *.
  set (u1 := x2 - d * p1) in *. set (u2 := y2 - d * p2) in *.
  set (u3 := z2 - d * p3) in *.
  assert (U2 : u1 / n2 * (u1 / n2) + u2 / n2 * (u2 / n2) + u3 / n2 * (u3 / n2) = 1)
    by (apply unit_scaled; fold n2; lra).
  assert (O : p1 * (u1 / n2) + p2 * (u2 / n2) + p3 * (u3 / n2) = 0).
  { replace (p1 * (u1 / n2) + p2 * (u2 / n2) + p3 * (u3 / n2))
      with ((p1 * u1 + p2 * u2 + p3 * u3) / n2) by (field; lra).
    replace (p1 * u1 + p2 * u2 + p3 * u3)
      with (d - d * (p1 * p1 + p2 * p2 + p3 * p3)) by (unfold u1, u2, u3, d; ring).
    rewrite U1. unfold Rdiv. ring. }
  exists (RM p1 (u1 / n2) (p2 * (u3 / n2) - p3 * (u2 / n2))
             p2 (u2 / n2) (p3 * (u1 / n2) - p1 * (u3 / n2))
             p3 (u3 / n2) (p1 * (u2 / n2) - p2 * (u1 / n2))).
  split; [| apply frame_rotation; assumption].
  change (chunk 2 (six_of (x1, y1, z1, (x2, y2, z2))))
    with [ [ fin x1; fin x2 ]; [ fin y1; fin y2 ]; [ fin z1; fin z2 ] ].
  unfold rot6d_item. cbn [ix nth].
  fold (vec3_fin x1 y1 z1). fold (vec3_fin x2 y2 z2).
  rewrite (normalize_fin x1 y1 z1) by (fold n; exact Hn). fold n p1 p2 p3.
  change (vec3_map2 Num.sub (vec3_fin x2 y2 z2)
            (vec3_map (fun a => (Torch.dot3 (vec3_fin p1 p2 p3) (vec3_fin x2 y2 z2) * a)%num)
               (vec3_fin p1 p2 p3)))
    with (vec3_fin (x2 - (p1 * x2 + p2 * y2 + p3 * z2) * p1)
                   (y2 - (p1 * x2 + p2 * y2 + p3 * z2) * p2)
                   (z2 - (p1 * x2 + p2 * y2 + p3 * z2) * p3)).
  fold d u1 u2 u3.
  rewrite (normalize_fin u1 u2 u3) by (fold n2; exact Hn2). fold n2.
  reflexivity.
Qed.

Lemma rot6d_rank2_rotations (l : list ((R * R * R) * (R * R * R))) :
  Forall gram_schmidt_ok l ->
  exists ms : list rmat,
    rot6d_to_rotmat (Rank2 (map six_of l)) = Mats (map tensor_of ms)
    /\ Forall is_rotation ms.
Proof.
  intros H.
  assert (G : exists ms, map rot6d_item (map (chunk 2) (map six_of l)) = map tensor_of ms
                         /\ Forall is_rotation ms).
  { induction H as [| a l Ha Hl IH].
    - exists []. split; [reflexivity | constructor].
    - destruct IH as (ms & E & F).
      destruct (rot6d_item_gram_schmidt a Ha) as (m & Em & Rm).
      exists (m :: ms). split; [cbn [map]; rewrite Em, E; reflexivity |].
      constructor; assumption. }
  destruct G as (ms & E & F). exists ms. split; [| exact F].
  destruct l as [| a l'].
  - destruct ms; [reflexivity | discriminate E].
  - unfold rot6d_to_rotmat.
    assert (L : last_dim (Rank2 (map six_of (a :: l'))) = 6%nat).
    { destruct a as [[[x1 y1] z1] [[x2 y2] z2]]. reflexivity. }
    rewrite L. cbn [Nat.eqb fst snd Nat.ltb Nat.leb].
    rewrite E. reflexivity.
Qed.

(** X23.  For every batch of finite rows in which [a1] and what is left of
    [a2] without its part along [a1] have a length of at least [1e-12],
    [rot6d_to_rotmat] returns proper rotations. *)
Theorem rot6d_to_rotmat_gives_rotations (l : list ((R * R * R) * (R * R * R))) :
  Forall gram_schmidt_ok l ->
  exists ms : list rmat,
    rot6d_to_rotmat (Rank2 (map six_of l)) = Mats (map tensor_of ms)
    /\ Forall is_rotation ms.
Proof. apply rot6d_rank2_rotations. Qed.

Lemma gram_schmidt_example : gram_schmidt_ok ((1, 0, 0), (5, 1, 0)).
Proof.
  assert (N1 : norm3R 1 0 0 = 1).
  { unfold norm3R. replace (1 * 1 + 0 * 0 + 0 * 0) with 1 by ring. apply sqrt_1. }
  unfold gram_schmidt_ok. cbn [fst residual norm3R3]. rewrite N1. split; [lra |].
  replace (5 - (1 / 1 * 5 + 0 / 1 * 1 + 0 / 1 * 0) * (1 / 1)) with 0 by field.
  replace (1 - (1 / 1 * 5 + 0 / 1 * 1 + 0 / 1 * 0) * (0 / 1)) with 1 by field.
  replace (0 - (1 / 1 * 5 + 0 / 1 * 1 + 0 / 1 * 0) * (0 / 1)) with 0 by field.
  unfold norm3R. replace (0 * 0 + 1 * 1 + 0 * 0) with 1 by ring. rewrite sqrt_1. lra.
Qed.

Lemma rot6d_to_rotmat_gives_rotations_witness :
  exists ms : list rmat,
    rot6d_to_rotmat (Rank2 (map six_of [ ((1, 0, 0), (5, 1, 0)) ]))
    = Mats (map tensor_of ms)
    /\ Forall is_rotation ms.
Proof.
  apply (rot6d_to_rotmat_gives_rotations [ ((1, 0, 0), (5, 1, 0)) ]).
  constructor; [exact gram_schmidt_example | constructor].
Defined.

(** *** Twice is once *)

Lemma rot6d_items_of_rotations (Rs : list rmat) :
  Forall is_rotation Rs ->
  map rot6d_item (map (chunk 2) (rotmat_to_rot6d (map tensor_of Rs)))
  = map tensor_of Rs.
Proof.
  intros H. unfold rotmat_to_rot6d. rewrite !map_map.
  apply map_ext_in. intros m Hin.
  apply rot6d_item_rotation. rewrite Forall_forall in H. exact (H m Hin).
Qed.

Lemma last_dim_rot6d (m : rmat) (Rs : list rmat) :
  last_dim (Rank2 (rotmat_to_rot6d (map tensor_of (m :: Rs)))) = 6%nat.
Proof. reflexivity. Qed.

(** X24.  What [rot6d_to_rotmat] returns is a fixed point: turned back
    into six numbers by [rotmat_to_rot6d] and into matrices again, it is the
    same batch of matrices. *)
Theorem rot6d_to_rotmat_idempotent (l : list ((R * R * R) * (R * R * R)))
    (M : list matrix) :
  Forall gram_schmidt_ok l ->
  rot6d_to_rotmat (Rank2 (map six_of l)) = Mats M ->
  rot6d_to_rotmat (Rank2 (rotmat_to_rot6d M)) = Mats M.
Proof.
  intros H E.
  destruct (rot6d_rank2_rotations l H) as (ms & Ems & F).
  rewrite E in Ems. injection Ems as ->.
  destruct ms as [| m ms']; [reflexivity |].
  unfold rot6d_to_rotmat. rewrite last_dim_rot6d.
  cbn [Nat.eqb fst snd Nat.ltb Nat.leb].
  rewrite rot6d_items_of_rotations by exact F. reflexivity.
Qed.

Lemma rot6d_to_rotmat_idempotent_witness :
  rot6d_to_rotmat
    (Rank2 (rotmat_to_rot6d
              (match rot6d_to_rotmat (Rank2 (map six_of [ ((1, 0, 0), (5, 1, 0)) ])) with
               | Mats M => M
               | MatGroups _ => []
               end)))
  = Mats (match rot6d_to_rotmat (Rank2 (map six_of [ ((1, 0, 0), (5, 1, 0)) ])) with
          | Mats M => M
          | MatGroups _ => []
          end).
Proof.
  apply (rot6d_to_rotmat_idempotent [ ((1, 0, 0), (5, 1, 0)) ]).
  - constructor; [exact gram_schmidt_example | constructor].
  - reflexivity.
Defined.

(** *** Groups of rows *)

Lemma chunk_aux_step {A : Type} (n fuel : nat) (l : list A) :
  l <> [] ->
  chunk_aux (S fuel) n l = firstn n l :: chunk_aux fuel n (skipn n l).
Proof. destruct l; [contradiction | reflexivity]. Qed.

Lemma chunk_aux_concat {A : Type} (n fuel : nat) (g : list (list A)) :
  (0 < n)%nat -> Forall (fun x => length x = n) g -> (length g <= fuel)%nat ->
  chunk_aux fuel n (concat g) = g.
Proof.
  intros Hn H. revert fuel. induction H as [| x g Hx Hg IH]; intros fuel Hf.
  - destruct fuel; reflexivity.
  - cbn [length] in Hf. destruct fuel as [| fuel]; [lia |].
    cbn [concat].
    rewrite chunk_aux_step by (destruct x; [cbn in Hx; lia | discriminate]).
    assert (E2 : firstn n (x ++ concat g) = x).
    { rewrite firstn_app, Hx, Nat.sub_diag, firstn_O, app_nil_r.
      rewrite <- Hx. apply firstn_all. }
    assert (E3 : skipn n (x ++ concat g) = concat g).
    { rewrite skipn_app, Hx, Nat.sub_diag. rewrite <- Hx, skipn_all. reflexivity. }
    rewrite E2, E3. f_equal. apply IH. lia.
Qed.

Lemma length_concat_ge {A : Type} (n : nat) (g : list (list A)) :
  (0 < n)%nat -> Forall (fun x => length x = n) g -> (length g <= length (concat g))%nat.
Proof.
  intros Hn H. induction H as [| x g Hx Hg IH]; [reflexivity |].
  cbn [concat length]. rewrite length_app. lia.
Qed.

Lemma chunk_concat {A : Type} (n : nat) (g : list (list A)) :
  (0 < n)%nat -> Forall (fun x => length x = n) g -> chunk n (concat g) = g.
Proof.
  intros Hn H. unfold chunk. apply chunk_aux_concat; [exact Hn | exact H |].
  apply length_concat_ge with n; assumption.
Qed.

(** X25.  For a [(B,N,6)] tensor, [rot6d_to_rotmat] returns for every item
    the matrices of its [N] rows, as [B] groups of [N] matrices when [N] is
    greater than one; when [N] is one the result is a batch of [B] matrices
    with no dimension for the groups. *)
Theorem rot6d_to_rotmat_groups (N : nat) (g : list (list (list num))) :
  g <> [] ->
  Forall (fun rows => length rows = N /\ Forall (fun r => length r = 6%nat) rows) g ->
  (0 < N)%nat ->
  rot6d_to_rotmat (Rank3 g)
  = if Nat.ltb 1 N then MatGroups (map rows_to_mats g)
    else Mats (concat (map rows_to_mats g)).
Proof.
  intros Hne H HN.
  destruct g as [| rows g']; [contradiction |].
  pose proof (Forall_inv H) as [HL H6].
  assert (Hd : last_dim (Rank3 (rows :: g')) = 6%nat).
  { cbn [last_dim hd]. destruct rows as [| r rows']; [cbn in HL; lia |].
    cbn [hd]. exact (Forall_inv H6). }
  unfold rot6d_to_rotmat. rewrite Hd. cbn [Nat.eqb fst snd hd]. rewrite HL.
  set (G := rows :: g') in *.
  assert (E : map rot6d_item (map (chunk 2) (concat G)) = concat (map rows_to_mats G)).
  { unfold rows_to_mats. rewrite !concat_map, !map_map. reflexivity. }
  rewrite E.
  destruct (Nat.ltb 1 N) eqn:EN; [| reflexivity].
  f_equal. apply chunk_concat; [exact HN |].
  apply Forall_forall. intros ms Hms. apply in_map_iff in Hms as (rs & <- & Hrs).
  unfold rows_to_mats. rewrite !length_map.
  rewrite Forall_forall in H. exact (proj1 (H rs Hrs)).
Qed.

Lemma rot6d_to_rotmat_groups_witness :
  rot6d_to_rotmat
    (Rank3 [ [ six_of ((1, 0, 0), (5, 1, 0)); six_of ((1, 0, 0), (0, 1, 0)) ] ])
  = if Nat.ltb 1 2
    then MatGroups
           (map rows_to_mats
              [ [ six_of ((1, 0, 0), (5, 1, 0)); six_of ((1, 0, 0), (0, 1, 0)) ] ])
    else Mats
           (concat
              (map rows_to_mats
                 [ [ six_of ((1, 0, 0), (5, 1, 0)); six_of ((1, 0, 0), (0, 1, 0)) ] ])).
Proof.
  apply (rot6d_to_rotmat_groups 2
           [ [ six_of ((1, 0, 0), (5, 1, 0)); six_of ((1, 0, 0), (0, 1, 0)) ] ]).
  - discriminate.
  - repeat constructor.
  - lia.
Defined.

(** ** The twist rotation *)

Lemma rq_real_part (m : rmat) :
  is_rotation m ->
  4 * (fst (fst (fst (rq m))) * fst (fst (fst (rq m)))) = 1 + r00 m + r11 m + r22 m.
Proof.
  intros Hm. destruct (rq_unit_qmat m Hm) as [U Q].
  destruct (rq m) as [[[w x] y] z]. cbn [fst norm_sq4 qmat4] in *.
  rewrite <- Q. unfold qmat. cbn [r00 r11 r22]. lra.
Qed.

(** A rotation about an axis leaves the axis where it is. *)
Lemma qmat_fixes_axis (w g ax ay az : R) :
  w * w + g * ax * (g * ax) + g * ay * (g * ay) + g * az * (g * az) = 1 ->
  rapply (qmat w (g * ax) (g * ay) (g * az)) (ax, ay, az) = (ax, ay, az).
Proof.
  intros U. unfold rapply, qmat. cbn [r00 r01 r02 r10 r11 r12 r20 r21 r22].
  apply tuple3_eq.
  - replace ax with ((w * w + g * ax * (g * ax) + g * ay * (g * ay) + g * az * (g * az)) * ax)
      at 6 by (rewrite U; ring). ring.
  - replace ay with ((w * w + g * ax * (g * ax) + g * ay * (g * ay) + g * az * (g * az)) * ay)
      at 6 by (rewrite U; ring). ring.
  - replace az with ((w * w + g * ax * (g * ax) + g * ay * (g * ay) + g * az * (g * az)) * az)
      at 6 by (rewrite U; ring). ring.
Qed.

Lemma twist_rotation_fixes_axis1 (m : rmat) (a : R * R * R) :
  is_rotation m ->
  r00 m + r11 m + r22 m <> - 1 ->
  exists m' : rmat,
    fst (compute_twist_rotation1 (tensor_of m) (vec3_fin3 a)) = tensor_of m'
    /\ is_rotation m'
    /\ rapply m' a = a.
Proof.
  intros Hm Htr. pose proof (rq_real_part m Hm) as Hw.
  rewrite compute_twist_rotation1_fin. cbn [fst].
  destruct a as [[ax ay] az]. cbn [twist_axisR].
  pose proof (twist_axis_norm_pos ax ay az) as Hn.
  set (n := norm3R ax ay az + 1e-9) in *.
  destruct (rq m) as [[[w x] y] z]. cbn [fst] in Hw. cbn [twist_quatR].
  assert (Hw0 : w <> 0) by (intros E; rewrite E in Hw; apply Htr; lra).
  set (d := ax / n * x + ay / n * y + az / n * z).
  set (s := sqrt (w * w + d * (ax / n) * (d * (ax / n)) + d * (ay / n) * (d * (ay / n))
                  + d * (az / n) * (d * (az / n)))).
  assert (Hs : 0 <= s) by apply sqrt_pos.
  set (k := s + 1e-9). assert (Hk : 0 < k) by (unfold k; lra).
  rewrite quaternion_to_rotation_matrix1_same. cbn [quat_fin4].
  set (W := w / k). set (g0 := d / n / k).
  assert (EX : d * (ax / n) / k = g0 * ax) by (unfold g0; field; lra).
  assert (EY : d * (ay / n) / k = g0 * ay) by (unfold g0; field; lra).
  assert (EZ : d * (az / n) / k = g0 * az) by (unfold g0; field; lra).
  rewrite EX, EY, EZ.
  set (S2 := W * W + g0 * ax * (g0 * ax) + g0 * ay * (g0 * ay) + g0 * az * (g0 * az)).
  assert (HW : W <> 0).
  { unfold W. unfold Rdiv. apply Rmult_integral_contrapositive_currified;
      [exact Hw0 | apply Rinv_neq_0_compat; lra]. }
  assert (HS2 : 0 < S2) by (unfold S2; nra).
  set (N := sqrt S2). assert (HN : 0 < N) by (apply sqrt_lt_R0; exact HS2).
  assert (HNN : N * N = S2) by (apply sqrt_sqrt; lra).
  rewrite quat_to_rotmat1_fin by (fold S2 N; lra). fold S2 N.
  replace (g0 * ax / N) with (g0 / N * ax) by (field; lra).
  replace (g0 * ay / N) with (g0 / N * ay) by (field; lra).
  replace (g0 * az / N) with (g0 / N * az) by (field; lra).
  assert (U : W / N * (W / N) + g0 / N * ax * (g0 / N * ax) + g0 / N * ay * (g0 / N * ay)
              + g0 / N * az * (g0 / N * az) = 1).
  { replace (W / N * (W / N) + g0 / N * ax * (g0 / N * ax) + g0 / N * ay * (g0 / N * ay)
             + g0 / N * az * (g0 / N * az)) with (S2 / (N * N)) by (unfold S2; field; lra).
    rewrite HNN. field. lra. }
  eexists. split; [reflexivity |]. split.
  - apply qmat_rotation. exact U.
  - apply qmat_fixes_axis. exact U.
Qed.

(** X26.  For every batch of proper rotations that are not half turns
    (their trace is not [-1]) and finite twist axes, the zero axis among
    them, the twist rotation that [compute_twist_rotation] returns is a
    proper rotation and leaves the twist axis where it is. *)
Theorem twist_rotation_fixes_axis (l : list (rmat * (R * R * R))) :
  Forall (fun p => is_rotation (fst p) /\ r00 (fst p) + r11 (fst p) + r22 (fst p) <> - 1) l ->
  exists ms : list rmat,
    fst (compute_twist_rotation (map (fun p => tensor_of (fst p)) l)
           (map (fun p => vec3_fin3 (snd p)) l))
    = map tensor_of ms
    /\ Forall is_rotation ms
    /\ Forall2 (fun m' p => rapply m' (snd p) = snd p) ms l.
Proof.
  intros H. rewrite compute_twist_rotation_map. cbn [fst].
  induction H as [| [m a] l [Hm Ht] Hl IH].
  - exists []. repeat split; constructor.
  - destruct IH as (ms & E & F & G). cbn [fst snd] in *.
    destruct (twist_rotation_fixes_axis1 m a Hm Ht) as (m' & Em & Rm & Fm).
    exists (m' :: ms). cbn [map fst snd]. rewrite Em, E.
    repeat split; constructor; assumption.
Qed.

(** *** A half turn about a perpendicular axis *)

Lemma twist_perpendicular_half_turn1 (ux uy uz ax ay az : R) :
  ux * ux + uy * uy + uz * uz = 1 ->
  ax * ux + ay * uy + az * uz = 0 ->
  fst (compute_twist_rotation1 (tensor_of (rotation_about ux uy uz PI)) (vec3_fin ax ay az))
  = nan_matrix.
Proof.
  intros Hu Hp.
  rewrite (rotation_about_qmat ux uy uz PI Hu), cos_PI2, sin_PI2.
  assert (Hq : 0 * 0 + 1 * ux * (1 * ux) + 1 * uy * (1 * uy) + 1 * uz * (1 * uz) = 1) by lra.
  destruct (rq_qmat_sign 0 (1 * ux) (1 * uy) (1 * uz) Hq) as (e & He & Erq).
  change (vec3_fin ax ay az) with (vec3_fin3 (ax, ay, az)).
  rewrite compute_twist_rotation1_fin, Erq. cbn [fst twist_axisR twist_quatR].
  pose proof (twist_axis_norm_pos ax ay az) as Hn.
  set (n := norm3R ax ay az + 1e-9) in *.
  assert (Hd : ax / n * (e * (1 * ux)) + ay / n * (e * (1 * uy)) + az / n * (e * (1 * uz)) = 0).
  { replace (ax / n * (e * (1 * ux)) + ay / n * (e * (1 * uy)) + az / n * (e * (1 * uz)))
      with (e * (ax * ux + ay * uy + az * uz) / n) by (field; lra).
    rewrite Hp. unfold Rdiv. ring. }
  rewrite Hd.
  set (k := sqrt _ + 1e-9).
  rewrite quaternion_to_rotation_matrix1_same. cbn [quat_fin4].
  apply quat_to_rotmat1_zero_norm.
  replace (e * 0 / k * (e * 0 / k) + 0 * (ax / n) / k * (0 * (ax / n) / k)
           + 0 * (ay / n) / k * (0 * (ay / n) / k) + 0 * (az / n) / k * (0 * (az / n) / k))
    with 0 by (unfold Rdiv; ring).
  apply sqrt_0.
Qed.

(** X27.  The twist of a half turn about a unit axis [u], for a finite
    twist axis perpendicular to [u]: the twist quaternion is zero and the
    twist rotation that [compute_twist_rotation] returns is all NaN. *)
Theorem twist_perpendicular_half_turn (l : list ((R * R * R) * (R * R * R))) :
  Forall (fun p => let '((ux, uy, uz), (ax, ay, az)) := p in
                   ux * ux + uy * uy + uz * uz = 1
                   /\ ax * ux + ay * uy + az * uz = 0) l ->
  fst (compute_twist_rotation
         (map (fun p => let '(ux, uy, uz) := fst p in
                        tensor_of (rotation_about ux uy uz PI)) l)
         (map (fun p => vec3_fin3 (snd p)) l))
  = map (fun _ => nan_matrix) l.
Proof.
  intros H. rewrite compute_twist_rotation_map. cbn [fst].
  apply map_ext_in. intros [[[ux uy] uz] [[ax ay] az]] Hin.
  rewrite Forall_forall in H. destruct (H _ Hin) as [Hu Hp]. cbn [fst snd vec3_fin3].
  apply twist_perpendicular_half_turn1; assumption.
Qed.

Lemma twist_perpendicular_half_turn_witness :
  fst (compute_twist_rotation
         (map (fun p => let '(ux, uy, uz) := fst p in
                        tensor_of (rotation_about ux uy uz PI))
            [ ((1, 0, 0), (0, 2, 3)) ])
         (map (fun p => vec3_fin3 (snd p)) [ ((1, 0, 0), (0, 2, 3)) ]))
  = map (fun _ => nan_matrix) [ ((1, 0, 0), (0, 2, 3)) ].
Proof.
  apply (twist_perpendicular_half_turn [ ((1, 0, 0), (0, 2, 3)) ]).
  repeat constructor; lra.
Defined.

Lemma rot_z90_trace : r00 rot_z90 + r11 rot_z90 + r22 rot_z90 <> - 1.
Proof. unfold rot_z90. cbn [r00 r11 r22]. lra. Qed.

Lemma twist_rotation_fixes_axis_witness :
  exists ms : list rmat,
    fst (compute_twist_rotation (map (fun p => tensor_of (fst p)) [ (rot_z90, (1, 2, 3)) ])
           (map (fun p => vec3_fin3 (snd p)) [ (rot_z90, (1, 2, 3)) ]))
    = map tensor_of ms
    /\ Forall is_rotation ms
    /\ Forall2 (fun m' p => rapply m' (snd p) = snd p) ms [ (rot_z90, (1, 2, 3)) ].
Proof.
  apply (twist_rotation_fixes_axis [ (rot_z90, (1, 2, 3)) ]).
  constructor; [| constructor]. cbn [fst].
  split; [exact rot_z90_rotation | exact rot_z90_trace].
Defined.

(** ** The constants *)

Lemma is_flipb_sound (p : list nat) : is_flipb p = true -> is_flip p.
Proof.
  unfold is_flipb, is_flip. intros H. rewrite forallb_forall in H.
  assert (B : forall i, (i < length p)%nat ->
                (nth i p 0 < length p)%nat /\ nth (nth i p 0%nat) p 0%nat = i).
  { intros i Hi. specialize (H i ltac:(apply in_seq; lia)).
    apply andb_prop in H as [H1 H2].
    apply Nat.ltb_lt in H1. apply Nat.eqb_eq in H2. split; assumption. }
  split; [| intros i Hi; exact (proj2 (B i Hi))].
  assert (E : p = map (fun i => nth i p 0%nat) (seq 0 (length p)))
    by (symmetry; apply map_nth_seq).
  apply NoDup_Permutation_bis.
  - rewrite E. apply Finite.Injective_map_NoDup_in; [| apply seq_NoDup].
    intros i j Hi Hj Hij. apply in_seq in Hi, Hj.
    rewrite <- (proj2 (B i ltac:(lia))), <- (proj2 (B j ltac:(lia))), Hij.
    reflexivity.
  - rewrite length_seq. reflexivity.
  - intros x Hx. apply (In_nth _ _ 0%nat) in Hx as (i & Hi & <-).
    apply in_seq. pose proof (proj1 (B i Hi)). lia.
Qed.

(** *** The loop of the pose parameters *)

Lemma pose_flip_loop_flat_map (perm acc : list nat) :
  fold_left
    (fun acc i => app (app (app acc [ 3 * i ]) [ 3 * i + 1 ]) [ 3 * i + 2 ])%nat
    perm acc
  = acc ++ flat_map (fun i => [ 3 * i; 3 * i + 1; 3 * i + 2 ])%nat perm.
Proof.
  revert acc. induction perm as [| i perm IH]; intros acc; cbn [fold_left flat_map].
  - rewrite app_nil_r. reflexivity.
  - rewrite IH. rewrite <- !app_assoc. reflexivity.
Qed.

Lemma pose_flip_loop_nth (perm : list nat) (i r : nat) :
  (i < length perm)%nat -> (r < 3)%nat ->
  nth (3 * i + r) (Constants.pose_flip_loop perm) 0%nat = (3 * nth i perm 0 + r)%nat.
Proof.
  unfold Constants.pose_flip_loop. rewrite pose_flip_loop_flat_map. cbn [app].
  revert i. induction perm as [| j perm IH]; intros i Hi Hr; [cbn in Hi; lia |].
  cbn [flat_map length] in *. destruct i as [| i].
  - destruct r as [| [| [| r]]]; try lia; cbn [Nat.mul Nat.add app nth]; lia.
  - replace (3 * S i + r)%nat with (S (S (S (3 * i + r)))) by lia.
    cbn [app nth]. apply IH; lia.
Qed.

Lemma pose_flip_loop_length (perm : list nat) :
  length (Constants.pose_flip_loop perm) = (3 * length perm)%nat.
Proof.
  unfold Constants.pose_flip_loop. rewrite pose_flip_loop_flat_map. cbn [app].
  induction perm as [| j perm IH]; [reflexivity |].
  cbn [flat_map length app]. rewrite IH. lia.
Qed.

Lemma is_flip_bounds (p : list nat) (i : nat) :
  is_flip p -> (i < length p)%nat -> (nth i p 0 < length p)%nat.
Proof.
  intros [P _] Hi.
  assert (In (nth i p 0%nat) (seq 0 (length p))).
  { apply (Permutation_in _ P). apply nth_In. exact Hi. }
  apply in_seq in H. lia.
Qed.

Lemma is_flip_of_bounds (p : list nat) :
  (forall i, (i < length p)%nat ->
     (nth i p 0 < length p)%nat /\ nth (nth i p 0%nat) p 0%nat = i) ->
  is_flip p.
Proof.
  intros B. apply is_flipb_sound. unfold is_flipb. apply forallb_forall.
  intros i Hi. apply in_seq in Hi. destruct (B i ltac:(lia)) as [B1 B2].
  apply andb_true_intro. split; [apply Nat.ltb_lt; exact B1 | apply Nat.eqb_eq; exact B2].
Qed.

Lemma pose_flip_loop_flip (perm : list nat) :
  is_flip perm -> is_flip (Constants.pose_flip_loop perm).
Proof.
  intros Hp. apply is_flip_of_bounds. rewrite pose_flip_loop_length.
  intros k Hk.
  assert (Ek : k = (3 * (k / 3) + k mod 3)%nat) by (apply Nat.div_mod_eq).
  assert (Hq : (k / 3 < length perm)%nat) by (apply Nat.Div0.div_lt_upper_bound; lia).
  assert (Hr : (k mod 3 < 3)%nat) by (apply Nat.mod_upper_bound; lia).
  set (q := (k / 3)%nat) in *. set (r := (k mod 3)%nat) in *.
  rewrite Ek at 1 2. rewrite pose_flip_loop_nth by assumption.
  pose proof (is_flip_bounds perm q Hp Hq) as Hb.
  split; [lia |].
  rewrite pose_flip_loop_nth by assumption.
  rewrite (proj2 Hp q Hq). lia.
Qed.

(** X28.  The loop that builds [SMPL_POSE_FLIP_PERM] turns every table of
    joints that is a permutation and its own inverse into a table of pose
    parameters, three times as long, that is again a permutation and its own
    inverse, and that sends parameter [r] of joint [i] to parameter [r] of
    the joint that [i] is flipped to. *)
Theorem pose_flip_loop_is_flip (perm : list nat) :
  is_flip perm ->
  is_flip (Constants.pose_flip_loop perm)
  /\ length (Constants.pose_flip_loop perm) = (3 * length perm)%nat
  /\ forall i r : nat, (i < length perm)%nat -> (r < 3)%nat ->
       nth (3 * i + r) (Constants.pose_flip_loop perm) 0%nat
       = (3 * nth i perm 0 + r)%nat.
Proof.
  intros H. split; [exact (pose_flip_loop_flip perm H) |].
  split; [apply pose_flip_loop_length |].
  intros i r. apply pose_flip_loop_nth.
Qed.

Lemma smpl_joints_flip : is_flip Constants.SMPL_JOINTS_FLIP_PERM.
Proof. apply is_flipb_sound. vm_compute. reflexivity. Qed.

Lemma pose_flip_loop_is_flip_witness :
  is_flip Constants.SMPL_POSE_FLIP_PERM
  /\ length Constants.SMPL_POSE_FLIP_PERM
     = (3 * length Constants.SMPL_JOINTS_FLIP_PERM)%nat
  /\ forall i r : nat,
       (i < length Constants.SMPL_JOINTS_FLIP_PERM)%nat -> (r < 3)%nat ->
       nth (3 * i + r) Constants.SMPL_POSE_FLIP_PERM 0%nat
       = (3 * nth i Constants.SMPL_JOINTS_FLIP_PERM 0 + r)%nat.
Proof.
  apply (pose_flip_loop_is_flip Constants.SMPL_JOINTS_FLIP_PERM).
  exact smpl_joints_flip.
Defined.

(** X29.  Every flip table of the constants is a permutation of its
    indices and its own inverse: flipping twice gives back the order. *)
Theorem flip_tables_are_flips :
  is_flip Constants.SMPL_JOINTS_FLIP_PERM
  /\ is_flip Constants.SMPL_POSE_FLIP_PERM
  /\ is_flip Constants.J24_FLIP_PERM
  /\ is_flip Constants.J49_FLIP_PERM
  /\ is_flip Constants.SMPL_J49_FLIP_PERM
  /\ is_flip Constants.LRHAND_FLIP_PERM
  /\ is_flip Constants.SINGLE_HAND_FLIP_PERM
  /\ is_flip Constants.FEEF_FLIP_PERM
  /\ is_flip Constants.FACE_FLIP_PERM.
Proof.
  repeat split; apply is_flipb_sound; vm_compute; reflexivity.
Qed.

(** The lengths agree with the tables of names, and the flips exchange
    left and right names. *)
Lemma flip_tables_mirror_names :
  mirrorsb Constants.J24_FLIP_PERM Constants.SPIN_JOINT_NAMES = true
  /\ mirrorsb Constants.J49_FLIP_PERM Constants.JOINT_NAMES = true
  /\ mirrorsb Constants.FACE_FLIP_PERM Constants.FACIAL_LANDMARKS = true
  /\ length Constants.LRHAND_FLIP_PERM = (2 * length Constants.HAND_NAMES)%nat
  /\ length Constants.FEEF_FLIP_PERM = (2 * length Constants.FOOT_NAMES)%nat.
Proof. repeat split; vm_compute; reflexivity. Qed.

(** *** Dictionaries *)

Lemma lookup_insert {V : Type} (d : Dict.t V) (k k' : string) (v : V) :
  Dict.lookup (Dict.insert d k v) k'
  = if String.eqb k k' then Some v else Dict.lookup d k'.
Proof.
  induction d as [| [k0 v0] d IH]; cbn [Dict.insert Dict.lookup].
  - reflexivity.
  - destruct (String.eqb_spec k0 k) as [-> | N]; cbn [Dict.lookup].
    + destruct (String.eqb k k'); reflexivity.
    + destruct (String.eqb_spec k0 k') as [-> | N'].
      * destruct (String.eqb_spec k k') as [E | _]; [congruence | reflexivity].
      * exact IH.
Qed.

Lemma lookup_fold_not_in {V : Type} (items : list (string * V)) (d : Dict.t V)
    (k : string) :
  ~ In k (map fst items) ->
  Dict.lookup (fold_left (fun d kv => Dict.insert d (fst kv) (snd kv)) items d) k
  = Dict.lookup d k.
Proof.
  revert d. induction items as [| [k0 v0] items IH]; intros d Hn; [reflexivity |].
  cbn [fold_left fst snd]. rewrite IH by (intros H; apply Hn; right; exact H).
  rewrite lookup_insert.
  destruct (String.eqb_spec k0 k) as [-> | _]; [| reflexivity].
  exfalso. apply Hn. left. reflexivity.
Qed.

(** A key that the items hold once is looked up to its value; a key that
    they do not hold is a [KeyError]. *)
Lemma lookup_of_items {V : Type} (items : list (string * V)) (k : string) (v : V) :
  NoDup (map fst items) -> In (k, v) items ->
  Dict.lookup (Dict.of_items items) k = Some v.
Proof.
  unfold Dict.of_items. generalize (@nil (string * V)) as d.
  induction items as [| [k0 v0] items IH]; intros d Hnd Hin; [contradiction |].
  cbn [map fst] in Hnd. inversion Hnd as [| ? ? Hk0 Hnd']; subst.
  cbn [fold_left fst snd]. destruct Hin as [E | Hin].
  - injection E as -> ->. rewrite lookup_fold_not_in by exact Hk0.
    rewrite lookup_insert, String.eqb_refl. reflexivity.
  - apply IH; assumption.
Qed.

Lemma lookup_of_items_none {V : Type} (items : list (string * V)) (k : string) :
  ~ In k (map fst items) -> Dict.lookup (Dict.of_items items) k = None.
Proof. intros H. unfold Dict.of_items. rewrite lookup_fold_not_in by exact H. reflexivity. Qed.

(** The comprehension [{names[i]: i for i in range(len(names))}]. *)
Lemma comprehension_lookup (names : list string) (i : nat) :
  NoDup names -> (i < length names)%nat ->
  Dict.lookup
    (Dict.of_items (map (fun i => (nth i names EmptyString, i)) (range 0 (length names))))
    (nth i names EmptyString)
  = Some i.
Proof.
  intros Hnd Hi. apply lookup_of_items.
  - rewrite map_map. cbn [fst]. unfold range. rewrite Nat.sub_0_r, map_nth_seq. exact Hnd.
  - apply in_map_iff. exists i. split; [reflexivity |].
    unfold range. apply in_seq. lia.
Qed.

Lemma comprehension_lookup_inv (names : list string) (k : string) (i : nat) :
  NoDup names ->
  Dict.lookup
    (Dict.of_items (map (fun i => (nth i names EmptyString, i)) (range 0 (length names))))
    k
  = Some i ->
  (i < length names)%nat /\ nth i names EmptyString = k.
Proof.
  intros Hnd E.
  destruct (in_dec string_dec k names) as [Hin | Hnin].
  - apply (In_nth _ _ EmptyString) in Hin as (j & Hj & <-).
    rewrite comprehension_lookup in E by assumption.
    injection E as <-. split; [exact Hj | reflexivity].
  - rewrite lookup_of_items_none in E; [discriminate |].
    rewrite map_map. cbn [fst]. unfold range. rewrite Nat.sub_0_r, map_nth_seq. exact Hnin.
Qed.

Lemma nodup_by_test (l : list string) :
  length (nodup string_dec l) = length l -> NoDup l.
Proof.
  intros H. induction l as [| a l IH]; [constructor |].
  cbn [nodup] in H. destruct (in_dec string_dec a l) as [Hin | Hnin].
  - exfalso. pose proof (nodup_incl string_dec) as _.
    assert (length (nodup string_dec l) <= length l)%nat.
    { apply NoDup_incl_length; [apply NoDup_nodup |].
      intros x Hx. apply nodup_In in Hx. exact Hx. }
    cbn [length] in H. lia.
  - cbn [length] in H. constructor; [exact Hnin | apply IH; lia].
Qed.

Lemma joint_names_nodup : NoDup Constants.JOINT_NAMES.
Proof. apply nodup_by_test. vm_compute. reflexivity. Qed.

(** X30.  [JOINT_IDS] is the inverse of [JOINT_NAMES]: the 49 names are
    all different, the name at index [i] is looked up to [i], a name that
    is looked up to [i] is the name at index [i], any other name is a
    missing key; and every one of the 49 names is a key of [JOINT_MAP]. *)
Theorem joint_ids_inverse :
  length Constants.JOINT_NAMES = 49%nat
  /\ (forall i : nat, (i < 49)%nat ->
        Dict.lookup Constants.JOINT_IDS (nth i Constants.JOINT_NAMES EmptyString)
        = Some i)
  /\ (forall (name : string) (i : nat),
        Dict.lookup Constants.JOINT_IDS name = Some i ->
        (i < 49)%nat /\ nth i Constants.JOINT_NAMES EmptyString = name)
  /\ (forall i : nat, (i < 49)%nat ->
        exists j : nat,
          Dict.lookup Constants.JOINT_MAP (nth i Constants.JOINT_NAMES EmptyString)
          = Some j).
Proof.
  assert (L : length Constants.JOINT_NAMES = 49%nat) by reflexivity.
  split; [exact L |]. split; [| split].
  - intros i Hi. apply comprehension_lookup; [exact joint_names_nodup | rewrite L; exact Hi].
  - intros name i E. rewrite <- L.
    apply comprehension_lookup_inv; [exact joint_names_nodup | exact E].
  - assert (C : forallb (fun i =>
                  match Dict.lookup Constants.JOINT_MAP
                          (nth i Constants.JOINT_NAMES EmptyString) with
                  | Some _ => true
                  | None => false
                  end) (seq 0 49) = true) by (vm_compute; reflexivity).
    rewrite forallb_forall in C. intros i Hi.
    specialize (C i ltac:(apply in_seq; lia)).
    destruct (Dict.lookup _ _) as [j |]; [exists j; reflexivity | discriminate].
Qed.
